(** * A lexing and parser-combinator engine: model and properties

    Shallow embedding of [src/parser/parser.py]: the position/offset model,
    the source stream ([StringStream]), the lexer ([Lexer]), the token
    stream ([TokenStream]) and the parser algebra ([Parser] and its
    variants), followed by the properties proved about them.

    Conventions of the embedding.
    - Python [int] is [Z]; Python [str] is [string]; a Python list is a
      [list], indexed with [py_index], which follows Python's treatment of
      negative and out-of-range indices.  Where the library narrows an [int]
      to a 64-bit index (the count of [StringIO.read]), the model raises as
      the library does; the length of a [str] always fits such an index.
    - A compiled regular expression is the function its [search] method
      computes: the text of group 0 of the match, if there is one.  The
      regular expression engine itself belongs to the Python library.
    - Mutable objects are threaded explicitly: every operation returns the
      updated object.  Statements that can raise return an [outcome].
    - Loops whose number of iterations is not bounded by the source carry a
      fuel argument; running out of fuel is the outcome [Timeout]. *)

From Stdlib Require Import ZArith List String Ascii Bool Lia DecimalString DecimalZ DecimalPos.
Import ListNotations.
Local Open Scope string_scope.
Local Open Scope Z_scope.

Set Implicit Arguments.
Set Warnings "-register-all".

(** ** Python built-ins used by the source *)

Module Py.

(** [len] of a string and of a list. *)
Definition len (s : string) : Z := Z.of_nat (String.length s).
Definition llen {A : Type} (l : list A) : Z := Z.of_nat (List.length l).

(** [l[i]]: a negative index counts from the end, an index out of range
    raises IndexError ([None]). *)
Definition py_index {A : Type} (l : list A) (i : Z) : option A :=
  if 0 <=? i then nth_error l (Z.to_nat i)
  else if - llen l <=? i then nth_error l (Z.to_nat (llen l + i))
  else None.

(** [l[-1]] for the two places that read the last element. *)
Definition py_last {A : Type} (l : list A) : option A := py_index l (-1).

(** [str(n)] for an integer, as in an f-string. *)
Definition str_of_int (n : Z) : string := NilZero.string_of_int (Z.to_int n).

(** [x in l] for a list of strings. *)
Definition str_in (x : string) (l : list string) : bool :=
  existsb (String.eqb x) l.

(** [sep.join(l)]. *)
Definition join (sep : string) (l : list string) : string := String.concat sep l.

(** The characters from index [n] on: [s[n:]] for [n >= 0]. *)
Fixpoint drop (n : nat) (s : string) : string :=
  match n, s with
  | O, _ => s
  | S _, EmptyString => EmptyString
  | S n', String _ rest => drop n' rest
  end.

(** At most the first [n] characters: [s[:n]] for [n >= 0]. *)
Fixpoint take (n : nat) (s : string) : string :=
  match n, s with
  | O, _ => EmptyString
  | S _, EmptyString => EmptyString
  | S n', String c rest => String c (take n' rest)
  end.

Definition newline : ascii := "010"%char.

(** [StringIO(s).readlines()] with the default [newline='\n']: the text is
    cut after every line feed, each line keeps its terminator, and an empty
    text has no line. *)
Fixpoint readlines (s : string) : list string :=
  match s with
  | EmptyString => []
  | String c rest =>
      if Ascii.eqb c newline then String c EmptyString :: readlines rest
      else match readlines rest with
           | [] => [String c EmptyString]
           | l :: ls => String c l :: ls
           end
  end.

End Py.
Import Py.

(** ** Position *)

Record Position : Type := mkPosition { line : Z; column : Z }.

(** [Position.__str__]. *)
Definition Position_str (p : Position) : string :=
  "(" ++ str_of_int (line p) ++ ", " ++ str_of_int (column p) ++ ")".

(** ** Exceptions and outcomes *)

(** [Parser.Error]: [args[0]] is the position, [args[1]] the message. *)
Record Error : Type := mkError { err_position : Position; err_msg : string }.

(** What a statement of the source can do: return a value, raise a
    [Parser.Error], raise any other exception (IndexError, KeyError, a failed
    assertion, "Invalid position"), or - in the model only - run out of
    fuel. *)
Inductive outcome (A : Type) : Type :=
| Ok (a : A)
| Raise (e : Error)
| Crash (what : string)
| Timeout.
Arguments Raise {A} e.
Arguments Crash {A} what.
Arguments Timeout {A}.

(** ** StringStream *)

Module StringStream.

(** [string_] is the text held by the StringIO object, [pos] its cursor
    ([tell()]), [size] and [lineStarts] the two private fields. *)
Record t : Type := mk {
  string_ : string;
  size : Z;
  lineStarts : list Z;
  pos : Z
}.

(** The loop of [__init__]: one more line start per line but the last.  The
    list it reads the last element of starts as [[0]] and is never empty. *)
Definition lineStarts_of (lines : list string) : list Z :=
  fold_left (fun starts ln => (starts ++ [match py_last starts with
                                           | Some l => l + len ln
                                           | None => len ln
                                           end])%list)
            (removelast lines) [0].

Definition init (s : string) : t :=
  {| string_ := s; size := len s; lineStarts := lineStarts_of (readlines s); pos := 0 |}.

(** [StringIO.read(n)] moves the cursor by [n] characters, or to the end of
    the text if fewer remain or if [n] is negative; it yields the characters
    passed over. *)
Definition read_count (ss : t) (n : Z) : Z :=
  let avail := Z.max 0 (len (string_ ss) - pos ss) in
  if n <? 0 then avail else Z.min n avail.

Definition read_text (ss : t) (n : Z) : string :=
  take (Z.to_nat (read_count ss n)) (drop (Z.to_nat (pos ss)) (string_ ss)).

(** The stream with its cursor at [p]. *)
Definition set_pos (ss : t) (p : Z) : t :=
  {| string_ := string_ ss; size := size ss; lineStarts := lineStarts ss; pos := p |}.

(** [StringIO.seek(p)] raises ValueError on a negative position. *)
Definition seek (ss : t) (p : Z) : outcome t :=
  if p <? 0 then Crash "ValueError: Negative seek position" else Ok (set_pos ss p).

(** [Peek] and [PeekRemainder] seek back to the position [tell()] gave them,
    which [seek] accepts: they leave the stream as it was. *)
Definition Peek (ss : t) : string := read_text ss 1.

Definition Get (ss : t) : string * t :=
  (read_text ss 1, set_pos ss (pos ss + read_count ss 1)).

Definition PeekRemainder (ss : t) : string := read_text ss (-1).

(** The stream once [self.__stream.read(n)] has passed over [n] characters,
    for a count [n] that [read] accepts. *)
Definition read_over (ss : t) (n : Z) : t := set_pos ss (pos ss + read_count ss n).

(** [StringIO.read] converts its count to a C [Py_ssize_t], 64 bits wide,
    and raises OverflowError for an integer that does not fit. *)
Definition SSIZE_T_MIN : Z := -9223372036854775808.
Definition SSIZE_T_MAX : Z := 9223372036854775807.

Definition fits_ssize_t (n : Z) : bool := (SSIZE_T_MIN <=? n) && (n <=? SSIZE_T_MAX).

(** [Ignore]: [self.__stream.read(amt)].  When [read] raises, the cursor
    has not moved. *)
Definition Ignore (ss : t) (amt : Z) : outcome t :=
  if fits_ssize_t amt then Ok (read_over ss amt) else Crash "OverflowError".

Definition GetOffset (ss : t) : Z := pos ss.

Definition SetOffset (ss : t) (offset : Z) : outcome t :=
  seek ss (Z.max 0 (Z.min offset (size ss))).

Definition IsEOS (ss : t) : bool := GetOffset ss =? size ss.

(** The [for] loop of [GetPosition], with its [break]. *)
Fixpoint GetPosition_loop (starts : list Z) (offset line closestLineStart : Z) : Z * Z :=
  match starts with
  | [] => (line, closestLineStart)
  | lineStart :: rest =>
      if lineStart >? offset then (line, closestLineStart)
      else GetPosition_loop rest offset (line + 1) lineStart
  end.

Definition GetPosition (ss : t) : Position :=
  let offset := GetOffset ss in
  let '(line, closestLineStart) := GetPosition_loop (lineStarts ss) offset 0 0 in
  mkPosition line (offset - closestLineStart + 1).

Definition invalid_position (p : Position) : string :=
  "Invalid position: " ++ Position_str p.

(** [SetPosition]: the two [raise Exception] are [Crash (invalid_position
    pos)]; an index outside [lineStarts] is the IndexError Python raises. *)
Definition SetPosition (ss : t) (p : Position) : outcome t :=
  let n := llen (lineStarts ss) in
  if (line p >? n) || (line p =? 0) || (column p =? 0) then
    Crash (invalid_position p)
  else
    match py_index (lineStarts ss) (line p - 1) with
    | None => Crash "IndexError"
    | Some lineStart =>
        match (if line p =? n then Some (size ss) else py_index (lineStarts ss) (line p)) with
        | None => Crash "IndexError"
        | Some lineEnd =>
            let lineWidth := lineEnd - lineStart in
            if column p - 1 >? lineWidth then Crash (invalid_position p)
            else SetOffset ss (lineStart + column p - 1)
        end
    end.

(** The stream over [s] with its cursor at [o]. *)
Definition at_ (s : string) (o : Z) : t := set_pos (init s) o.

(** The operations of the class, as requests, and the stream each leaves
    behind; an operation that raises leaves the stream as it was. *)
Inductive op : Type :=
| OpPeek
| OpGet
| OpPeekRemainder
| OpIgnore (amt : Z)
| OpGetOffset
| OpSetOffset (offset : Z)
| OpIsEOS
| OpGetPosition
| OpSetPosition (p : Position).

Definition keep (ss : t) (o : outcome t) : t :=
  match o with
  | Ok ss' => ss'
  | _ => ss
  end.

Definition apply_op (ss : t) (o : op) : t :=
  match o with
  | OpPeek | OpPeekRemainder | OpGetOffset | OpIsEOS | OpGetPosition => ss
  | OpGet => snd (Get ss)
  | OpIgnore amt => keep ss (Ignore ss amt)
  | OpSetOffset offset => keep ss (SetOffset ss offset)
  | OpSetPosition p => keep ss (SetPosition ss p)
  end.

Definition run (ss : t) (ops : list op) : t := fold_left apply_op ops ss.

(** The state every stream over the text [s] is in. *)
Definition wf (s : string) (ss : t) : Prop :=
  string_ ss = s /\ size ss = len s /\ lineStarts ss = lineStarts (init s)
  /\ 0 <= pos ss <= len s.

(** The running sums of the lengths of [lines], from [a] on: where the
    lines that follow start. *)
Fixpoint line_ends (a : Z) (lines : list string) : list Z :=
  match lines with
  | [] => []
  | ln :: rest => (a + len ln) :: line_ends (a + len ln) rest
  end.

(** The number of characters of [lines]. *)
Fixpoint total_len (lines : list string) : Z :=
  match lines with
  | [] => 0
  | ln :: rest => len ln + total_len rest
  end.

(** A two-line text, for the examples: "a", line feed, "b". *)
Definition two_lines : string := String "a" (String newline (String "b" EmptyString)).

End StringStream.

(** ** Lexer *)

Definition PatternID : Type := string.

(** A compiled [re.Pattern], seen through [search]: [regex s] is
    [searchResult[0]], or [None] when [search] returns [None]. *)
Definition Regex : Type := string -> option string.

(** A pattern action.  The source passes the lexer itself as first argument;
    the lexer is not changed by [Lex], so an action is a function of the
    matched text, and the annotation [-> str] is its result type: the
    assertion of [Lex] on the result holds by typing. *)
Definition Action : Type := option (string -> string).

Record Pattern : Type := mkPattern { id : PatternID; regex : Regex; action : Action }.

Record Token : Type := mkToken { patternID : PatternID; position : Position; value : string }.

Module Lexer.

Definition CreatePatternIDFromIdx (idx : Z) : PatternID :=
  "<Pattern: " ++ str_of_int idx ++ ">".

Definition EOS_PATTERN_ID : PatternID := "<EOS>".
Definition UNKNOWN_PATTERN_ID : PatternID := "<UNKNOWN>".

Record t : Type := mk {
  patternEOS : Pattern;
  patternUnknown : Pattern;
  patterns : list Pattern
}.

(** [re.compile("")]: the empty expression matches the empty text. *)
Definition re_empty : Regex := fun _ => Some "".

Definition init (onEOS onUnknown : Action) : t :=
  {| patternEOS := mkPattern EOS_PATTERN_ID re_empty onEOS;
     patternUnknown := mkPattern UNKNOWN_PATTERN_ID re_empty onUnknown;
     patterns := [] |}.

Definition already_exists (patternID : PatternID) : string :=
  "Pattern with id '" ++ patternID ++ "' already exists!".

(** [AddPattern]; [re_compile] is [re.compile], which raises [re.error]
    ([None]) on a malformed expression. *)
Definition AddPattern (re_compile : string -> option Regex)
    (lx : t) (regex : string) (action : Action) (id_ : option PatternID)
    : outcome (PatternID * t) :=
  let patternID := match id_ with
                   | None => CreatePatternIDFromIdx (llen (patterns lx))
                   | Some i => i
                   end in
  if str_in patternID (map id (patterns lx)) then Crash (already_exists patternID)
  else
    match re_compile ("^(" ++ regex ++ ")") with
    | None => Crash "re.error"
    | Some r =>
        let ps := (patterns lx ++ [mkPattern patternID r action])%list in
        match py_last ps with
        | None => Crash "IndexError"
        | Some p => Ok (id p, {| patternEOS := patternEOS lx;
                                 patternUnknown := patternUnknown lx;
                                 patterns := ps |})
        end
    end.

(** The [for] loop of [Lex] over the registered patterns; its state is
    [(matchingPattern, matchValue, greatestPatternMatchLength)]. *)
Fixpoint Lex_loop (ps : list Pattern) (str : string)
    (matchingPattern : option Pattern) (matchValue : string)
    (greatestPatternMatchLength : Z) : option Pattern * string * Z :=
  match ps with
  | [] => (matchingPattern, matchValue, greatestPatternMatchLength)
  | pattern :: rest =>
      match regex pattern str with
      | None => Lex_loop rest str matchingPattern matchValue greatestPatternMatchLength
      | Some match_ =>
          if match matchingPattern with None => true | Some _ => false end
             || (len match_ >? greatestPatternMatchLength)
          then Lex_loop rest str (Some pattern) match_ (len match_)
          else Lex_loop rest str matchingPattern matchValue greatestPatternMatchLength
      end
  end.

(** The pattern and the matched text [Lex] settles on. *)
Definition Lex_select (lx : t) (stream : StringStream.t) : Pattern * string :=
  if StringStream.IsEOS stream then (patternEOS lx, "")
  else
    match Lex_loop (patterns lx) (StringStream.PeekRemainder stream) None "" 0 with
    | (Some p, matchValue, _) => (p, matchValue)
    | (None, _, _) => (patternUnknown lx, StringStream.Peek stream)
    end.

Definition apply_action (a : Action) (matchValue : string) : string :=
  match a with
  | None => matchValue
  | Some f => f matchValue
  end.

(** [Lex].  The count of [stream.Ignore(len(matchValue))] is the length of
    a [str], which always fits a [Py_ssize_t]: the call cannot raise, and is
    the read itself. *)
Definition Lex (lx : t) (stream : StringStream.t) : Token * StringStream.t :=
  let streamPos := StringStream.GetPosition stream in
  let '(matchingPattern, matchValue) := Lex_select lx stream in
  let stream' := StringStream.read_over stream (len matchValue) in
  let value := apply_action (action matchingPattern) matchValue in
  (mkToken (id matchingPattern) streamPos value, stream').

(** [Lex] called [n] times in a row on the same stream. *)
Fixpoint Lex_iter (n : nat) (lx : t) (stream : StringStream.t) : StringStream.t :=
  match n with
  | O => stream
  | S n' => Lex_iter n' lx (snd (Lex lx stream))
  end.

End Lexer.

(** ** TokenStream *)

Module TokenStream.

Record t : Type := mk {
  lexer : Lexer.t;
  stream : StringStream.t;
  offset : Z;
  tokens : list Token;
  ignores : list PatternID
}.

Definition init (lx : Lexer.t) (s : string) (ignores_ : option (list PatternID)) : outcome t :=
  let ign := match ignores_ with Some l => l | None => [] end in
  if str_in Lexer.EOS_PATTERN_ID ign then Crash "<EOS> cannot be ignored!"
  else Ok {| lexer := lx; stream := StringStream.init s; offset := 0;
             tokens := []; ignores := ign |}.

Definition set_offset (ts : t) (o : Z) : t :=
  {| lexer := lexer ts; stream := stream ts; offset := o;
     tokens := tokens ts; ignores := ignores ts |}.

Definition GetOffset (ts : t) : Z := offset ts.

Definition SetOffset (ts : t) (o : Z) : t :=
  set_offset ts (Z.max 0 (Z.min o (llen (tokens ts) - 1))).

Definition IsEOS (ts : t) : bool :=
  negb (llen (tokens ts) =? 0)
  && match py_last (tokens ts) with
     | Some tok => String.eqb (patternID tok) Lexer.EOS_PATTERN_ID
     | None => false
     end.

(** [self.__tokens.append(self.lexer.Lex(self.__stream))]. *)
Definition lex_one (ts : t) : t :=
  let '(tok, ss) := Lexer.Lex (lexer ts) (stream ts) in
  {| lexer := lexer ts; stream := ss; offset := offset ts;
     tokens := (tokens ts ++ [tok])%list; ignores := ignores ts |}.

(** The inner [while] of [Get].  Every iteration appends one token, so the
    loop runs at most [offset + 1 - len(tokens)] times: [fill] below calls
    it with that bound, which [fill_done] shows is never what stops it. *)
Fixpoint fill_loop (n : nat) (ts : t) : t :=
  match n with
  | O => ts
  | S n' =>
      if (llen (tokens ts) <=? offset ts) && negb (IsEOS ts)
      then fill_loop n' (lex_one ts)
      else ts
  end.

Definition fill (ts : t) : t :=
  fill_loop (Z.to_nat (offset ts + 1 - llen (tokens ts))) ts.

(** [Get]: the outer [while True] has no bound in the source (a lexer that
    keeps producing ignored tokens of length zero keeps it running), hence
    the fuel. *)
Fixpoint Get (fuel : nat) (ts : t) : outcome Token * t :=
  match fuel with
  | O => (Timeout, ts)
  | S fuel' =>
      let ts1 := fill ts in
      match py_index (tokens ts1) (offset ts1) with
      | None => (Crash "IndexError", ts1)
      | Some token =>
          let ts2 := set_offset ts1 (if IsEOS ts1 then llen (tokens ts1) - 1
                                     else offset ts1 + 1) in
          if str_in (patternID token) (ignores ts2) then Get fuel' ts2
          else (Ok token, ts2)
      end
  end.

(** [Peek]: the cursor is put back only when [Get] returns. *)
Definition Peek (fuel : nat) (ts : t) : outcome Token * t :=
  let initOffset := offset ts in
  match Get fuel ts with
  | (Ok token, ts') => (Ok token, set_offset ts' initOffset)
  | r => r
  end.

Definition GetPosition (fuel : nat) (ts : t) : outcome Position * t :=
  match Peek fuel ts with
  | (Ok token, ts') => (Ok (position token), ts')
  | (Raise e, ts') => (Raise e, ts')
  | (Crash w, ts') => (Crash w, ts')
  | (Timeout, ts') => (Timeout, ts')
  end.

End TokenStream.

(** ** Parser results, errors and nodes *)

(** The values parsers produce ([Any] in the source): token values, lists,
    [Parser.Result] tuples, the [(name, value)] pair of a tagged [Choice],
    and whatever else a user transformer returns, kept by its [repr]. *)
Inductive Value : Type :=
| VStr (s : string)
| VList (l : list Value)
| VResult (position : Position) (value : Value)
| VTuple (name : string) (value : Value)
| VObj (repr : string).

(** [Parser.Result]. *)
Record Result : Type := mkResult { res_position : Position; res_value : Value }.

Definition VRes (r : Result) : Value := VResult (res_position r) (res_value r).

(** A transformer is a function of the raw value; like any call it may
    return, raise [Parser.Error], raise something else or not return. *)
Definition Transformer : Type := Value -> outcome Value.

Module ParserError.

Definition str (e : Error) : string :=
  "Error @ " ++ Position_str (err_position e) ++ ": " ++ err_msg e.

Definition Combine (error1 error2 : Error) : Error :=
  mkError (err_position error1)
          (err_msg error1 ++ String newline EmptyString ++ str error2).

Definition Expectation (expected found : string) (pos : Position) : Error :=
  mkError pos ("Expected " ++ expected ++ ", but found " ++ found).

End ParserError.

(** The parser nodes.  The thunk of a [Lazy] node is a look-up in the table
    of rules the grammar is built in ([lambda: parsers[key]]); the table is
    an argument of [parse]. *)
Inductive Parser : Type :=
| Terminal (name : string) (patternID : PatternID) (value : option string)
           (transformer : option Transformer) (ignores : list PatternID)
| Sequence (name : string) (parsers : list Parser)
           (transformer : option Transformer) (ignores : list PatternID)
| Choice (name : string) (parsers : list Parser) (tag : bool)
         (transformer : option Transformer) (ignores : list PatternID)
| Quantified (name : string) (parser : Parser) (minimum : Z) (maximum : option Z)
             (transformer : option Transformer) (ignores : list PatternID)
| Separated (name : string) (value seperator : Parser)
            (transformer : option Transformer) (ignores : list PatternID)
| Lazy (name : string) (thunk : string).

Definition GetName (p : Parser) : string :=
  match p with
  | Terminal n _ _ _ _ | Sequence n _ _ _ | Choice n _ _ _ _
  | Quantified n _ _ _ _ _ | Separated n _ _ _ _ | Lazy n _ => n
  end.

Definition Parser_ignores (p : Parser) : list PatternID :=
  match p with
  | Terminal _ _ _ _ i | Sequence _ _ _ i | Choice _ _ _ _ i
  | Quantified _ _ _ _ _ i | Separated _ _ _ _ i => i
  | Lazy _ _ => []
  end.

(** [self.__transformer]: the identity when none was given. *)
Definition Parser_transformer (p : Parser) : Transformer :=
  let t := match p with
           | Terminal _ _ _ t _ | Sequence _ _ t _ | Choice _ _ _ t _
           | Quantified _ _ _ _ t _ | Separated _ _ _ t _ => t
           | Lazy _ _ => None
           end in
  match t with
  | Some f => f
  | None => fun v => Ok v
  end.

Definition AtLeast1 (name : string) (parser : Parser)
    (transformer : option Transformer) (ignores : list PatternID) : Parser :=
  Quantified name parser 1 None transformer ignores.

Definition AtMost1 (name : string) (parser : Parser)
    (transformer : option Transformer) (ignores : list PatternID) : Parser :=
  Quantified name parser 0 (Some 1) transformer ignores.

Definition AtLeast0 (name : string) (parser : Parser)
    (transformer : option Transformer) (ignores : list PatternID) : Parser :=
  Quantified name parser 0 None transformer ignores.

(** The three lambdas of [Separated.__init__]. *)

(** [lambda result: result[1]]. *)
Definition sep_second : Transformer := fun result =>
  match result with
  | VList l => match py_index l 1 with
               | Some v => Ok v
               | None => Crash "IndexError"
               end
  | _ => Crash "TypeError"
  end.

(** [res.value] for each [res] of a list. *)
Fixpoint values_of (l : list Value) : option (list Value) :=
  match l with
  | [] => Some []
  | VResult _ v :: rest =>
      match values_of rest with
      | Some vs => Some (v :: vs)
      | None => None
      end
  | _ :: _ => None
  end.

(** [lambda result: [res.value for res in result]]. *)
Definition sep_values : Transformer := fun result =>
  match result with
  | VList l => match values_of l with
               | Some vs => Ok (VList vs)
               | None => Crash "AttributeError"
               end
  | _ => Crash "TypeError"
  end.

(** [lambda result: [result[0]] + result[1].value]. *)
Definition sep_cons : Transformer := fun result =>
  match result with
  | VList l =>
      match py_index l 0, py_index l 1 with
      | Some r0, Some (VResult _ (VList vs)) => Ok (VList (r0 :: vs))
      | Some _, Some (VResult _ _) => Crash "TypeError"
      | Some _, Some _ => Crash "AttributeError"
      | _, _ => Crash "IndexError"
      end
  | _ => Crash "TypeError"
  end.

(** [self.__parser] of a [Separated] node. *)
Definition Separated_parser (name : string) (value seperator : Parser)
    (ignores : list PatternID) : Parser :=
  let appendage := Sequence name [seperator; value] (Some sep_second) ignores in
  let tail := AtLeast0 name appendage (Some sep_values) ignores in
  Sequence name [value; tail] (Some sep_cons) ignores.

(** ** Parsing *)

(** A statement acting on the token stream. *)
Definition M (A : Type) : Type := TokenStream.t -> outcome A * TokenStream.t.

Definition ret {A : Type} (a : A) : M A := fun s => (Ok a, s).

Definition raise {A : Type} (e : Error) : M A := fun s => (Raise e, s).

Definition bind {A B : Type} (m : M A) (k : A -> M B) : M B := fun s =>
  match m s with
  | (Ok a, s') => k a s'
  | (Raise e, s') => (Raise e, s')
  | (Crash w, s') => (Crash w, s')
  | (Timeout, s') => (Timeout, s')
  end.

(** [try: m  except Parser.Error as e: ...]: the [Parser.Error] raised by
    [m], if any, is handed to the code that follows; other exceptions pass. *)
Definition catch {A : Type} (m : M A) : M (A + Error) := fun s =>
  match m s with
  | (Ok a, s') => (Ok (inl a), s')
  | (Raise e, s') => (Ok (inr e), s')
  | (Crash w, s') => (Crash w, s')
  | (Timeout, s') => (Timeout, s')
  end.

(** A pure call that may raise. *)
Definition lift {A : Type} (o : outcome A) : M A := fun s => (o, s).

Notation "x <- m ;; k" := (bind m (fun x => k))
  (at level 61, m at next level, right associativity).

(** [results[0].position if len(results) != 0 else start], with the list of
    results as value. *)
Definition list_result (start : Position) (results : list Result) : Result :=
  mkResult (match results with
            | r :: _ => res_position r
            | [] => start
            end)
           (VList (map VRes results)).

(** [while stream.Peek().patternID in self.__ignores: stream.Get()]. *)
Fixpoint skip_ignores (fuel : nat) (ign : list PatternID) : M unit :=
  match fuel with
  | O => fun s => (Timeout, s)
  | S fuel' =>
      tok <- TokenStream.Peek fuel' ;;
      if str_in (patternID tok) ign
      then (_ <- TokenStream.Get fuel' ;; skip_ignores fuel' ign)
      else ret tt
  end.

Definition Terminal_parse (fuel : nat) (patternID_ : PatternID) (value_ : option string) : M Result :=
  token <- TokenStream.Get fuel ;;
  if negb (String.eqb (patternID token) patternID_) then
    let expected := match value_ with
                    | Some v => patternID_ ++ "(" ++ v ++ ")"
                    | None => ""
                    end in
    let found := patternID token ++
                 (if negb (String.eqb (value token) "") then "(" ++ value token ++ ")" else "") in
    raise (ParserError.Expectation expected found (position token))
  else
    match value_ with
    | Some v =>
        if negb (String.eqb (value token) v)
        then raise (ParserError.Expectation v (value token) (position token))
        else ret (mkResult (position token) (VStr (value token)))
    | None => ret (mkResult (position token) (VStr (value token)))
    end.

(** The [for] loop of [Sequence._parse]. *)
Fixpoint Sequence_loop (rec : Parser -> M Result) (ps : list Parser)
    (results : list Result) : M (list Result) :=
  match ps with
  | [] => ret results
  | parser :: rest =>
      r <- rec parser ;;
      Sequence_loop rec rest (results ++ [r])%list
  end.

(** The [for] loop of [Choice._parse]; [None] when every alternative
    raised. *)
Fixpoint Choice_loop (rec : Parser -> M Result) (tag : bool) (ps : list Parser)
    : M (option Result) :=
  match ps with
  | [] => ret None
  | parser :: rest =>
      x <- catch (rec parser) ;;
      match x with
      | inl result =>
          ret (Some (if tag
                     then mkResult (res_position result)
                                   (VTuple (GetName parser) (res_value result))
                     else result))
      | inr _ => Choice_loop rec tag rest
      end
  end.

Definition expected_one_of (ps : list Parser) : string :=
  "Expected one of [" ++ join ", " (map GetName ps) ++ "]".

Definition at_least (minimum : Z) (name : string) : string :=
  "at least " ++ str_of_int minimum ++ " '" ++ name ++ "'".

Definition only (n : Z) : string := "only " ++ str_of_int n.

(** The [while] loop of [Quantified._parse]. *)
Fixpoint Quantified_loop (rec : Parser -> M Result) (fuel : nat) (parser : Parser)
    (minimum : Z) (maximum : option Z) (results : list Result) : M (list Result) :=
  match fuel with
  | O => fun s => (Timeout, s)
  | S fuel' =>
      if match maximum with
         | None => true
         | Some m => llen results <? m
         end
      then
        x <- catch (rec parser) ;;
        match x with
        | inl r => Quantified_loop rec fuel' parser minimum maximum (results ++ [r])%list
        | inr e =>
            if llen results <? minimum then
              pos <- TokenStream.GetPosition fuel' ;;
              raise (ParserError.Combine
                       (ParserError.Expectation (at_least minimum (GetName parser))
                                                (only (llen results)) pos) e)
            else ret results
        end
      else ret results
  end.

(** [_parse], the method each node kind overrides; [rec] is [parse] for the
    sub-parsers. *)
Definition _parse (rec : Parser -> M Result) (fuel : nat) (p : Parser)
    (start : Position) : M Result :=
  match p with
  | Terminal _ patternID_ value_ _ _ => Terminal_parse fuel patternID_ value_
  | Sequence _ ps _ _ =>
      results <- Sequence_loop rec ps [] ;;
      ret (list_result start results)
  | Choice _ ps tag _ _ =>
      x <- Choice_loop rec tag ps ;;
      match x with
      | Some result => ret result
      | None => raise (mkError start (expected_one_of ps))
      end
  | Quantified _ parser minimum maximum _ _ =>
      results <- Quantified_loop rec fuel parser minimum maximum [] ;;
      ret (list_result start results)
  | Separated name value_ seperator _ ignores_ =>
      x <- catch (rec (Separated_parser name value_ seperator ignores_)) ;;
      match x with
      | inl result => ret result
      | inr _ => ret (mkResult start (VList []))
      end
  | Lazy _ _ => lift (Crash "Should not be called")
  end.

Definition unable_to_parse (p : Parser) : string := "Unable to parse " ++ GetName p.

(** [Parser.parse]. *)
Definition Parser_parse (rec : Parser -> M Result) (fuel : nat) (p : Parser) : M Result :=
  fun stream =>
    let startOffset := TokenStream.GetOffset stream in
    (x <- catch (_ <- skip_ignores fuel (Parser_ignores p) ;;
                 start <- TokenStream.GetPosition fuel ;;
                 result <- _parse rec fuel p start ;;
                 v <- lift (Parser_transformer p (res_value result)) ;;
                 ret (mkResult (res_position result) v)) ;;
     match x with
     | inl result => ret result
     | inr e => fun stream' =>
         let stream'' := TokenStream.SetOffset stream' startOffset in
         (pos <- TokenStream.GetPosition fuel ;;
          raise (ParserError.Combine (mkError pos (unable_to_parse p)) e)) stream''
     end) stream.

(** [parse] of a node: [Lazy.parse], which overrides [Parser.parse], calls
    its thunk, a look-up in [table] that raises KeyError on a missing key. *)
Definition parse_body (table : string -> option Parser) (rec : Parser -> M Result)
    (fuel : nat) (p : Parser) : M Result :=
  match p with
  | Lazy _ key => fun stream =>
      match table key with
      | Some q => rec q stream
      | None => (Crash "KeyError", stream)
      end
  | _ => Parser_parse rec fuel p
  end.

Fixpoint parse (table : string -> option Parser) (fuel : nat) (p : Parser) : M Result :=
  match fuel with
  | O => fun stream => (Timeout, stream)
  | S fuel' => parse_body table (parse table fuel') fuel' p
  end.

(** ** Specification vocabulary and example objects *)

Module LexerSpec.

(** Pattern number [i] of [ps], which is [p], matches [m] at the head of
    [str]; no pattern of [ps] matches a longer text, and none registered
    before [p] matches a text as long. *)
Definition longest_first (ps : list Pattern) (str : string)
    (i : nat) (p : Pattern) (m : string) : Prop :=
  nth_error ps i = Some p /\ regex p str = Some m
  /\ forall j q m', nth_error ps j = Some q -> regex q str = Some m' ->
       len m' <= len m /\ (len m' = len m -> (i <= j)%nat).

(** Pattern number [i] of [ps], which is [p], is the first one that matches
    at the head of [str], and it matches [m]. *)
Definition first_match (ps : list Pattern) (str : string)
    (i : nat) (p : Pattern) (m : string) : Prop :=
  nth_error ps i = Some p /\ regex p str = Some m
  /\ forall j q, (j < i)%nat -> nth_error ps j = Some q -> regex q str = None.

(** No pattern of [ps] matches at the head of [str]. *)
Definition no_match (ps : list Pattern) (str : string) : Prop :=
  forall q, In q ps -> regex q str = None.

(** What the scan of [Lex] knows after the patterns [seen]. *)
Definition scanned (seen : list Pattern) (str : string)
    (st : option Pattern * string * Z) : Prop :=
  match st with
  | (None, _, _) => no_match seen str
  | (Some p, m, g) => g = len m /\ exists i, longest_first seen str i p m
  end.

End LexerSpec.

Module TokenStreamSpec.
Import TokenStream.

(** The states a token stream goes through: the cursor is within the cache
    or just past it, it is within the cache once the end-of-stream token is
    cached, and the end-of-stream id is not ignored (the assertion of
    [__init__]). *)
Definition ts_inv (ts : t) : Prop :=
  0 <= offset ts <= llen (tokens ts)
  /\ (IsEOS ts = true -> offset ts < llen (tokens ts))
  /\ str_in Lexer.EOS_PATTERN_ID (ignores ts) = false.

(** [ts'] is [ts] later on: the cache has only grown, not at all if it
    already ended with the end-of-stream token, and the ignore set is the
    same. *)
Definition ext (ts ts' : t) : Prop :=
  ignores ts' = ignores ts
  /\ exists l, tokens ts' = (tokens ts ++ l)%list /\ (IsEOS ts = true -> l = []).

(** A [Peek] at [ts] returns and leaves [ts] as it is. *)
Definition peekable (ts : t) : Prop :=
  exists fuel tok, Peek fuel ts = (Ok tok, ts).

End TokenStreamSpec.

Module ParserSpec.
Import TokenStream TokenStreamSpec.

(** The statement [m] keeps the token stream in order: from a state of the
    invariant it ends in a state of the invariant, reached by lexing only. *)
Definition stable {A : Type} (m : M A) : Prop :=
  forall s o s', ts_inv s -> m s = (o, s') -> ts_inv s' /\ ext s s'.

(** The statement [m] does not raise [Parser.Error]. *)
Definition silent {A : Type} (m : M A) : Prop :=
  forall s e s', ts_inv s -> m s <> (Raise e, s').

(** Whatever [m1] does without running out of fuel, [m2] does too. *)
Definition le_m {A : Type} (m1 m2 : M A) : Prop :=
  forall s o s', m1 s = (o, s') -> o <> Timeout -> m2 s = (o, s').

(** The parser [q] succeeds [length rs] times in a row from [s], giving the
    results [rs] and reaching [s']. *)
Inductive repeats (table : string -> option Parser) (q : Parser)
    : TokenStream.t -> list Result -> TokenStream.t -> Prop :=
| repeats_nil (s : TokenStream.t) : repeats table q s [] s
| repeats_cons (s : TokenStream.t) (r : Result) (s1 : TokenStream.t)
    (rs : list Result) (s2 : TokenStream.t) (fuel : nat) :
    parse table fuel q s = (Ok r, s1) ->
    repeats table q s1 rs s2 ->
    repeats table q s (r :: rs) s2.



End ParserSpec.

(** ** Runs of a separated list *)

Module SeparatedSpec.


End SeparatedSpec.

Module Examples.

(** The compiled form of [^(w)] for a literal text [w]. *)
Definition re_lit (w : string) : Regex :=
  fun s => if String.prefix w s then Some w else None.

(** The leading blanks of a text. *)
Fixpoint blanks (s : string) : string :=
  match s with
  | String c rest => if Ascii.eqb c " "%char then String c (blanks rest) else EmptyString
  | EmptyString => EmptyString
  end.

(** The compiled form of an expression for any number of blanks, possibly
    none: it matches at the head of every text. *)
Definition re_blanks : Regex := fun s => Some (blanks s).

(** A stand-in for [re.compile] on the expressions [^(w)] with [w] a
    literal text: it drops the two leading characters and the closing
    parenthesis. *)
Definition compile_literal (src : string) : option Regex :=
  if String.prefix "^(" src
  then Some (re_lit (take (Nat.sub (String.length src) 3) (drop 2 src)))
  else None.

Definition lexer_of (ps : list Pattern) : Lexer.t :=
  {| Lexer.patternEOS := Lexer.patternEOS (Lexer.init None None);
     Lexer.patternUnknown := Lexer.patternUnknown (Lexer.init None None);
     Lexer.patterns := ps |}.

Definition pat_a : Pattern := mkPattern "A" (re_lit "a") None.
Definition pat_b : Pattern := mkPattern "B" (re_lit "b") None.
Definition pat_ab : Pattern := mkPattern "AB" (re_lit "ab") None.
Definition pat_a' : Pattern := mkPattern "A'" (re_lit "a") None.

(** A pattern that matches blanks, with an action that ignores the match. *)
Definition pat_blanks_marked : Pattern :=
  mkPattern "WS" re_blanks (Some (fun _ => "<blank>")).

Definition pat_blanks : Pattern := mkPattern "WS" re_blanks None.

(** The token stream over the text "ab" with a pattern for each letter and
    nothing ignored, as [TokenStream.init] builds it. *)
Definition ts_ab : TokenStream.t :=
  {| TokenStream.lexer := lexer_of [pat_a; pat_b];
     TokenStream.stream := StringStream.init "ab";
     TokenStream.offset := 0;
     TokenStream.tokens := [];
     TokenStream.ignores := [] |}.

(** [ts_ab] after three calls of [Get]: the whole text is lexed and the
    end-of-stream token is cached. *)
Definition ts_ab_lexed : TokenStream.t :=
  snd (TokenStream.Get 3 (snd (TokenStream.Get 3 (snd (TokenStream.Get 3 ts_ab))))).

(** The token stream over the text "x" whose only pattern matches blanks,
    possibly none, and is ignored. *)
Definition ts_blank_ignored : TokenStream.t :=
  {| TokenStream.lexer := lexer_of [pat_blanks];
     TokenStream.stream := StringStream.init "x";
     TokenStream.offset := 0;
     TokenStream.tokens := [];
     TokenStream.ignores := ["WS"] |}.

(** A grammar table with no rule, for grammars without [Lazy] nodes. *)
Definition no_table : string -> option Parser := fun _ => None.

Definition term_a : Parser := Terminal "a" "A" None None [].
Definition term_b : Parser := Terminal "b" "B" None None [].

(** Two "a" in a row: on the text "ab" it takes the first token and fails
    on the second. *)
Definition seq_aa : Parser := Sequence "aa" [term_a; term_a] None [].

(** What [term_a] returns on [ts_ab], and the stream it leaves. *)
Definition result_a : Result := mkResult (mkPosition 1 1) (VStr "a").
Definition ts_ab_1 : TokenStream.t := snd (parse no_table 3 term_a ts_ab).

(** The error [term_a] raises on [ts_ab_1], where the next token is that of
    "b", and the stream it leaves. *)
Definition error_b : Error :=
  ParserError.Combine (mkError (mkPosition 1 2) (unable_to_parse term_a))
                      (ParserError.Expectation "" "B(b)" (mkPosition 1 2)).
Definition ts_ab_2 : TokenStream.t := snd (parse no_table 3 term_a ts_ab_1).

(** The error [seq_aa] raises on [ts_ab], and the stream it leaves. *)
Definition error_aa : Error :=
  ParserError.Combine (mkError (mkPosition 1 1) (unable_to_parse seq_aa)) error_b.
Definition ts_ab_failed : TokenStream.t := snd (parse no_table 5 seq_aa ts_ab).



(** An array grammar: an opening bracket, values "a" separated by commas, a
    closing bracket; blanks are ignored by the token stream. *)
Definition array_lexer : Lexer.t :=
  lexer_of [mkPattern "WS" (re_lit " ") None;
            mkPattern "SYMBOL[" (re_lit "[") None;
            mkPattern "SYMBOL]" (re_lit "]") None;
            mkPattern "SYMBOL," (re_lit ",") None;
            pat_a].

Definition array : Parser :=
  Sequence "array"
    [Terminal "[" "SYMBOL[" None None [];
     Separated "values" term_a (Terminal "," "SYMBOL," None None []) None [];
     Terminal "]" "SYMBOL]" None None []]
    None [].

Definition array_stream (text : string) : TokenStream.t :=
  {| TokenStream.lexer := array_lexer;
     TokenStream.stream := StringStream.init text;
     TokenStream.offset := 0;
     TokenStream.tokens := [];
     TokenStream.ignores := ["WS"] |}.

(** Two alternatives over the text "ab": "a" "b" "c", which fails at the end
    of the text, and "a" "b". *)
Definition term_c : Parser := Terminal "c" "C" None None [].
Definition seq_ab : Parser := Sequence "ab" [term_a; term_b] None [].
Definition seq_abc : Parser := Sequence "abc" [term_a; term_b; term_c] None [].
Definition abc_or_ab : Parser := Choice "alt" [seq_abc; seq_ab] false None [].





End Examples.

(** ** Registering several patterns *)

Module Registration.

(** One call of [AddPattern]: the expression, the action, the id if one is
    given. *)
Definition request : Type := (string * Action * option PatternID)%type.

(** The calls [reqs] of [AddPattern], in order, on the lexer [lx]; the first
    one that raises stops the sequence. *)
Fixpoint add_all (re_compile : string -> option Regex) (lx : Lexer.t)
    (reqs : list request) : outcome Lexer.t :=
  match reqs with
  | [] => Ok lx
  | (regex_, action_, id_) :: rest =>
      match Lexer.AddPattern re_compile lx regex_ action_ id_ with
      | Ok (_, lx') => add_all re_compile lx' rest
      | Raise e => Raise e
      | Crash w => Crash w
      | Timeout => Timeout
      end
  end.

(** The id the pattern registered by the [i]-th call gets. *)
Definition id_of (i : nat) (r : request) : PatternID :=
  match snd r with
  | Some x => x
  | None => Lexer.CreatePatternIDFromIdx (Z.of_nat i)
  end.

(** The ids the calls [reqs] ask for, the first of them being call number
    [i]. *)
Fixpoint ids (i : nat) (reqs : list request) : list PatternID :=
  match reqs with
  | [] => []
  | r :: rest => id_of i r :: ids (S i) rest
  end.

(** The expression of the call [r] compiles. *)
Definition compiles (re_compile : string -> option Regex) (r : request) : Prop :=
  re_compile ("^(" ++ fst (fst r) ++ ")") <> None.

End Registration.

(** ** The lexer of [src/parser/parser_generator.py]

    Its patterns carry integer ids: 0 and 1 are the end-of-stream and unknown
    sentinels, and [AddPattern] numbers the registered patterns itself. *)

Module Generator.

Record Pattern : Type := mkPattern { id : Z; regex : Regex; action : Action }.

Definition EOS_PATTERN_ID : Z := 0.
Definition UNKNOWN_PATTERN_ID : Z := 1.

Record t : Type := mk {
  patternEOS : Pattern;
  patternUnknown : Pattern;
  patterns : list Pattern
}.

Definition init (onEOS onUnknown : Action) : t :=
  {| patternEOS := mkPattern EOS_PATTERN_ID Lexer.re_empty onEOS;
     patternUnknown := mkPattern UNKNOWN_PATTERN_ID Lexer.re_empty onUnknown;
     patterns := [] |}.

(** [AddPattern]: the id is the number of registered patterns plus 2, the
    expression is compiled anchored at the start. *)
Definition AddPattern (re_compile : string -> option Regex)
    (lx : t) (regex_ : string) (action_ : Action) : outcome (Z * t) :=
  let patternID := llen (patterns lx) + 2 in
  match re_compile ("^" ++ regex_) with
  | None => Crash "re.error"
  | Some r =>
      let ps := (patterns lx ++ [mkPattern patternID r action_])%list in
      match py_last ps with
      | None => Crash "IndexError"
      | Some p => Ok (id p, {| patternEOS := patternEOS lx;
                               patternUnknown := patternUnknown lx;
                               patterns := ps |})
      end
  end.

(** Several calls of [AddPattern] in a row. *)
Fixpoint add_all (re_compile : string -> option Regex) (lx : t)
    (reqs : list (string * Action)) : outcome t :=
  match reqs with
  | [] => Ok lx
  | (regex_, action_) :: rest =>
      match AddPattern re_compile lx regex_ action_ with
      | Ok (_, lx') => add_all re_compile lx' rest
      | Raise e => Raise e
      | Crash w => Crash w
      | Timeout => Timeout
      end
  end.

(** The ids [first], [first + 1], ... of [n] patterns. *)
Fixpoint ids_from (first : Z) (n : nat) : list Z :=
  match n with
  | O => []
  | S n' => first :: ids_from (first + 1) n'
  end.

End Generator.

(** ** Calls on a token stream

    The public methods of [TokenStream] as requests, to speak of every
    sequence of calls a user can make. *)

Module Session.

Inductive call : Type :=
| CallGet
| CallPeek
| CallGetPosition
| CallGetOffset
| CallSetOffset (offset : Z)
| CallIsEOS.

(** How a call ended, without what it returned. *)
Definition ended {A : Type} (r : outcome A * TokenStream.t) : outcome unit * TokenStream.t :=
  (match fst r with
   | Ok _ => Ok tt
   | Raise e => Raise e
   | Crash w => Crash w
   | Timeout => Timeout
   end, snd r).

Definition step (fuel : nat) (c : call) (ts : TokenStream.t) : outcome unit * TokenStream.t :=
  match c with
  | CallGet => ended (TokenStream.Get fuel ts)
  | CallPeek => ended (TokenStream.Peek fuel ts)
  | CallGetPosition => ended (TokenStream.GetPosition fuel ts)
  | CallSetOffset o => (Ok tt, TokenStream.SetOffset ts o)
  | CallGetOffset | CallIsEOS => (Ok tt, ts)
  end.

(** The calls [cs] in order; the first one that does not return ends the
    sequence. *)
Fixpoint run (fuel : nat) (cs : list call) (ts : TokenStream.t) : outcome unit * TokenStream.t :=
  match cs with
  | [] => (Ok tt, ts)
  | c :: rest =>
      match step fuel c ts with
      | (Ok _, ts') => run fuel rest ts'
      | r => r
      end
  end.

End Session.


(** ** Runs of sub-parsers *)

Module CombinatorSpec.

(** The parsers [ps] succeed one after the other from [s], each from the
    state the one before left, giving the results [rs] and reaching [s']. *)
Inductive threads (rec : Parser -> M Result)
    : list Parser -> TokenStream.t -> list Result -> TokenStream.t -> Prop :=
| threads_nil (s : TokenStream.t) : threads rec [] s [] s
| threads_cons (p : Parser) (ps : list Parser) (s : TokenStream.t) (r : Result)
    (s1 : TokenStream.t) (rs : list Result) (s2 : TokenStream.t) :
    rec p s = (Ok r, s1) ->
    threads rec ps s1 rs s2 ->
    threads rec (p :: ps) s (r :: rs) s2.

(** The parsers [ps] raise [Parser.Error] one after the other from [s], each
    from the state the one before left, reaching [s']. *)
Inductive rejected (rec : Parser -> M Result)
    : list Parser -> TokenStream.t -> TokenStream.t -> Prop :=
| rejected_nil (s : TokenStream.t) : rejected rec [] s s
| rejected_cons (p : Parser) (ps : list Parser) (s : TokenStream.t) (e : Error)
    (s1 s2 : TokenStream.t) :
    rec p s = (Raise e, s1) ->
    rejected rec ps s1 s2 ->
    rejected rec (p :: ps) s s2.

(** What a [Choice] makes of the result of the alternative [q]. *)
Definition tagged (tag : bool) (q : Parser) (r : Result) : Result :=
  if tag then mkResult (res_position r) (VTuple (GetName q) (res_value r)) else r.

(** [p'] is the node [p] stands for: [p] itself, or what the thunks of a
    chain of [Lazy] nodes lead to. *)
Inductive resolves (table : string -> option Parser) : Parser -> Parser -> Prop :=
| resolves_node (p : Parser) :
    (forall n k, p <> Lazy n k) -> resolves table p p
| resolves_lazy (n k : string) (q p' : Parser) :
    table k = Some q -> resolves table q p' -> resolves table (Lazy n k) p'.

(** The statement [m] does not move the cursor back: where it returns or
    raises [Parser.Error], the cursor is where it was or further on. *)
Definition onward {A : Type} (m : M A) : Prop :=
  forall s o s', TokenStreamSpec.ts_inv s -> m s = (o, s') ->
    match o with
    | Ok _ | Raise _ => TokenStream.offset s <= TokenStream.offset s'
    | _ => True
    end.

End CombinatorSpec.


(** ** The text behind the tokens *)

Module TextSpec.

(** Every registered pattern matches at the head of the text it is given,
    as the expressions [AddPattern] compiles do: they start with [^]. *)
Definition anchored (lx : Lexer.t) : Prop :=
  forall p str m, In p (Lexer.patterns lx) -> regex p str = Some m ->
                  exists rest, str = m ++ rest.

(** No pattern of the lexer has an action: the value of a token is the text
    matched. *)
Definition plain (lx : Lexer.t) : Prop :=
  action (Lexer.patternEOS lx) = None
  /\ action (Lexer.patternUnknown lx) = None
  /\ forall p, In p (Lexer.patterns lx) -> action p = None.

(** The end-of-stream id is not the id of the unknown pattern nor of a
    registered one. *)
Definition end_reserved (lx : Lexer.t) : Prop :=
  id (Lexer.patternUnknown lx) <> Lexer.EOS_PATTERN_ID
  /\ forall p, In p (Lexer.patterns lx) -> id p <> Lexer.EOS_PATTERN_ID.

(** The values of the tokens, one after the other. *)
Fixpoint text_of (toks : list Token) : string :=
  match toks with
  | [] => ""
  | tok :: rest => value tok ++ text_of rest
  end.

(** The cached tokens followed by what is left to lex are the text [s], and
    nothing is left once the end-of-stream token is cached. *)
Definition covers (s : string) (ts : TokenStream.t) : Prop :=
  StringStream.wf s (TokenStream.stream ts)
  /\ text_of (TokenStream.tokens ts)
     ++ StringStream.PeekRemainder (TokenStream.stream ts) = s
  /\ (TokenStream.IsEOS ts = true ->
      StringStream.IsEOS (TokenStream.stream ts) = true).

End TextSpec.


(** * Properties *)

Unset Implicit Arguments.
Local Close Scope list_scope.
Local Open Scope list_scope.

(** ** Python lists *)

Lemma llen_nonneg {A : Type} (l : list A) : 0 <= llen l.
Proof. unfold llen. lia. Qed.

Lemma llen_app {A : Type} (l1 l2 : list A) : llen (l1 ++ l2) = llen l1 + llen l2.
Proof. unfold llen. rewrite length_app. lia. Qed.

Lemma py_index_nonneg {A : Type} (l : list A) (i : Z) :
  0 <= i -> py_index l i = nth_error l (Z.to_nat i).
Proof.
  intros Hi. unfold py_index.
  destruct (0 <=? i) eqn:E; [reflexivity | apply Z.leb_gt in E; lia].
Qed.

Lemma py_index_in_range {A : Type} (l : list A) (i : Z) :
  0 <= i < llen l -> exists x, py_index l i = Some x.
Proof.
  intros Hi. rewrite py_index_nonneg by lia.
  destruct (nth_error l (Z.to_nat i)) as [x|] eqn:E; [eauto|].
  apply nth_error_None in E. unfold llen in Hi. lia.
Qed.

Lemma py_index_app_l {A : Type} (l1 l2 : list A) (i : Z) (x : A) :
  0 <= i -> py_index l1 i = Some x -> py_index (l1 ++ l2) i = Some x.
Proof.
  intros Hi. rewrite !py_index_nonneg by lia. intros H.
  rewrite nth_error_app1; [assumption|].
  apply nth_error_Some. congruence.
Qed.

Lemma py_last_snoc {A : Type} (l : list A) (x : A) : py_last (l ++ [x]) = Some x.
Proof.
  unfold py_last, py_index. change (0 <=? -1) with false. cbv iota.
  assert (Hl : llen (l ++ [x]) = llen l + 1) by (rewrite llen_app; reflexivity).
  pose proof (llen_nonneg l) as Hn.
  destruct (- llen (l ++ [x]) <=? -1) eqn:E; [| apply Z.leb_gt in E; lia].
  replace (Z.to_nat (llen (l ++ [x]) + -1)) with (List.length l)
    by (unfold llen in *; lia).
  rewrite nth_error_app2 by apply Nat.le_refl.
  rewrite Nat.sub_diag. reflexivity.
Qed.

Lemma py_index_In {A : Type} (l : list A) (i : Z) (x : A) :
  py_index l i = Some x -> In x l.
Proof.
  unfold py_index. destruct (0 <=? i); [apply nth_error_In|].
  destruct (- llen l <=? i); [apply nth_error_In | discriminate].
Qed.

Lemma py_index_snoc {A : Type} (l : list A) (x : A) :
  py_index (l ++ [x]) (llen l) = Some x.
Proof.
  rewrite py_index_nonneg by apply llen_nonneg.
  unfold llen. rewrite Nat2Z.id.
  rewrite nth_error_app2 by apply Nat.le_refl.
  rewrite Nat.sub_diag. reflexivity.
Qed.

(** ** StringStream *)

Module StringStreamFacts.
Import StringStream.

Lemma len_nonneg (s : string) : 0 <= len s.
Proof. unfold len. lia. Qed.

Lemma wf_init (s : string) : wf s (init s).
Proof. unfold wf, init; simpl. pose proof (len_nonneg s). repeat split; lia. Qed.

Lemma wf_at (s : string) (o : Z) : 0 <= o <= len s -> wf s (at_ s o).
Proof. intros H. unfold wf, at_, set_pos, init; simpl. repeat split; lia. Qed.

Lemma read_count_bounds (s : string) (ss : t) (n : Z) :
  wf s ss -> 0 <= pos ss + read_count ss n <= len s.
Proof.
  intros (Hs & _ & _ & Hp). unfold read_count. rewrite Hs.
  destruct (n <? 0) eqn:E.
  - lia.
  - apply Z.ltb_ge in E. lia.
Qed.

Lemma SetOffset_ok (ss : t) (o : Z) :
  SetOffset ss o = Ok (set_pos ss (Z.max 0 (Z.min o (size ss)))).
Proof.
  unfold SetOffset, seek.
  destruct (Z.max 0 (Z.min o (size ss)) <? 0) eqn:E; [|reflexivity].
  apply Z.ltb_lt in E. lia.
Qed.

Lemma wf_SetOffset (s : string) (ss : t) (o : Z) :
  wf s ss -> wf s (keep ss (SetOffset ss o)).
Proof.
  intros (Hs & Hz & Hl & Hp). rewrite SetOffset_ok. simpl.
  pose proof (len_nonneg s).
  unfold wf, set_pos; simpl. rewrite Hz. repeat split; try assumption; lia.
Qed.

Lemma wf_SetPosition (s : string) (ss : t) (p : Position) :
  wf s ss -> wf s (keep ss (SetPosition ss p)).
Proof.
  intros H. unfold SetPosition.
  destruct ((line p >? llen (lineStarts ss)) || (line p =? 0) || (column p =? 0));
    [exact H|].
  destruct (py_index (lineStarts ss) (line p - 1)); [|exact H].
  destruct (if line p =? llen (lineStarts ss) then Some (size ss)
            else py_index (lineStarts ss) (line p)); [|exact H].
  destruct (column p - 1 >? z0 - z); [exact H|].
  apply wf_SetOffset; assumption.
Qed.

Lemma wf_read_over (s : string) (ss : t) (n : Z) : wf s ss -> wf s (read_over ss n).
Proof.
  intros H. pose proof (read_count_bounds s ss n H). destruct H as (Hs & Hz & Hl & Hp).
  unfold wf, read_over, set_pos; simpl. repeat split; try assumption; lia.
Qed.

Lemma wf_apply_op (s : string) (ss : t) (o : op) : wf s ss -> wf s (apply_op ss o).
Proof.
  intros H. destruct o; simpl; try assumption.
  - pose proof (read_count_bounds s ss 1 H). destruct H as (Hs & Hz & Hl & Hp).
    unfold wf, set_pos; simpl. repeat split; try assumption; lia.
  - unfold Ignore. destruct (fits_ssize_t amt); [|exact H]. apply wf_read_over. exact H.
  - apply wf_SetOffset; assumption.
  - apply wf_SetPosition; assumption.
Qed.

Lemma wf_run (s : string) (ops : list op) (ss : t) : wf s ss -> wf s (run ss ops).
Proof.
  revert ss. induction ops as [|o ops IH]; intros ss H; simpl.
  - assumption.
  - apply IH. apply wf_apply_op. assumption.
Qed.

(** C9. [SetOffset] never fails, whatever the integer: it moves the cursor
    to the requested offset clamped into [0, text length].  After any
    sequence of operations on a stream the offset lies in [0, text length],
    and [IsEOS] holds exactly when the offset is the text length. *)
Theorem C9_offset_invariant (s : string) (ops : list op) (o : Z) :
  let ss := run (init s) ops in
  (exists ss', SetOffset ss o = Ok ss'
               /\ GetOffset ss' = Z.max 0 (Z.min o (len s))
               /\ 0 <= GetOffset ss' <= len s)
  /\ 0 <= GetOffset ss <= len s
  /\ (IsEOS ss = true <-> GetOffset ss = len s).
Proof.
  intros ss.
  assert (H : wf s ss) by (apply wf_run, wf_init).
  destruct H as (Hs & Hz & Hl & Hp).
  pose proof (len_nonneg s) as Hn.
  split; [|split].
  - eexists. split; [apply SetOffset_ok|].
    unfold GetOffset, set_pos; simpl. rewrite Hz. split; lia.
  - exact Hp.
  - unfold IsEOS, GetOffset. rewrite Hz. apply Z.eqb_eq.
Qed.

(** *** Positions *)

Lemma lineStarts_fold_head (lines : list string) (acc : list Z) :
  exists tl, fold_left (fun starts ln => starts ++ [match py_last starts with
                                                    | Some l => l + len ln
                                                    | None => len ln
                                                    end]) lines (0 :: acc) = 0 :: tl.
Proof.
  revert acc. induction lines as [|ln lines IH]; intros acc; simpl.
  - eauto.
  - apply IH.
Qed.

Lemma lineStarts_head (s : string) : exists tl, lineStarts (init s) = 0 :: tl.
Proof. unfold init, lineStarts_of; simpl. apply lineStarts_fold_head. Qed.

(** What the scan of [GetPosition] returns: it stops after [k] line starts,
    the last of which is at or before the offset, the next one beyond it. *)
Lemma GetPosition_loop_spec (starts : list Z) (offset : Z) :
  forall line0 c0 ln c,
    GetPosition_loop starts offset line0 c0 = (ln, c) ->
    exists k : nat,
      ln = line0 + Z.of_nat k /\ (k <= List.length starts)%nat
      /\ (k = 0%nat -> c = c0)
      /\ (forall j, k = S j -> nth_error starts j = Some c /\ c <= offset)
      /\ (forall x, nth_error starts k = Some x -> x > offset).
Proof.
  induction starts as [|a starts IH]; intros line0 c0 ln c H; simpl in H.
  - inversion H; subst. exists 0%nat.
    split; [lia | split; [simpl; lia | split; [reflexivity | split]]].
    + intros j Hj. discriminate.
    + intros x Hx. discriminate.
  - destruct (a >? offset) eqn:E.
    + inversion H; subst. exists 0%nat.
      split; [lia | split; [simpl; lia | split; [reflexivity | split]]].
      * intros j Hj; discriminate.
      * intros x Hx. inversion Hx; subst. apply Z.gtb_lt in E. lia.
    + apply IH in H. destruct H as (k & Hl & Hk & H0 & HS & Hn).
      exists (S k).
      split; [lia | split; [simpl; lia | split; [discriminate | split]]].
      * intros j Hj. inversion Hj; subst j.
        assert (Ea : a <= offset)
          by (rewrite Z.gtb_ltb in E; apply Z.ltb_ge in E; lia).
        destruct k as [|k'].
        -- simpl. rewrite (H0 eq_refl). split; [reflexivity | exact Ea].
        -- apply (HS k' eq_refl).
      * exact Hn.
Qed.

(** The round trip on any well-formed stream. *)
Lemma SetPosition_GetPosition (s : string) (ss : t) :
  wf s ss ->
  SetPosition ss (GetPosition ss) = Ok ss.
Proof.
  intros (Hs & Hz & Hl & Hp).
  destruct (lineStarts_head s) as (tl & Htl). rewrite <- Hl in Htl.
  unfold GetPosition, GetOffset.
  destruct (GetPosition_loop (lineStarts ss) (pos ss) 0 0) as (ln, c) eqn:E.
  apply GetPosition_loop_spec in E. destruct E as (k & Hln & Hk & H0 & HS & Hn).
  destruct k as [|j].
  { exfalso. specialize (Hn 0). rewrite Htl in Hn. simpl in Hn.
    specialize (Hn eq_refl). lia. }
  destruct (HS j eq_refl) as (Hc & Hle). clear H0 HS.
  unfold SetPosition. cbn [line column].
  assert (Hlen : llen (lineStarts ss) = Z.of_nat (List.length (lineStarts ss)))
    by reflexivity.
  replace ((ln >? llen (lineStarts ss)) || (ln =? 0) || (pos ss - c + 1 =? 0))
    with false.
  2:{ symmetry. apply orb_false_intro; [apply orb_false_intro|].
      - rewrite Z.gtb_ltb. apply Z.ltb_ge. lia.
      - apply Z.eqb_neq. lia.
      - apply Z.eqb_neq. lia. }
  replace (ln - 1) with (Z.of_nat j) by lia.
  rewrite py_index_nonneg by lia. rewrite Nat2Z.id, Hc.
  assert (Hfin : forall lineEnd, pos ss - c <= lineEnd - c ->
            (if pos ss - c + 1 - 1 >? lineEnd - c
             then Crash (invalid_position (mkPosition ln (pos ss - c + 1)))
             else SetOffset ss (c + (pos ss - c + 1) - 1)) = Ok ss).
  { intros lineEnd Hw.
    destruct (pos ss - c + 1 - 1 >? lineEnd - c) eqn:E.
    - apply Z.gtb_lt in E. lia.
    - rewrite SetOffset_ok. f_equal. destruct ss as [a b c' d]; unfold set_pos; simpl in *.
      f_equal. lia. }
  destruct (ln =? llen (lineStarts ss)) eqn:En.
  - apply Hfin. lia.
  - apply Z.eqb_neq in En.
    rewrite py_index_nonneg by lia.
    replace (Z.to_nat ln) with (S j) by lia.
    destruct (nth_error (lineStarts ss) (S j)) as [x|] eqn:Ex.
    + apply Hfin. specialize (Hn x eq_refl). lia.
    + apply nth_error_None in Ex. lia.
Qed.

(** C4. For any text [s] and any offset [o] within [0, len s], with the
    stream at offset [o], [SetPosition(GetPosition())] does not raise and
    leaves the offset equal to [o]. *)
Theorem C4_position_round_trip (s : string) (o : Z) :
  0 <= o <= len s ->
  GetOffset (at_ s o) = o
  /\ exists ss', SetPosition (at_ s o) (GetPosition (at_ s o)) = Ok ss'
                 /\ GetOffset ss' = o.
Proof.
  intros Ho. split; [reflexivity|].
  exists (at_ s o). split; [|reflexivity].
  apply SetPosition_GetPosition with (s := s). apply wf_at. assumption.
Qed.

(** The stream [at_ s o] is the one [SetOffset] produces from a fresh
    stream. *)
Lemma SetOffset_init (s : string) (o : Z) :
  0 <= o <= len s -> SetOffset (init s) o = Ok (at_ s o).
Proof.
  intros Ho. rewrite SetOffset_ok. unfold at_. f_equal. f_equal.
  simpl. lia.
Qed.

(** The round trip after any sequence of operations. *)
Lemma SetPosition_GetPosition_run (s : string) (ops : list op) :
  let ss := run (init s) ops in SetPosition ss (GetPosition ss) = Ok ss.
Proof. intros ss. apply SetPosition_GetPosition with (s := s). apply wf_run, wf_init. Qed.

Lemma C4_position_round_trip_witness :
  0 <= 1 <= len "ab"
  /\ GetOffset (at_ "ab" 1) = 1
  /\ exists ss', SetPosition (at_ "ab" 1) (GetPosition (at_ "ab" 1)) = Ok ss'
                 /\ GetOffset ss' = 1.
Proof.
  assert (H : 0 <= 1 <= len "ab") by (unfold len; simpl; lia).
  split; [exact H | apply (@C4_position_round_trip "ab" 1 H)].
Defined.

(** *** Valid and invalid positions *)

Lemma len_String (c : ascii) (s : string) : len (String c s) = 1 + len s.
Proof. unfold len. cbn [String.length]. lia. Qed.

Lemma readlines_nil (s : string) : readlines s = [] -> s = EmptyString.
Proof.
  destruct s as [|c rest]; [reflexivity|]. simpl.
  destruct (Ascii.eqb c newline); [discriminate|].
  destruct (readlines rest); discriminate.
Qed.

Lemma total_len_readlines (s : string) : total_len (readlines s) = len s.
Proof.
  induction s as [|c rest IH]; [reflexivity|].
  rewrite len_String. cbn [readlines].
  destruct (Ascii.eqb c newline).
  - cbn [total_len]. rewrite IH, len_String. change (len EmptyString) with 0. lia.
  - destruct (readlines rest) as [|l ls] eqn:E.
    + apply readlines_nil in E. subst rest. cbn [total_len].
      rewrite len_String. lia.
    + cbn [total_len] in *. rewrite len_String. lia.
Qed.

Lemma readlines_lines_nonempty (s : string) :
  Forall (fun l => 0 < len l) (readlines s).
Proof.
  induction s as [|c rest IH]; cbn [readlines]; [constructor|].
  pose proof (len_nonneg EmptyString) as H0.
  destruct (Ascii.eqb c newline).
  - constructor; [rewrite len_String; lia | exact IH].
  - destruct (readlines rest) as [|l ls].
    + constructor; [rewrite len_String; lia | constructor].
    + inversion IH; subst. constructor; [rewrite len_String; lia | assumption].
Qed.

Lemma removelast_lines (lines : list string) :
  Forall (fun l => 0 < len l) lines ->
  Forall (fun l => 0 < len l) (removelast lines)
  /\ total_len (removelast lines) <= total_len lines.
Proof.
  induction 1 as [|l ls Hl Hls (IH1 & IH2)].
  - split; [constructor | apply Z.le_refl].
  - destruct ls as [|l' ls'].
    + cbn [removelast total_len]. split; [constructor | lia].
    + change (removelast (l :: l' :: ls')) with (l :: removelast (l' :: ls')).
      cbn [total_len] in *. split; [constructor; assumption | lia].
Qed.

Lemma lineStarts_fold (lines : list string) :
  forall acc a,
    fold_left (fun starts ln => starts ++ [match py_last starts with
                                            | Some l => l + len ln
                                            | None => len ln
                                            end]) lines (acc ++ [a])
    = acc ++ a :: line_ends a lines.
Proof.
  induction lines as [|ln lines IH]; intros acc a; simpl.
  - reflexivity.
  - rewrite py_last_snoc. rewrite (IH (acc ++ [a]) (a + len ln)).
    rewrite <- app_assoc. reflexivity.
Qed.

Lemma lineStarts_init (s : string) :
  lineStarts (init s) = 0 :: line_ends 0 (removelast (readlines s)).
Proof. unfold init, lineStarts_of. simpl. apply (lineStarts_fold _ [] 0). Qed.

(** The line starts increase and stay within the text they are sums of. *)
Lemma line_ends_spec (lines : list string) :
  Forall (fun l => 0 < len l) lines ->
  forall a,
    (forall k x, nth_error (a :: line_ends a lines) k = Some x ->
                 a <= x <= a + total_len lines)
    /\ (forall k x y, nth_error (a :: line_ends a lines) k = Some x ->
                      nth_error (a :: line_ends a lines) (S k) = Some y -> x < y).
Proof.
  induction 1 as [|l ls Hl Hls IH]; intros a.
  - split.
    + intros [|k] x H; cbn [nth_error line_ends total_len] in *;
        [inversion H; lia | destruct k; discriminate].
    + intros [|k] x y _ H; cbn [nth_error line_ends] in H;
        [discriminate | destruct k; discriminate].
  - destruct (IH (a + len l)) as (IHb & IHc). split.
    + intros [|k] x H.
      * cbn [nth_error] in H. inversion H; subst. cbn [total_len].
        pose proof (IHb 0%nat _ eq_refl). lia.
      * cbn [nth_error line_ends] in H. specialize (IHb k x H).
        cbn [total_len]. lia.
    + intros [|k] x y Hx Hy.
      * cbn [nth_error line_ends] in Hx, Hy. inversion Hx; inversion Hy; subst. lia.
      * cbn [nth_error line_ends] in Hx, Hy. apply (IHc k x y Hx). exact Hy.
Qed.

(** A line or a column that is zero, or a line beyond the last one, is
    rejected. *)
Lemma SetPosition_invalid (ss : t) (p : Position) :
  line p > llen (lineStarts ss) \/ line p = 0 \/ column p = 0 ->
  SetPosition ss p = Crash (invalid_position p).
Proof.
  intros H. unfold SetPosition.
  replace ((line p >? llen (lineStarts ss)) || (line p =? 0) || (column p =? 0))
    with true; [reflexivity|].
  symmetry. destruct H as [H | [H | H]].
  - apply Z.gt_lt, Z.gtb_lt in H. rewrite H. reflexivity.
  - apply Z.eqb_eq in H. rewrite H. apply orb_true_iff. left. apply orb_true_r.
  - apply Z.eqb_eq in H. rewrite H. apply orb_true_r.
Qed.

(** For a positive line within the text and a positive column: the line
    covers the offsets from its start to its end, its end being the start of
    the next line, or the end of the text for the last line; [SetPosition]
    rejects a column more than one past the width of the line, and otherwise
    moves the cursor to the start of the line plus the column minus one. *)
Lemma SetPosition_valid (s : string) (ss : t) (p : Position) :
  wf s ss ->
  1 <= line p <= llen (lineStarts ss) -> 1 <= column p ->
  exists lineStart lineEnd,
    py_index (lineStarts ss) (line p - 1) = Some lineStart
    /\ (if line p =? llen (lineStarts ss) then Some (len s)
        else py_index (lineStarts ss) (line p)) = Some lineEnd
    /\ 0 <= lineStart <= lineEnd /\ lineEnd <= len s
    /\ SetPosition ss p
       = if column p - 1 >? lineEnd - lineStart then Crash (invalid_position p)
         else Ok (set_pos ss (lineStart + column p - 1)).
Proof.
  intros (Hs & Hz & Hl & Hp) Hline Hcol.
  pose proof (readlines_lines_nonempty s) as Hne.
  destruct (removelast_lines _ Hne) as (Hne' & Htot).
  rewrite total_len_readlines in Htot.
  destruct (line_ends_spec _ Hne' 0) as (Hb & Hc).
  rewrite <- lineStarts_init, <- Hl in Hb, Hc.
  set (k := Z.to_nat (line p - 1)).
  assert (Hk : (k < List.length (lineStarts ss))%nat) by (unfold llen in Hline; lia).
  destruct (nth_error (lineStarts ss) k) as [lineStart|] eqn:Ek;
    [|apply nth_error_None in Ek; lia].
  pose proof (Hb k lineStart Ek) as Hbs.
  assert (Hend : exists lineEnd,
             (if line p =? llen (lineStarts ss) then Some (len s)
              else py_index (lineStarts ss) (line p)) = Some lineEnd
             /\ lineStart <= lineEnd <= len s).
  { destruct (line p =? llen (lineStarts ss)) eqn:En.
    - exists (len s). split; [reflexivity | lia].
    - apply Z.eqb_neq in En. rewrite py_index_nonneg by lia.
      replace (Z.to_nat (line p)) with (S k) by lia.
      destruct (nth_error (lineStarts ss) (S k)) as [y|] eqn:Ey.
      + exists y. split; [reflexivity|].
        pose proof (Hc k lineStart y Ek Ey). pose proof (Hb (S k) y Ey). lia.
      + apply nth_error_None in Ey. unfold llen in *. lia. }
  destruct Hend as (lineEnd & Hend & Hle).
  assert (Hidx : py_index (lineStarts ss) (line p - 1) = Some lineStart).
  { rewrite py_index_nonneg by lia. exact Ek. }
  exists lineStart, lineEnd.
  split; [exact Hidx | split; [exact Hend | split; [lia | split; [lia|]]]].
  unfold SetPosition.
  replace ((line p >? llen (lineStarts ss)) || (line p =? 0) || (column p =? 0))
    with false.
  2:{ symmetry. apply orb_false_intro; [apply orb_false_intro|].
      - rewrite Z.gtb_ltb. apply Z.ltb_ge. lia.
      - apply Z.eqb_neq. lia.
      - apply Z.eqb_neq. lia. }
  rewrite Hidx. rewrite <- Hz in Hend. rewrite Hend.
  destruct (column p - 1 >? lineEnd - lineStart) eqn:E; [reflexivity|].
  rewrite SetOffset_ok. f_equal. f_equal.
  rewrite Z.gtb_ltb in E. apply Z.ltb_ge in E. lia.
Qed.

(** *** Positions that are not positive *)

(** C5. [SetPosition] is claimed to fail on every position whose line or
    column is zero or negative.  It rejects zero only.  On the text "ab" the
    position (1, -1) is accepted and the offset becomes 0; on a two-line text
    the position (-1, 1) is accepted too (the negative line indexes the line
    starts from the end) and the offset becomes 0; on the one-line text "ab"
    the position (-1, 1) raises IndexError, not "Invalid position". *)
Theorem C5_negative_position_accepted :
  SetPosition (at_ "ab" 2) (mkPosition 1 (-1)) = Ok (at_ "ab" 0)
  /\ SetPosition (at_ two_lines 3) (mkPosition (-1) 1) = Ok (at_ two_lines 0)
  /\ SetPosition (at_ "ab" 2) (mkPosition (-1) 1) = Crash "IndexError"
  /\ SetPosition (at_ "ab" 2) (mkPosition 0 1)
     = Crash (invalid_position (mkPosition 0 1)).
Proof. repeat split; vm_compute; reflexivity. Qed.

End StringStreamFacts.

(** ** Lexer *)

Module LexerFacts.
Import Lexer LexerSpec.

Lemma str_in_In (x : string) (l : list string) : str_in x l = true <-> In x l.
Proof.
  unfold str_in. rewrite existsb_exists. split.
  - intros (y & Hy & E). apply String.eqb_eq in E. subst. assumption.
  - intros H. exists x. split; [assumption | apply String.eqb_refl].
Qed.

Lemma nth_error_snoc_cases {A : Type} (l : list A) (x : A) (j : nat) (y : A) :
  nth_error (l ++ [x]) j = Some y ->
  ((j < List.length l)%nat /\ nth_error l j = Some y) \/ (j = List.length l /\ y = x).
Proof.
  intros H. destruct (Nat.lt_ge_cases j (List.length l)) as [Hlt | Hge].
  - left. split; [assumption|]. rewrite nth_error_app1 in H; assumption.
  - right. rewrite nth_error_app2 in H by assumption.
    destruct (j - List.length l)%nat as [|k] eqn:E.
    + simpl in H. inversion H. split; [lia | reflexivity].
    + simpl in H. destruct k; discriminate.
Qed.

Lemma longest_first_lt (seen : list Pattern) (str : string) (i : nat)
    (p : Pattern) (m : string) :
  longest_first seen str i p m -> (i < List.length seen)%nat.
Proof. intros (H & _). apply nth_error_Some. congruence. Qed.

(** One more pattern scanned. *)
Lemma scanned_step (seen : list Pattern) (str : string) (pattern : Pattern)
    (mp : option Pattern) (mv : string) (g : Z) :
  scanned seen str (mp, mv, g) ->
  scanned (seen ++ [pattern]) str
    (match regex pattern str with
     | None => (mp, mv, g)
     | Some match_ =>
         if match mp with None => true | Some _ => false end || (len match_ >? g)
         then (Some pattern, match_, len match_)
         else (mp, mv, g)
     end).
Proof.
  intros H.
  assert (Hkeep : forall p, mp = Some p ->
            (forall m', regex pattern str = Some m' -> len m' <= g) ->
            scanned (seen ++ [pattern]) str (mp, mv, g)).
  { intros p -> Hle. destruct H as (Hg & i & Hi). split; [exact Hg|]. exists i.
    pose proof (longest_first_lt _ _ _ _ _ Hi) as Hlt.
    destruct Hi as (Hn & Hm & Hall).
    split; [rewrite nth_error_app1; assumption | split; [assumption|]].
    intros j q m' Hj Hq.
    apply nth_error_snoc_cases in Hj. destruct Hj as [(Hj & Hj') | (Hj & ->)].
    - eapply Hall; eassumption.
    - specialize (Hle m' Hq). split; lia. }
  assert (Htake : forall m_, regex pattern str = Some m_ ->
            (forall j q m', nth_error seen j = Some q -> regex q str = Some m' ->
                            len m' < len m_) ->
            scanned (seen ++ [pattern]) str (Some pattern, m_, len m_)).
  { intros m_ Hm Hlt. split; [reflexivity|]. exists (List.length seen).
    split; [|split; [assumption|]].
    - rewrite nth_error_app2 by apply Nat.le_refl. rewrite Nat.sub_diag. reflexivity.
    - intros j q m' Hj Hq.
      apply nth_error_snoc_cases in Hj. destruct Hj as [(Hj & Hj') | (Hj & ->)].
      + specialize (Hlt j q m' Hj' Hq). split; lia.
      + rewrite Hm in Hq. inversion Hq; subst. split; lia. }
  destruct (regex pattern str) as [match_|] eqn:Er.
  - destruct mp as [p|]; simpl.
    + destruct (len match_ >? g) eqn:Eg.
      * apply Htake; [reflexivity|]. intros j q m' Hj Hq.
        destruct H as (Hg & i & _ & _ & Hall).
        destruct (Hall j q m' Hj Hq) as (Hle & _). apply Z.gtb_lt in Eg. lia.
      * apply (Hkeep p eq_refl). intros m' Hm'. inversion Hm'; subst.
        rewrite Z.gtb_ltb in Eg. apply Z.ltb_ge in Eg. lia.
    + apply Htake; [reflexivity|]. intros j q m' Hj Hq.
      simpl in H. apply nth_error_In in Hj. rewrite (H q Hj) in Hq. discriminate.
  - destruct mp as [p|].
    + apply (Hkeep p eq_refl). intros m' Hm'. discriminate.
    + simpl in *. intros q Hq. apply in_app_or in Hq. destruct Hq as [Hq | [<- | []]].
      * apply H; assumption.
      * assumption.
Qed.

Lemma Lex_loop_scanned (str : string) (rest : list Pattern) :
  forall seen mp mv g,
    scanned seen str (mp, mv, g) ->
    scanned (seen ++ rest) str (Lex_loop rest str mp mv g).
Proof.
  induction rest as [|pattern rest IH]; intros seen mp mv g H.
  - rewrite app_nil_r. exact H.
  - replace (seen ++ pattern :: rest) with ((seen ++ [pattern]) ++ rest)
      by (rewrite <- app_assoc; reflexivity).
    pose proof (@scanned_step seen str pattern mp mv g H) as Hs. simpl.
    destruct (regex pattern str) as [match_|].
    + destruct (match mp with None => true | Some _ => false end || (len match_ >? g)).
      * apply IH. exact Hs.
      * apply IH. exact Hs.
    + apply IH. exact Hs.
Qed.

Lemma Lex_loop_all (ps : list Pattern) (str : string) :
  scanned ps str (Lex_loop ps str None "" 0).
Proof.
  apply (@Lex_loop_scanned str ps [] None "" 0). simpl. intros q [].
Qed.

(** [Lex] in terms of what it selects. *)
Lemma Lex_eq (lx : t) (stream : StringStream.t) :
  Lex lx stream
  = (mkToken (id (fst (Lex_select lx stream))) (StringStream.GetPosition stream)
             (apply_action (action (fst (Lex_select lx stream)))
                           (snd (Lex_select lx stream))),
     StringStream.read_over stream (len (snd (Lex_select lx stream)))).
Proof. unfold Lex. destruct (Lex_select lx stream). reflexivity. Qed.

(** What [Lex] selects when some registered pattern matches. *)
Lemma Lex_selects_longest (lx : t) (stream : StringStream.t)
    (j : nat) (q : Pattern) (m' : string) :
  StringStream.IsEOS stream = false ->
  nth_error (patterns lx) j = Some q ->
  regex q (StringStream.PeekRemainder stream) = Some m' ->
  exists i p m,
    longest_first (patterns lx) (StringStream.PeekRemainder stream) i p m
    /\ Lex_select lx stream = (p, m)
    /\ Lex lx stream
       = (mkToken (id p) (StringStream.GetPosition stream) (apply_action (action p) m),
          StringStream.read_over stream (len m)).
Proof.
  intros Heos Hj Hq.
  pose proof (Lex_loop_all (patterns lx) (StringStream.PeekRemainder stream)) as Hs.
  assert (Hsel : exists i p m,
             longest_first (patterns lx) (StringStream.PeekRemainder stream) i p m
             /\ Lex_select lx stream = (p, m)).
  { unfold Lex_select. rewrite Heos.
    destruct (Lex_loop (patterns lx) (StringStream.PeekRemainder stream) None "" 0)
      as ((mp & mv) & g).
    destruct mp as [p|]; simpl in Hs.
    - destruct Hs as (_ & i & Hi). exists i, p, mv. split; [exact Hi | reflexivity].
    - apply nth_error_In in Hj. rewrite (Hs q Hj) in Hq. discriminate. }
  destruct Hsel as (i & p & m & Hi & Hsel).
  exists i, p, m. split; [exact Hi | split; [exact Hsel|]].
  rewrite Lex_eq, Hsel. reflexivity.
Qed.

(** C2. Away from the end of the stream, when some registered pattern
    matches at the current position, [Lex] returns the token of the pattern
    with the longest match - the earliest registered among those of that
    length - and moves the stream past the match. *)
Theorem C2_longest_match (lx : t) (stream : StringStream.t)
    (j : nat) (q : Pattern) (m' : string) :
  StringStream.IsEOS stream = false ->
  nth_error (patterns lx) j = Some q ->
  regex q (StringStream.PeekRemainder stream) = Some m' ->
  exists i p m,
    longest_first (patterns lx) (StringStream.PeekRemainder stream) i p m
    /\ Lex_select lx stream = (p, m)
    /\ Lex lx stream
       = (mkToken (id p) (StringStream.GetPosition stream) (apply_action (action p) m),
          StringStream.read_over stream (len m)).
Proof. apply Lex_selects_longest. Qed.

Lemma C2_longest_match_witness :
  let lx := Examples.lexer_of [Examples.pat_a; Examples.pat_ab; Examples.pat_a'] in
  let stream := StringStream.at_ "xabc" 1 in
  StringStream.IsEOS stream = false
  /\ nth_error (patterns lx) 0 = Some Examples.pat_a
  /\ regex Examples.pat_a (StringStream.PeekRemainder stream) = Some "a"
  /\ exists i p m,
       longest_first (patterns lx) (StringStream.PeekRemainder stream) i p m
       /\ Lex_select lx stream = (p, m)
       /\ Lex lx stream
          = (mkToken (id p) (StringStream.GetPosition stream)
                     (apply_action (action p) m),
             StringStream.read_over stream (len m)).
Proof.
  intros lx stream.
  assert (H1 : StringStream.IsEOS stream = false) by reflexivity.
  assert (H2 : nth_error (patterns lx) 0 = Some Examples.pat_a) by reflexivity.
  assert (H3 : regex Examples.pat_a (StringStream.PeekRemainder stream) = Some "a")
    by reflexivity.
  split; [exact H1 | split; [exact H2 | split; [exact H3|]]].
  exact (@C2_longest_match lx stream 0%nat Examples.pat_a "a" H1 H2 H3).
Defined.

(** On that example the pattern "AB" wins over "A", which is registered
    first but matches less. *)
Example Lex_longest_example :
  fst (Lex (Examples.lexer_of [Examples.pat_a; Examples.pat_ab; Examples.pat_a'])
           (StringStream.at_ "xabc" 1))
  = mkToken "AB" (mkPosition 1 2) "ab".
Proof. reflexivity. Qed.

(** Between two patterns that match the same text the first one wins. *)
Example Lex_tie_example :
  fst (Lex (Examples.lexer_of [Examples.pat_a'; Examples.pat_a])
           (StringStream.at_ "xabc" 1))
  = mkToken "A'" (mkPosition 1 2) "a".
Proof. reflexivity. Qed.

(** *** Matches of length zero and the unknown token *)

Lemma length_drop (n : nat) (s : string) :
  String.length (drop n s) = (String.length s - n)%nat.
Proof.
  revert s. induction n as [|n IH]; intros s; simpl.
  - lia.
  - destruct s; simpl; [reflexivity | apply IH].
Qed.

Lemma length_take (n : nat) (s : string) :
  String.length (take n s) = Nat.min n (String.length s).
Proof.
  revert s. induction n as [|n IH]; intros s; simpl.
  - reflexivity.
  - destruct s; simpl; [reflexivity | rewrite IH; reflexivity].
Qed.

(** Away from the end, [Peek] yields one character. *)
Lemma len_Peek (s : string) (stream : StringStream.t) :
  StringStream.wf s stream -> StringStream.IsEOS stream = false ->
  len (StringStream.Peek stream) = 1
  /\ StringStream.read_count stream 1 = 1.
Proof.
  intros (Hs & Hz & _ & Hp) He.
  unfold StringStream.IsEOS, StringStream.GetOffset in He. apply Z.eqb_neq in He.
  assert (Hc : StringStream.read_count stream 1 = 1).
  { unfold StringStream.read_count. rewrite Hs. change (1 <? 0) with false. cbv iota. lia. }
  split; [|exact Hc].
  unfold StringStream.Peek, StringStream.read_text, len. rewrite Hc.
  rewrite length_take, length_drop. rewrite Hs. unfold len in *. lia.
Qed.

Lemma set_pos_same (stream : StringStream.t) (d : Z) :
  d = 0 -> StringStream.set_pos stream (StringStream.pos stream + d) = stream.
Proof.
  intros ->. destruct stream; unfold StringStream.set_pos; simpl. f_equal. lia.
Qed.

Lemma Ignore_nothing (stream : StringStream.t) :
  StringStream.read_over stream (len "") = stream.
Proof.
  unfold StringStream.read_over. apply set_pos_same.
  unfold StringStream.read_count. change (len "") with 0.
  change (0 <? 0) with false. cbv iota. lia.
Qed.

Lemma Lex_iter_fixed (lx : t) (stream : StringStream.t) :
  snd (Lex lx stream) = stream -> forall n, Lex_iter n lx stream = stream.
Proof.
  intros H n. induction n as [|n IH]; simpl.
  - reflexivity.
  - rewrite H. exact IH.
Qed.

Lemma Lex_select_no_match (lx : t) (stream : StringStream.t) :
  StringStream.IsEOS stream = false ->
  no_match (patterns lx) (StringStream.PeekRemainder stream) ->
  Lex_select lx stream = (patternUnknown lx, StringStream.Peek stream).
Proof.
  intros He Hno. unfold Lex_select. rewrite He.
  pose proof (Lex_loop_all (patterns lx) (StringStream.PeekRemainder stream)) as Hs.
  destruct (Lex_loop (patterns lx) (StringStream.PeekRemainder stream) None "" 0)
    as ((mp & mv) & g).
  destruct mp as [p|]; [|reflexivity].
  simpl in Hs. destruct Hs as (_ & i & Hn & Hm & _).
  apply nth_error_In in Hn. rewrite (Hno p Hn) in Hm. discriminate.
Qed.

(** C10, as the code has it.  At a position [stream] that is not the end of
    the text:
    - if some registered pattern matches the empty text and none matches
      more, [Lex] returns the token of the first pattern that matches, whose
      value is that pattern's action applied to the empty text (the empty
      text when the pattern has no action), and leaves the stream as it is,
      so that lexing again, any number of times, never advances;
    - if no registered pattern matches, [Lex] returns the Unknown token and
      advances by one character;
    - if some registered pattern matches, the token is that of a registered
      pattern that matches, not the Unknown one. *)
Theorem C10_zero_length_match (s : string) (lx : t) (stream : StringStream.t) :
  StringStream.wf s stream ->
  StringStream.IsEOS stream = false ->
  let ps := patterns lx in
  let rem := StringStream.PeekRemainder stream in
  (forall j q,
      nth_error ps j = Some q -> regex q rem = Some "" ->
      (forall q' m, In q' ps -> regex q' rem = Some m -> m = "") ->
      exists i p,
        first_match ps rem i p ""
        /\ Lex lx stream
           = (mkToken (id p) (StringStream.GetPosition stream)
                      (apply_action (action p) ""), stream)
        /\ (action p = None -> value (fst (Lex lx stream)) = "")
        /\ forall n, StringStream.GetOffset (Lex_iter n lx stream)
                     = StringStream.GetOffset stream)
  /\ (no_match ps rem ->
      Lex lx stream
      = (mkToken (id (patternUnknown lx)) (StringStream.GetPosition stream)
                 (apply_action (action (patternUnknown lx)) (StringStream.Peek stream)),
         StringStream.read_over stream 1)
      /\ StringStream.GetOffset (snd (Lex lx stream))
         = StringStream.GetOffset stream + 1)
  /\ (forall j q m,
      nth_error ps j = Some q -> regex q rem = Some m ->
      exists p m', In p ps /\ regex p rem = Some m'
                   /\ Lex_select lx stream = (p, m')).
Proof.
  intros Hwf He ps rem. split; [|split].
  - intros j q Hj Hq Hzero.
    destruct (Lex_selects_longest lx stream j q _ He Hj Hq) as (i & p & m & Hi & Hsel & HL).
    destruct Hi as (Hn & Hm & Hall).
    assert (m = "") by (apply (Hzero p m); [eapply nth_error_In; eassumption | assumption]).
    subst m. rewrite Ignore_nothing in HL.
    exists i, p. split; [|split; [exact HL | split]].
    + split; [exact Hn | split; [exact Hm|]].
      intros k q' Hk Hq'. fold ps rem in Hall.
      destruct (regex q' rem) as [m'|] eqn:E; [|reflexivity].
      assert (m' = "") by (apply (Hzero q' m'); [eapply nth_error_In; eassumption | assumption]).
      subst m'. destruct (Hall k q' "" Hq' E) as (_ & Hle). specialize (Hle eq_refl). lia.
    + intros Ha. rewrite HL. simpl. rewrite Ha. reflexivity.
    + intros n. rewrite Lex_iter_fixed; [reflexivity|]. rewrite HL. reflexivity.
  - intros Hno. rewrite Lex_eq. rewrite (Lex_select_no_match lx stream He Hno). simpl.
    destruct (len_Peek s stream Hwf He) as (Hlen & Hcount). rewrite Hlen.
    split; [reflexivity|].
    unfold StringStream.GetOffset, StringStream.read_over. simpl. rewrite Hcount. reflexivity.
  - intros j q m Hj Hq.
    destruct (Lex_selects_longest lx stream j q m He Hj Hq) as (i & p & m' & Hi & Hsel & _).
    destruct Hi as (Hn & Hm & _).
    exists p, m'. split; [eapply nth_error_In; eassumption | split; assumption].
Qed.

Lemma C10_zero_length_match_witness :
  let lx := Examples.lexer_of [Examples.pat_blanks; Examples.pat_a] in
  let stream := StringStream.at_ "x" 0 in
  StringStream.wf "x" stream
  /\ StringStream.IsEOS stream = false
  /\ value (fst (Lex lx stream)) = ""
  /\ forall n, StringStream.GetOffset (Lex_iter n lx stream) = 0.
Proof.
  intros lx stream.
  assert (H1 : StringStream.wf "x" stream)
    by (apply StringStreamFacts.wf_at; unfold len; simpl; lia).
  assert (H2 : StringStream.IsEOS stream = false) by reflexivity.
  split; [exact H1 | split; [exact H2|]].
  destruct (C10_zero_length_match "x" lx stream H1 H2) as (A & _).
  destruct (A 0%nat Examples.pat_blanks eq_refl eq_refl) as (i & p & _ & _ & _ & Hn).
  - intros q' m [<- | [<- | []]] H; simpl in H; inversion H; reflexivity.
  - split; [reflexivity | exact Hn].
Defined.

(** C10, as stated, fails on the value of the token: a pattern with an
    action gives the token the value its action returns on the empty match,
    which need not be empty. *)
Lemma C10_value_not_empty :
  let lx := Examples.lexer_of [Examples.pat_blanks_marked] in
  let stream := StringStream.at_ "x" 0 in
  StringStream.IsEOS stream = false
  /\ regex Examples.pat_blanks_marked (StringStream.PeekRemainder stream) = Some ""
  /\ (forall q m, In q (patterns lx) ->
                  regex q (StringStream.PeekRemainder stream) = Some m -> m = "")
  /\ fst (Lex lx stream) = mkToken "WS" (mkPosition 1 1) "<blank>"
  /\ value (fst (Lex lx stream)) <> "".
Proof.
  intros lx stream. split; [reflexivity | split; [reflexivity | split; [|split]]].
  - intros q m [<- | []] H; simpl in H; inversion H; reflexivity.
  - reflexivity.
  - discriminate.
Qed.

(** What [AddPattern] does check.  It takes the given id, or the synthetic
    id built from the number of registered patterns when none is given.  For
    an expression that compiles, it fails when that id is already the id of a
    registered pattern, and otherwise appends the pattern and returns the
    id. *)
Lemma AddPattern_contract (re_compile : string -> option Regex) (lx : t)
    (regex_ : string) (action_ : Action) (id_ : option PatternID) (r : Regex) :
  re_compile ("^(" ++ regex_ ++ ")")%string = Some r ->
  let patternID := match id_ with
                   | None => CreatePatternIDFromIdx (llen (patterns lx))
                   | Some i => i
                   end in
  (In patternID (map id (patterns lx)) ->
   AddPattern re_compile lx regex_ action_ id_ = Crash (already_exists patternID))
  /\ (~ In patternID (map id (patterns lx)) ->
      AddPattern re_compile lx regex_ action_ id_
      = Ok (patternID,
            {| patternEOS := patternEOS lx; patternUnknown := patternUnknown lx;
               patterns := patterns lx ++ [mkPattern patternID r action_] |})).
Proof.
  intros Hr patternID. unfold AddPattern. fold patternID.
  split; intros H.
  - apply str_in_In in H. rewrite H. reflexivity.
  - destruct (str_in patternID (map id (patterns lx))) eqn:E.
    + apply str_in_In in E. contradiction.
    + rewrite Hr. rewrite py_last_snoc. reflexivity.
Qed.

Example AddPattern_contract_example :
  Examples.compile_literal "^(a)" = Some (Examples.re_lit "a")
  /\ AddPattern Examples.compile_literal (init None None) "a" None None
     = Ok ("<Pattern: 0>",
           {| patternEOS := patternEOS (init None None);
              patternUnknown := patternUnknown (init None None);
              patterns := [mkPattern "<Pattern: 0>" (Examples.re_lit "a") None] |}).
Proof.
  assert (H : Examples.compile_literal "^(a)" = Some (Examples.re_lit "a"))
    by reflexivity.
  split; [exact H|].
  refine (proj2 (@AddPattern_contract Examples.compile_literal (init None None)
                   "a" None None (Examples.re_lit "a") H) _).
  simpl. intros F. exact F.
Qed.

(** C6.  [AddPattern] does not protect the two reserved ids.  Its
    assertion looks for the id among the registered patterns only, and the
    end-of-stream and unknown patterns are kept apart from those: on a new
    lexer a pattern given the end-of-stream id, or the unknown id, is
    registered and the id returned, where the claim says the call fails.
    The lexer then has two patterns with the end-of-stream id.  A token
    stream over it takes the first "a" of the text "ab" for the end of the
    stream: [Get] returns that token, [IsEOS] holds, every later [Get]
    returns the same token, and the rest of the text is never lexed. *)
Theorem C6_reserved_id_accepted :
  let eos_lexer := Examples.lexer_of [mkPattern EOS_PATTERN_ID (Examples.re_lit "a") None] in
  let unk_lexer := Examples.lexer_of [mkPattern UNKNOWN_PATTERN_ID (Examples.re_lit "a") None] in
  let ts := {| TokenStream.lexer := eos_lexer;
               TokenStream.stream := StringStream.init "ab";
               TokenStream.offset := 0;
               TokenStream.tokens := [];
               TokenStream.ignores := [] |} in
  let first := mkToken EOS_PATTERN_ID (mkPosition 1 1) "a" in
  AddPattern Examples.compile_literal (init None None) "a" None (Some EOS_PATTERN_ID)
  = Ok (EOS_PATTERN_ID, eos_lexer)
  /\ AddPattern Examples.compile_literal (init None None) "a" None (Some UNKNOWN_PATTERN_ID)
     = Ok (UNKNOWN_PATTERN_ID, unk_lexer)
  /\ id (patternEOS eos_lexer) = EOS_PATTERN_ID
  /\ map id (patterns eos_lexer) = [EOS_PATTERN_ID]
  /\ id (patternUnknown unk_lexer) = UNKNOWN_PATTERN_ID
  /\ map id (patterns unk_lexer) = [UNKNOWN_PATTERN_ID]
  /\ TokenStream.init eos_lexer "ab" None = Ok ts
  /\ fst (TokenStream.Get 1 ts) = Ok first
  /\ TokenStream.IsEOS (snd (TokenStream.Get 1 ts)) = true
  /\ fst (TokenStream.Get 1 (snd (TokenStream.Get 1 ts))) = Ok first
  /\ map patternID
         (TokenStream.tokens (snd (TokenStream.Get 1 (snd (TokenStream.Get 1 ts)))))
     = [EOS_PATTERN_ID]
  /\ StringStream.GetOffset
       (TokenStream.stream (snd (TokenStream.Get 1 (snd (TokenStream.Get 1 ts))))) = 1.
Proof.
  intros eos_lexer unk_lexer ts first.
  repeat split; vm_compute; reflexivity.
Qed.

End LexerFacts.

(** ** TokenStream *)

Module TokenStreamFacts.
Import TokenStream TokenStreamSpec.

Lemma lex_one_tokens (ts : t) :
  tokens (lex_one ts) = tokens ts ++ [fst (Lexer.Lex (lexer ts) (stream ts))].
Proof. unfold lex_one. destruct (Lexer.Lex (lexer ts) (stream ts)). reflexivity. Qed.

Lemma lex_one_offset (ts : t) : offset (lex_one ts) = offset ts.
Proof. unfold lex_one. destruct (Lexer.Lex (lexer ts) (stream ts)). reflexivity. Qed.

Lemma lex_one_ignores (ts : t) : ignores (lex_one ts) = ignores ts.
Proof. unfold lex_one. destruct (Lexer.Lex (lexer ts) (stream ts)). reflexivity. Qed.

(** The bound of [fill] is exact: when the loop stops, its condition is
    false. *)
Lemma fill_loop_done (n : nat) :
  forall ts, (Z.to_nat (offset ts + 1 - llen (tokens ts)) <= n)%nat ->
             (llen (tokens (fill_loop n ts)) <=? offset (fill_loop n ts))
             && negb (IsEOS (fill_loop n ts)) = false.
Proof.
  induction n as [|n IH]; intros ts Hn; simpl.
  - apply andb_false_intro1. apply Z.leb_gt. lia.
  - destruct ((llen (tokens ts) <=? offset ts) && negb (IsEOS ts)) eqn:E.
    + apply IH. rewrite lex_one_tokens, lex_one_offset, llen_app.
      apply andb_prop in E. destruct E as (E & _). apply Z.leb_le in E.
      unfold llen at 2. simpl. lia.
    + exact E.
Qed.

Lemma fill_done (ts : t) :
  (llen (tokens (fill ts)) <=? offset (fill ts)) && negb (IsEOS (fill ts)) = false.
Proof. apply fill_loop_done. apply Nat.le_refl. Qed.

(** From a state of the invariant, [fill] lexes one token or none. *)
Lemma fill_cases (ts : t) :
  ts_inv ts ->
  (fill ts = ts /\ offset ts < llen (tokens ts))
  \/ (fill ts = lex_one ts /\ offset ts = llen (tokens ts) /\ IsEOS ts = false).
Proof.
  intros ((H0 & Hle) & He & _). unfold fill.
  destruct (Z.eq_dec (offset ts) (llen (tokens ts))) as [Heq | Hne].
  - right. replace (offset ts + 1 - llen (tokens ts)) with 1 by lia.
    assert (Heos : IsEOS ts = false).
    { destruct (IsEOS ts); [specialize (He eq_refl); lia | reflexivity]. }
    change (Z.to_nat 1) with 1%nat. simpl. rewrite Heos.
    replace (llen (tokens ts) <=? offset ts) with true
      by (symmetry; apply Z.leb_le; lia).
    simpl. repeat split; assumption.
  - left. replace (Z.to_nat (offset ts + 1 - llen (tokens ts))) with 0%nat by lia.
    simpl. split; [reflexivity | lia].
Qed.

Lemma IsEOS_nonempty (ts : t) : IsEOS ts = true -> 0 < llen (tokens ts).
Proof.
  unfold IsEOS. intros H. apply andb_prop in H. destruct H as (H & _).
  apply negb_true_iff in H. apply Z.eqb_neq in H.
  pose proof (llen_nonneg (tokens ts)). lia.
Qed.

Lemma ext_refl (ts : t) : ext ts ts.
Proof. split; [reflexivity|]. exists []. rewrite app_nil_r. split; [reflexivity | auto]. Qed.

Lemma IsEOS_tokens (ts ts' : t) : tokens ts' = tokens ts -> IsEOS ts' = IsEOS ts.
Proof. intros H. unfold IsEOS. rewrite H. reflexivity. Qed.

Lemma ext_trans (a b c : t) : ext a b -> ext b c -> ext a c.
Proof.
  intros (Hi1 & l1 & H1 & F1) (Hi2 & l2 & H2 & F2).
  split; [congruence|]. exists (l1 ++ l2). split.
  - rewrite H2, H1, app_assoc. reflexivity.
  - intros He. specialize (F1 He). subst l1. rewrite app_nil_r in H1.
    rewrite F2; [reflexivity|]. rewrite (IsEOS_tokens a b H1). exact He.
Qed.

Lemma ext_llen (a b : t) : ext a b -> llen (tokens a) <= llen (tokens b).
Proof.
  intros (_ & l & H & _). rewrite H, llen_app. pose proof (llen_nonneg l). lia.
Qed.

Lemma ext_set_offset (ts : t) (o : Z) : ext ts (set_offset ts o).
Proof. split; [reflexivity|]. exists []. simpl. rewrite app_nil_r. auto. Qed.

Lemma ext_fill (ts : t) : ts_inv ts -> ext ts (fill ts).
Proof.
  intros H. destruct (fill_cases ts H) as [(-> & _) | (-> & _ & He)].
  - apply ext_refl.
  - split; [apply lex_one_ignores|]. eexists. split; [apply lex_one_tokens|].
    rewrite He. discriminate.
Qed.

Lemma fill_offset (ts : t) : ts_inv ts -> offset (fill ts) = offset ts.
Proof.
  intros H. destruct (fill_cases ts H) as [(-> & _) | (-> & _ & _)].
  - reflexivity.
  - apply lex_one_offset.
Qed.

Lemma fill_in_cache (ts : t) : ts_inv ts -> offset ts < llen (tokens (fill ts)).
Proof.
  intros H. destruct (fill_cases ts H) as [(-> & Hlt) | (-> & Heq & _)].
  - exact Hlt.
  - rewrite lex_one_tokens, llen_app. unfold llen at 2. simpl. lia.
Qed.

(** The state [Get] leaves after taking the token under the cursor. *)
Lemma inv_advance (ts1 : t) :
  0 <= offset ts1 < llen (tokens ts1) ->
  str_in Lexer.EOS_PATTERN_ID (ignores ts1) = false ->
  ts_inv (set_offset ts1 (if IsEOS ts1 then llen (tokens ts1) - 1
                          else offset ts1 + 1)).
Proof.
  intros Ho Hi.
  set (ts2 := set_offset ts1 _).
  assert (He : IsEOS ts2 = IsEOS ts1) by (apply IsEOS_tokens; reflexivity).
  unfold ts_inv. rewrite He. subst ts2. simpl.
  destruct (IsEOS ts1) eqn:E.
  - split; [lia | split; [intros _; lia | exact Hi]].
  - split; [lia | split; [discriminate | exact Hi]].
Qed.

Lemma Get_S (fuel : nat) (ts : t) :
  Get (S fuel) ts
  = match py_index (tokens (fill ts)) (offset (fill ts)) with
    | None => (Crash "IndexError", fill ts)
    | Some token =>
        let ts2 := set_offset (fill ts)
                     (if IsEOS (fill ts) then llen (tokens (fill ts)) - 1
                      else offset (fill ts) + 1) in
        if str_in (patternID token) (ignores ts2) then Get fuel ts2
        else (Ok token, ts2)
    end.
Proof. reflexivity. Qed.

(** What [Get] guarantees from a state of the invariant: it does not raise,
    it keeps the invariant and only extends the cache, and when it returns,
    the token is not an ignored one and the cache covers the old cursor. *)
Lemma Get_inv (fuel : nat) :
  forall ts o ts',
    ts_inv ts -> Get fuel ts = (o, ts') ->
    ts_inv ts' /\ ext ts ts'
    /\ match o with
       | Ok tok => offset ts < llen (tokens ts')
                   /\ str_in (patternID tok) (ignores ts) = false
       | Timeout => True
       | _ => False
       end.
Proof.
  induction fuel as [|fuel IH]; intros ts o ts' Hinv H.
  - simpl in H. inversion H; subst. split; [assumption | split; [apply ext_refl | exact I]].
  - rewrite Get_S in H.
    pose proof (fill_in_cache ts Hinv) as Hc.
    pose proof (fill_offset ts Hinv) as Ho.
    pose proof (ext_fill ts Hinv) as He.
    destruct Hinv as ((H0 & Hle) & Heos & Hign).
    destruct (py_index_in_range (tokens (fill ts)) (offset (fill ts))) as (tok & Htok);
      [lia|].
    rewrite Htok in H. cbv zeta in H.
    set (ts2 := set_offset (fill ts) _) in H.
    assert (Hi2 : ignores ts2 = ignores ts) by (destruct He as (He & _); exact He).
    assert (Hinv2 : ts_inv ts2).
    { apply inv_advance; [lia|]. destruct He as (-> & _). exact Hign. }
    assert (He2 : ext ts ts2).
    { eapply ext_trans; [exact He | apply ext_set_offset]. }
    destruct (str_in (patternID tok) (ignores ts2)) eqn:Ei.
    + destruct (IH ts2 o ts' Hinv2 H) as (Hinv' & He' & Ho').
      split; [exact Hinv' | split; [eapply ext_trans; eassumption|]].
      destruct o; try exact Ho'. destruct Ho' as (Hlt & Hni).
      split; [|rewrite <- Hi2; exact Hni].
      pose proof (ext_llen ts2 ts' He') as Hll. simpl in Hll. lia.
    + inversion H; subst o ts'.
      split; [exact Hinv2 | split; [exact He2|]].
      split; [simpl; lia | rewrite <- Hi2; exact Ei].
Qed.

Lemma Peek_inv (fuel : nat) (ts : t) (o : outcome Token) (ts' : t) :
  ts_inv ts -> Peek fuel ts = (o, ts') ->
  ts_inv ts' /\ ext ts ts'
  /\ match o with
     | Ok tok => offset ts' = offset ts /\ offset ts < llen (tokens ts')
                 /\ str_in (patternID tok) (ignores ts) = false
     | Timeout => True
     | _ => False
     end.
Proof.
  intros Hinv H. unfold Peek in H.
  destruct (Get fuel ts) as (o1 & ts1) eqn:E.
  destruct (Get_inv fuel ts o1 ts1 Hinv E) as (Hinv1 & He1 & Ho1).
  destruct o1 as [tok | e | w |]; inversion H; subst o ts'; try contradiction.
  - destruct Ho1 as (Hlt & Hni).
    assert (He : ext ts (set_offset ts1 (offset ts)))
      by (eapply ext_trans; [exact He1 | apply ext_set_offset]).
    split; [|split; [exact He | simpl; auto]].
    destruct Hinv as ((H0 & Hle) & _ & _). destruct Hinv1 as (_ & _ & Hi1).
    unfold ts_inv. simpl. split; [lia | split; [intros _; lia | exact Hi1]].
  - split; [exact Hinv1 | split; [exact He1 | exact I]].
Qed.

Lemma GetPosition_inv (fuel : nat) (ts : t) (o : outcome Position) (ts' : t) :
  ts_inv ts -> GetPosition fuel ts = (o, ts') ->
  ts_inv ts' /\ ext ts ts'
  /\ match o with
     | Ok _ => offset ts' = offset ts /\ offset ts < llen (tokens ts')
     | Timeout => True
     | _ => False
     end.
Proof.
  intros Hinv H. unfold GetPosition in H.
  destruct (Peek fuel ts) as (o1 & ts1) eqn:E.
  destruct (Peek_inv fuel ts o1 ts1 Hinv E) as (Hinv1 & He1 & Ho1).
  destruct o1; inversion H; subst; try contradiction.
  - destruct Ho1 as (A & B & _). auto.
  - auto.
Qed.

Lemma SetOffset_inv (ts : t) (o : Z) :
  ts_inv ts -> ts_inv (SetOffset ts o) /\ ext ts (SetOffset ts o).
Proof.
  intros (_ & _ & Hi). split; [|apply ext_set_offset].
  pose proof (llen_nonneg (tokens ts)) as Hn.
  unfold ts_inv, SetOffset. simpl.
  split; [lia | split; [|exact Hi]].
  intros He. apply IsEOS_nonempty in He. simpl in He. lia.
Qed.

Lemma SetOffset_exact (ts : t) (o : Z) :
  0 <= o < llen (tokens ts) -> offset (SetOffset ts o) = o.
Proof. intros H. unfold SetOffset. simpl. lia. Qed.

Lemma init_inv (lx : Lexer.t) (s : string) (ign : option (list PatternID)) (ts : t) :
  init lx s ign = Ok ts -> ts_inv ts.
Proof.
  unfold init. destruct (str_in Lexer.EOS_PATTERN_ID _) eqn:E; [discriminate|].
  intros H. inversion H; subst ts. unfold ts_inv. simpl.
  split; [unfold llen; simpl; lia | split; [discriminate | exact E]].
Qed.

(** *** The cursor after [Get] *)

(** While the end-of-stream token is not cached, [Get] leaves the cursor
    just past the token it returns, and the tokens it passed over are the
    ignored ones. *)
Lemma Get_advances (fuel : nat) :
  forall ts tok ts',
    ts_inv ts -> Get fuel ts = (Ok tok, ts') -> IsEOS ts' = false ->
    py_index (tokens ts') (offset ts' - 1) = Some tok
    /\ offset ts < offset ts'
    /\ forall i x, offset ts <= i < offset ts' - 1 ->
                   py_index (tokens ts') i = Some x ->
                   str_in (patternID x) (ignores ts) = true.
Proof.
  induction fuel as [|fuel IH]; intros ts tok ts' Hinv H Hne.
  - discriminate.
  - rewrite Get_S in H.
    pose proof (fill_in_cache ts Hinv) as Hc.
    pose proof (fill_offset ts Hinv) as Ho.
    pose proof (ext_fill ts Hinv) as He.
    destruct (py_index_in_range (tokens (fill ts)) (offset (fill ts))) as (tk & Htk);
      [destruct Hinv as ((? & ?) & _); lia|].
    rewrite Htk in H. cbv zeta in H.
    set (ts2 := set_offset (fill ts) _) in H.
    assert (Hi2 : ignores ts2 = ignores ts) by (destruct He as (He & _); exact He).
    assert (Hinv2 : ts_inv ts2).
    { apply inv_advance; [destruct Hinv as ((? & ?) & _); lia|].
      destruct He as (-> & _). destruct Hinv as (_ & _ & Hi). exact Hi. }
    assert (Hext : ext ts2 ts').
    { destruct (str_in (patternID tk) (ignores ts2)).
      - apply (Get_inv fuel ts2 (Ok tok) ts' Hinv2 H).
      - inversion H; subst. apply ext_refl. }
    assert (Hf : IsEOS (fill ts) = false).
    { destruct (IsEOS (fill ts)) eqn:E; [|reflexivity].
      destruct Hext as (_ & l & Hl & Hfr).
      rewrite (IsEOS_tokens (fill ts) ts2 eq_refl) in Hfr. specialize (Hfr E). subst l.
      rewrite app_nil_r in Hl. rewrite (IsEOS_tokens ts2 ts' Hl) in Hne.
      rewrite (IsEOS_tokens (fill ts) ts2 eq_refl) in Hne. congruence. }
    assert (Ho2 : offset ts2 = offset ts + 1).
    { subst ts2. simpl. rewrite Hf. lia. }
    assert (Hsame : py_index (tokens ts') (offset ts) = Some tk).
    { destruct Hext as (_ & l & -> & _). apply py_index_app_l.
      - destruct Hinv as ((? & ?) & _); lia.
      - simpl. rewrite <- Ho. exact Htk. }
    destruct (str_in (patternID tk) (ignores ts2)) eqn:Ei.
    + destruct (IH ts2 tok ts' Hinv2 H Hne) as (A & B & C).
      split; [exact A | split; [lia|]].
      intros i x Hi Hx.
      destruct (Z.eq_dec i (offset ts)) as [-> | Hd].
      * rewrite Hsame in Hx. inversion Hx; subst x. rewrite <- Hi2. exact Ei.
      * rewrite <- Hi2. apply (C i x); [lia | exact Hx].
    + inversion H; subst tok ts'.
      rewrite Ho2. replace (offset ts + 1 - 1) with (offset ts) by lia.
      split; [exact Hsame | split; [lia|]].
      intros i x Hi Hx. lia.
Qed.

(** C3. [Get] is claimed to return the token under the cursor and to
    advance the cursor by one, staying on the last index at the end of the
    stream.  Once the end-of-stream token is cached, the code moves the
    cursor to the last index on every call, wherever the cursor was: on the
    text "ab", lexed to the end and rewound to index 0, [Get] returns the
    token of "a" and leaves the cursor on index 2, so that the next [Get]
    returns the end-of-stream token and the token of "b" at index 1 is never
    returned. *)
Theorem C3_Get_jumps_to_end_after_rewind :
  TokenStream.init (Examples.lexer_of [Examples.pat_a; Examples.pat_b]) "ab" None
  = Ok Examples.ts_ab
  /\ map patternID (tokens Examples.ts_ab_lexed) = ["A"; "B"; "<EOS>"]
  /\ offset Examples.ts_ab_lexed = 2
  /\ let rewound := SetOffset Examples.ts_ab_lexed 0 in
     offset rewound = 0
     /\ fst (Get 3 rewound) = Ok (mkToken "A" (mkPosition 1 1) "a")
     /\ offset (snd (Get 3 rewound)) = 2
     /\ py_index (tokens rewound) 1 = Some (mkToken "B" (mkPosition 1 2) "b")
     /\ fst (Get 3 (snd (Get 3 rewound))) = Ok (mkToken "<EOS>" (mkPosition 1 3) "").
Proof. repeat split; vm_compute; reflexivity. Qed.

(** *** Peeking again *)

Lemma fill_id (ts : t) : offset ts < llen (tokens ts) -> fill ts = ts.
Proof.
  intros H. unfold fill.
  replace (Z.to_nat (offset ts + 1 - llen (tokens ts))) with 0%nat by lia.
  reflexivity.
Qed.

Lemma set_offset_same (ts : t) (o : Z) : o = offset ts -> set_offset ts o = ts.
Proof. intros ->. destruct ts. reflexivity. Qed.

Lemma set_offset_back (ts : t) (x o : Z) :
  o = offset ts -> set_offset (set_offset ts x) o = ts.
Proof. intros ->. destruct ts. reflexivity. Qed.

(** [Get], run again from the same cursor on a later state whose cache
    does not end with the end-of-stream token, returns the same token
    without lexing. *)
Lemma Get_replay (fuel : nat) :
  forall a b tok a',
    ts_inv a -> Get fuel a = (Ok tok, a') ->
    ext a' b -> offset b = offset a -> IsEOS b = false ->
    Get fuel b = (Ok tok, set_offset b (offset a')).
Proof.
  induction fuel as [|fuel IH]; intros a b tok a' Hinv H Hext Hob Hne.
  - discriminate.
  - destruct (Get_inv (S fuel) a (Ok tok) a' Hinv H) as (_ & Haa' & Hlt & _).
    rewrite Get_S in H.
    pose proof (fill_in_cache a Hinv) as Hc.
    pose proof (fill_offset a Hinv) as Ho.
    pose proof (ext_fill a Hinv) as He.
    assert (H0 : 0 <= offset a) by (destruct Hinv as ((? & ?) & _); assumption).
    destruct (py_index_in_range (tokens (fill a)) (offset (fill a))) as (tk & Htk);
      [lia|].
    rewrite Htk in H. cbv zeta in H.
    set (a2 := set_offset (fill a) _) in H.
    assert (Hi2 : ignores a2 = ignores a) by (destruct He as (He & _); exact He).
    assert (Hinv2 : ts_inv a2).
    { apply inv_advance; [lia|].
      destruct He as (-> & _). destruct Hinv as (_ & _ & Hi). exact Hi. }
    assert (Hext2 : ext a2 a').
    { destruct (str_in (patternID tk) (ignores a2)).
      - apply (Get_inv fuel a2 (Ok tok) a' Hinv2 H).
      - inversion H; subst. apply ext_refl. }
    assert (Hext2b : ext a2 b) by (eapply ext_trans; eassumption).
    assert (Hf : IsEOS (fill a) = false).
    { destruct (IsEOS (fill a)) eqn:E; [|reflexivity].
      destruct Hext2b as (_ & l & Hl & Hfr).
      rewrite (IsEOS_tokens (fill a) a2 eq_refl) in Hfr. specialize (Hfr E). subst l.
      rewrite app_nil_r in Hl. rewrite (IsEOS_tokens a2 b Hl) in Hne.
      rewrite (IsEOS_tokens (fill a) a2 eq_refl) in Hne. congruence. }
    assert (Ho2 : offset a2 = offset a + 1).
    { subst a2. simpl. rewrite Hf. lia. }
    assert (Hib : ignores b = ignores a2) by (destruct Hext2b as (Hi & _); exact Hi).
    assert (Hlb : offset b < llen (tokens b)).
    { pose proof (ext_llen a' b Hext). lia. }
    rewrite Get_S, (fill_id b Hlb), Hne.
    assert (Hsame : py_index (tokens b) (offset b) = Some tk).
    { destruct Hext2b as (_ & l & -> & _). rewrite Hob. apply py_index_app_l.
      - lia.
      - simpl. rewrite <- Ho. exact Htk. }
    rewrite Hsame. cbv zeta.
    change (ignores (set_offset b (offset b + 1))) with (ignores b).
    rewrite Hib.
    destruct (str_in (patternID tk) (ignores a2)) eqn:Ei.
    + rewrite (IH a2 (set_offset b (offset b + 1)) tok a' Hinv2 H).
      * reflexivity.
      * eapply ext_trans; [exact Hext | apply ext_set_offset].
      * rewrite Ho2. simpl. lia.
      * rewrite (IsEOS_tokens b (set_offset b (offset b + 1)) eq_refl). exact Hne.
    + inversion H; subst tok a'. rewrite Ho2, Hob. reflexivity.
Qed.

(** On a state whose cache ends with the end-of-stream token, [Get]
    returns within two rounds. *)
Lemma Get_at_eos (fuel : nat) (b : t) :
  0 <= offset b < llen (tokens b) -> IsEOS b = true ->
  str_in Lexer.EOS_PATTERN_ID (ignores b) = false ->
  exists tok, Get (S (S fuel)) b = (Ok tok, set_offset b (llen (tokens b) - 1)).
Proof.
  intros Ho He Hi.
  assert (Hlt : offset b < llen (tokens b)) by lia.
  rewrite Get_S, (fill_id b Hlt), He.
  destruct (py_index_in_range (tokens b) (offset b) Ho) as (tk & Htk).
  rewrite Htk. cbv zeta.
  set (b2 := set_offset b (llen (tokens b) - 1)).
  destruct (str_in (patternID tk) (ignores b2)) eqn:Ei; [|eauto].
  assert (Hlt2 : offset b2 < llen (tokens b2)) by (simpl; lia).
  rewrite Get_S, (fill_id b2 Hlt2).
  rewrite (IsEOS_tokens b b2 eq_refl), He.
  change (offset b2) with (llen (tokens b) - 1). change (tokens b2) with (tokens b).
  assert (Hlast : exists tl, py_last (tokens b) = Some tl
                             /\ patternID tl = Lexer.EOS_PATTERN_ID
                             /\ py_index (tokens b) (llen (tokens b) - 1) = Some tl).
  { unfold IsEOS in He. apply andb_prop in He. destruct He as (_ & He).
    destruct (py_last (tokens b)) as [tl|] eqn:El; [|discriminate].
    exists tl. split; [reflexivity | split; [apply String.eqb_eq; exact He|]].
    unfold py_last, py_index in El. change (0 <=? -1) with false in El. cbv iota in El.
    destruct (- llen (tokens b) <=? -1); [|discriminate].
    rewrite py_index_nonneg by lia.
    replace (llen (tokens b) - 1) with (llen (tokens b) + -1) by lia. exact El. }
  destruct Hlast as (tl & _ & Hid & Hidx). rewrite Hidx. cbv zeta.
  change (ignores (set_offset b2 (llen (tokens b) - 1))) with (ignores b).
  rewrite Hid, Hi. exists tl. reflexivity.
Qed.


Lemma Peek_peekable (fuel : nat) (a : t) (tok : Token) (a1 : t) :
  ts_inv a -> Peek fuel a = (Ok tok, a1) -> peekable a1.
Proof.
  intros Hinv HP.
  destruct (Peek_inv fuel a (Ok tok) a1 Hinv HP) as (Hinv1 & Hext & Ho & Hlt & _).
  unfold Peek in HP. destruct (Get fuel a) as (o1 & a') eqn:E.
  destruct o1 as [tk | e | w |]; try discriminate.
  assert (Heq : tk = tok /\ set_offset a' (offset a) = a1) by (inversion HP; auto).
  destruct Heq as (-> & Ha1). clear HP.
  destruct (Get_inv fuel a (Ok tok) a' Hinv E) as (Hinv' & Hext' & _).
  assert (Hb : 0 <= offset a1 < llen (tokens a1)).
  { destruct Hinv as ((? & ?) & _). lia. }
  assert (Hea : ext a' a1).
  { rewrite <- Ha1. apply ext_set_offset. }
  destruct (IsEOS a1) eqn:Eb.
  - destruct (Get_at_eos 0 a1 Hb Eb) as (tk & Hg).
    + destruct Hinv1 as (_ & _ & Hi). exact Hi.
    + exists 2%nat, tk. unfold Peek. rewrite Hg.
      f_equal. apply set_offset_back. reflexivity.
  - exists fuel, tok. unfold Peek.
    rewrite (Get_replay fuel a a1 tok a' Hinv E Hea Ho Eb).
    f_equal. apply set_offset_back. reflexivity.
Qed.

(** *** More fuel *)

Lemma Get_mono (fuel : nat) :
  forall k ts o ts',
    Get fuel ts = (o, ts') -> o <> Timeout -> Get (fuel + k) ts = (o, ts').
Proof.
  induction fuel as [|fuel IH]; intros k ts o ts' H Hne.
  - simpl in H. inversion H; subst. contradiction.
  - change (S fuel + k)%nat with (S (fuel + k)). rewrite Get_S in *.
    destruct (py_index (tokens (fill ts)) (offset (fill ts))); [|exact H].
    cbv zeta in *.
    destruct (str_in _ _); [apply IH; assumption | exact H].
Qed.

Lemma Peek_mono (fuel k : nat) (ts : t) (o : outcome Token) (ts' : t) :
  Peek fuel ts = (o, ts') -> o <> Timeout -> Peek (fuel + k) ts = (o, ts').
Proof.
  unfold Peek. intros H Hne.
  destruct (Get fuel ts) as (o1 & ts1) eqn:E.
  assert (Hne1 : o1 <> Timeout).
  { intros ->. inversion H; subst. contradiction. }
  rewrite (Get_mono fuel k ts o1 ts1 E Hne1). exact H.
Qed.

Lemma GetPosition_mono (fuel k : nat) (ts : t) (o : outcome Position) (ts' : t) :
  GetPosition fuel ts = (o, ts') -> o <> Timeout ->
  GetPosition (fuel + k) ts = (o, ts').
Proof.
  unfold GetPosition. intros H Hne.
  destruct (Peek fuel ts) as (o1 & ts1) eqn:E.
  assert (Hne1 : o1 <> Timeout).
  { intros ->. inversion H; subst. contradiction. }
  rewrite (Peek_mono fuel k ts o1 ts1 E Hne1). exact H.
Qed.


(** *** A call of [Get] that does not return *)

Lemma IsEOS_all_ignored (ts : t) :
  Forall (fun tok => patternID tok = "WS") (tokens ts) -> IsEOS ts = false.
Proof.
  intros H. unfold IsEOS.
  destruct (py_last (tokens ts)) as [tok|] eqn:E.
  - apply py_index_In in E. rewrite Forall_forall in H. rewrite (H tok E).
    apply andb_false_r.
  - apply andb_false_r.
Qed.

(** With a pattern that matches the empty text and is ignored, at a
    position where nothing else matches, every token [Get] lexes is ignored
    and has length zero: the loop of [Get] has no exit. *)
Lemma Get_ignored_empty_match_loops (fuel : nat) :
  forall toks o,
    Forall (fun tok => patternID tok = "WS") toks -> o = llen toks ->
    fst (Get fuel {| lexer := Examples.lexer_of [Examples.pat_blanks];
                     stream := StringStream.init "x";
                     offset := o; tokens := toks; ignores := ["WS"] |}) = Timeout.
Proof.
  induction fuel as [|fuel IH]; intros toks o Hall Ho.
  - reflexivity.
  - set (ts := {| lexer := _; stream := _; offset := o; tokens := toks; ignores := _ |}).
    assert (Heos : IsEOS ts = false) by (apply IsEOS_all_ignored; exact Hall).
    assert (Hinv : ts_inv ts).
    { unfold ts_inv. simpl. pose proof (llen_nonneg toks).
      split; [lia | split; [rewrite Heos; discriminate | reflexivity]]. }
    rewrite Get_S.
    destruct (fill_cases ts Hinv) as [(_ & Hlt) | (Hf & _ & _)];
      [simpl in Hlt; lia|].
    rewrite Hf.
    assert (Hl : lex_one ts
                 = {| lexer := lexer ts; stream := stream ts; offset := o;
                      tokens := toks ++ [mkToken "WS" (mkPosition 1 1) ""];
                      ignores := ["WS"] |}) by reflexivity.
    rewrite Hl. cbn [tokens offset]. rewrite Ho, py_index_snoc. cbv zeta.
    set (ts1 := {| lexer := lexer ts; stream := stream ts; offset := llen toks;
                   tokens := toks ++ _; ignores := _ |}).
    assert (Hall1 : Forall (fun tok => patternID tok = "WS") (tokens ts1)).
    { simpl. apply Forall_app. split; [exact Hall | repeat constructor]. }
    rewrite (IsEOS_all_ignored ts1 Hall1).
    change (str_in (patternID (mkToken "WS" (mkPosition 1 1) ""))
                   (ignores (set_offset ts1 (offset ts1 + 1)))) with true.
    cbv iota. apply (IH (toks ++ [mkToken "WS" (mkPosition 1 1) ""]) (offset ts1 + 1)).
    + exact Hall1.
    + simpl. rewrite llen_app. reflexivity.
Qed.

Lemma Get_never_returns_example (fuel : nat) :
  fst (Get fuel Examples.ts_blank_ignored) = Timeout.
Proof. apply Get_ignored_empty_match_loops; [constructor | reflexivity]. Qed.

End TokenStreamFacts.

(** ** Parsers *)

Module ParserFacts.
Import TokenStream TokenStreamSpec TokenStreamFacts ParserSpec.

(** *** Statements that keep the token stream in order *)

Lemma stable_ret {A : Type} (a : A) : stable (ret a).
Proof. intros s o s' Hi H. inversion H; subst. split; [assumption | apply ext_refl]. Qed.

Lemma stable_raise {A : Type} (e : Error) : stable (@raise A e).
Proof. intros s o s' Hi H. inversion H; subst. split; [assumption | apply ext_refl]. Qed.

Lemma stable_lift {A : Type} (x : outcome A) : stable (lift x).
Proof. intros s o s' Hi H. inversion H; subst. split; [assumption | apply ext_refl]. Qed.

Lemma stable_timeout {A : Type} : stable (fun s => (@Timeout A, s)).
Proof. intros s o s' Hi H. inversion H; subst. split; [assumption | apply ext_refl]. Qed.

Lemma stable_bind {A B : Type} (m : M A) (k : A -> M B) :
  stable m -> (forall a, stable (k a)) -> stable (bind m k).
Proof.
  intros Hm Hk s o s' Hi H. unfold bind in H.
  destruct (m s) as (o1 & s1) eqn:E.
  destruct (Hm s o1 s1 Hi E) as (Hi1 & He1).
  destruct o1 as [a | e | w |].
  - destruct (Hk a s1 o s' Hi1 H) as (Hi' & He').
    split; [assumption | eapply ext_trans; eassumption].
  - inversion H; subst. auto.
  - inversion H; subst. auto.
  - inversion H; subst. auto.
Qed.

Lemma stable_catch {A : Type} (m : M A) : stable m -> stable (catch m).
Proof.
  intros Hm s o s' Hi H. unfold catch in H.
  destruct (m s) as (o1 & s1) eqn:E.
  destruct (Hm s o1 s1 Hi E) as (Hi1 & He1).
  destruct o1; inversion H; subst; auto.
Qed.

Lemma stable_Get (fuel : nat) : stable (Get fuel).
Proof. intros s o s' Hi H. destruct (Get_inv fuel s o s' Hi H) as (A & B & _). auto. Qed.

Lemma stable_Peek (fuel : nat) : stable (Peek fuel).
Proof. intros s o s' Hi H. destruct (Peek_inv fuel s o s' Hi H) as (A & B & _). auto. Qed.

Lemma stable_GetPosition (fuel : nat) : stable (GetPosition fuel).
Proof.
  intros s o s' Hi H. destruct (GetPosition_inv fuel s o s' Hi H) as (A & B & _). auto.
Qed.

Lemma stable_skip_ignores (fuel : nat) (ign : list PatternID) :
  stable (skip_ignores fuel ign).
Proof.
  induction fuel as [|fuel IH]; simpl.
  - apply stable_timeout.
  - apply stable_bind; [apply stable_Peek|]. intros tok.
    destruct (str_in (patternID tok) ign).
    + apply stable_bind; [apply stable_Get | intros _; exact IH].
    + apply stable_ret.
Qed.

Lemma stable_Terminal_parse (fuel : nat) (pid : PatternID) (v : option string) :
  stable (Terminal_parse fuel pid v).
Proof.
  unfold Terminal_parse. apply stable_bind; [apply stable_Get|]. intros token.
  destruct (negb (patternID token =? pid)%string); [apply stable_raise|].
  destruct v as [v|]; [|apply stable_ret].
  destruct (negb (value token =? v)%string); [apply stable_raise | apply stable_ret].
Qed.

Section Loops.

Variable rec : Parser -> M Result.
Hypothesis rec_stable : forall q, stable (rec q).

Lemma stable_Sequence_loop (ps : list Parser) :
  forall results, stable (Sequence_loop rec ps results).
Proof.
  induction ps as [|p ps IH]; intros results; simpl.
  - apply stable_ret.
  - apply stable_bind; [apply rec_stable | intros r; apply IH].
Qed.

Lemma stable_Choice_loop (tag : bool) (ps : list Parser) :
  stable (Choice_loop rec tag ps).
Proof.
  induction ps as [|p ps IH]; simpl.
  - apply stable_ret.
  - apply stable_bind; [apply stable_catch, rec_stable|].
    intros [result | e]; [apply stable_ret | exact IH].
Qed.

Lemma stable_Quantified_loop (fuel : nat) (q : Parser) (minimum : Z) (maximum : option Z) :
  forall results, stable (Quantified_loop rec fuel q minimum maximum results).
Proof.
  induction fuel as [|fuel IH]; intros results; simpl.
  - apply stable_timeout.
  - destruct (match maximum with None => true | Some m => llen results <? m end);
      [|apply stable_ret].
    apply stable_bind; [apply stable_catch, rec_stable|].
    intros [r | e]; [apply IH|].
    destruct (llen results <? minimum); [|apply stable_ret].
    apply stable_bind; [apply stable_GetPosition | intros pos; apply stable_raise].
Qed.

Lemma stable__parse (fuel : nat) (p : Parser) (start : Position) :
  stable (_parse rec fuel p start).
Proof.
  destruct p; simpl.
  - apply stable_Terminal_parse.
  - apply stable_bind; [apply stable_Sequence_loop | intros; apply stable_ret].
  - apply stable_bind; [apply stable_Choice_loop|].
    intros [r|]; [apply stable_ret | apply stable_raise].
  - apply stable_bind; [apply stable_Quantified_loop | intros; apply stable_ret].
  - apply stable_bind; [apply stable_catch, rec_stable|].
    intros [r | e]; apply stable_ret.
  - apply stable_lift.
Qed.

(** The [try] block of [Parser.parse]. *)
Lemma stable_attempt (fuel : nat) (p : Parser) :
  stable (_ <- skip_ignores fuel (Parser_ignores p) ;;
          start <- GetPosition fuel ;;
          result <- _parse rec fuel p start ;;
          v <- lift (Parser_transformer p (res_value result)) ;;
          ret (mkResult (res_position result) v)).
Proof.
  apply stable_bind; [apply stable_skip_ignores | intros _].
  apply stable_bind; [apply stable_GetPosition | intros start].
  apply stable_bind; [apply stable__parse | intros result].
  apply stable_bind; [apply stable_lift | intros v; apply stable_ret].
Qed.

(** When the skipping loop returns, it has peeked at the cursor it
    started from; it never raises [Parser.Error]. *)
Lemma skip_ignores_ok (fuel : nat) (ign : list PatternID) (s : t)
    (o : outcome unit) (s' : t) :
  ts_inv s -> skip_ignores fuel ign s = (o, s') ->
  match o with
  | Ok _ => exists s0, ts_inv s0 /\ peekable s0 /\ offset s0 = offset s
                       /\ ext s s0 /\ ext s0 s'
                       /\ offset s < llen (tokens s')
  | Raise _ => False
  | _ => True
  end.
Proof.
  revert s o s'. induction fuel as [|fuel IH]; intros s o s' Hi H; simpl in H.
  - inversion H; subst. exact I.
  - unfold bind in H at 1.
    destruct (Peek fuel s) as (o1 & s1) eqn:E.
    destruct (Peek_inv fuel s o1 s1 Hi E) as (Hi1 & He1 & Ho1).
    destruct o1 as [tok | e | w |]; try contradiction;
      try (inversion H; subst; exact I).
    destruct Ho1 as (Hoff & Hlt & _).
    assert (Hrest : stable (if str_in (patternID tok) ign
                            then _ <- Get fuel ;; skip_ignores fuel ign
                            else ret tt)).
    { destruct (str_in (patternID tok) ign).
      - apply stable_bind; [apply stable_Get | intros _; apply stable_skip_ignores].
      - apply stable_ret. }
    destruct (Hrest s1 o s' Hi1 H) as (Hi' & He').
    assert (Hnr : forall e, o <> Raise e).
    { intros e ->. destruct (str_in (patternID tok) ign).
      - unfold bind in H. destruct (Get fuel s1) as (o2 & s2) eqn:E2.
        destruct (Get_inv fuel s1 o2 s2 Hi1 E2) as (Hi2 & _ & Ho2).
        destruct o2; try contradiction; try discriminate.
        apply (IH s2 (Raise e) s' Hi2 H).
      - discriminate. }
    destruct o as [[] | e | w |]; try exact I.
    + exists s1. split; [exact Hi1 | split; [|split; [exact Hoff | split; [exact He1|]]]].
      * exact (Peek_peekable fuel s tok s1 Hi E).
      * split; [exact He'|]. pose proof (ext_llen s1 s' He'). lia.
    + apply (Hnr e). reflexivity.
Qed.

(** [Parser.parse] keeps the token stream in order when the parsers it
    calls do. *)
Lemma stable_Parser_parse (fuel : nat) (p : Parser) : stable (Parser_parse rec fuel p).
Proof.
  intros s. unfold Parser_parse.
  set (handler := fun x : Result + Error => _).
  assert (Hh : forall x, stable (handler x)).
  { intros [result | e]; subst handler; cbv beta iota.
    - apply stable_ret.
    - intros s1 o s2 Hi1 H.
      destruct (SetOffset_inv s1 (GetOffset s) Hi1) as (Hi & He).
      cbv zeta in H.
      assert (Hs : stable (pos <- GetPosition fuel ;;
                           @raise Result (ParserError.Combine
                                            (mkError pos (unable_to_parse p)) e))).
      { apply stable_bind; [apply stable_GetPosition | intros; apply stable_raise]. }
      destruct (Hs _ o s2 Hi H) as (Hi2 & He2).
      split; [exact Hi2 | exact (ext_trans _ _ _ He He2)]. }
  intros o s' Hi H.
  exact (stable_bind _ handler (stable_catch _ (stable_attempt fuel p)) Hh s o s' Hi H).
Qed.

(** When [Parser.parse] raises, the cursor is where it was at the call, and
    it can be peeked at. *)
Lemma Parser_parse_raise (fuel : nat) (p : Parser) (s : t) (e : Error) (s' : t) :
  ts_inv s -> Parser_parse rec fuel p s = (Raise e, s') ->
  GetOffset s' = GetOffset s /\ peekable s'.
Proof.
  intros Hi H. unfold Parser_parse in H. cbv zeta in H.
  unfold bind in H at 1. unfold catch in H at 1.
  pose proof (stable_attempt fuel p) as Hst.
  destruct ((_ <- skip_ignores fuel (Parser_ignores p) ;;
             start <- GetPosition fuel ;;
             result <- _parse rec fuel p start ;;
             v <- lift (Parser_transformer p (res_value result)) ;;
             ret (mkResult (res_position result) v)) s) as (ob & sb) eqn:Eb.
  destruct ob as [r | e0 | w |]; try discriminate.
  assert (Hlt : 0 <= GetOffset s < llen (tokens sb)).
  { unfold bind in Eb at 1.
    destruct (skip_ignores fuel (Parser_ignores p) s) as (o1 & s1) eqn:E1.
    pose proof (skip_ignores_ok fuel (Parser_ignores p) s o1 s1 Hi E1) as Hs.
    destruct o1 as [[] | e1 | w |]; try contradiction; try discriminate.
    destruct Hs as (s0 & Hi0 & _ & _ & He0 & He1 & Hlt).
    assert (Hi1 : ts_inv s1).
    { apply (stable_skip_ignores fuel (Parser_ignores p) s (Ok tt) s1 Hi E1). }
    assert (Hrest : stable (start <- GetPosition fuel ;;
                            result <- _parse rec fuel p start ;;
                            v <- lift (Parser_transformer p (res_value result)) ;;
                            ret (mkResult (res_position result) v))).
    { apply stable_bind; [apply stable_GetPosition | intros start].
      apply stable_bind; [apply stable__parse | intros result].
      apply stable_bind; [apply stable_lift | intros v; apply stable_ret]. }
    destruct (Hrest s1 (Raise e0) sb Hi1 Eb) as (_ & Hext).
    pose proof (ext_llen s1 sb Hext). destruct Hi as ((? & ?) & _).
    unfold GetOffset. lia. }
  destruct (Hst s (Raise e0) sb Hi Eb) as (Hib & _).
  destruct (SetOffset_inv sb (GetOffset s) Hib) as (Hi2 & _).
  pose proof (SetOffset_exact sb (GetOffset s) Hlt) as Hoff.
  unfold bind in H.
  destruct (GetPosition fuel (SetOffset sb (GetOffset s))) as (o3 & s3) eqn:E3.
  pose proof (GetPosition_inv fuel _ o3 s3 Hi2 E3) as Hgp.
  destruct o3 as [pos | e3 | w |]; try discriminate;
    [|destruct Hgp as (_ & _ & []) ].
  assert (Heq : s3 = s') by (inversion H; reflexivity). subst s3.
  destruct Hgp as (_ & _ & Ho & _).
  split; [unfold GetOffset in *; congruence|].
  unfold GetPosition in E3.
  destruct (Peek fuel (SetOffset sb (GetOffset s))) as (o4 & s4) eqn:E4.
  destruct o4 as [tok | e4 | w |]; try discriminate.
  assert (Heq : s4 = s') by (inversion E3; reflexivity). subst s4.
  exact (Peek_peekable fuel _ tok s' Hi2 E4).
Qed.

End Loops.

(** *** What a returning statement went through *)

Lemma bind_Ok {A B : Type} (m : M A) (k : A -> M B) (s : t) (b : B) (s' : t) :
  bind m k s = (Ok b, s') ->
  exists a s1, m s = (Ok a, s1) /\ k a s1 = (Ok b, s').
Proof.
  unfold bind. destruct (m s) as (o1 & s1). destruct o1; try discriminate.
  intros H. eauto.
Qed.

Lemma catch_Ok {A : Type} (m : M A) (s : t) (x : A + Error) (s' : t) :
  catch m s = (Ok x, s') ->
  match x with
  | inl a => m s = (Ok a, s')
  | inr e => m s = (Raise e, s')
  end.
Proof.
  unfold catch. destruct (m s) as (o1 & s1). destruct o1; try discriminate;
    intros H; inversion H; subst; reflexivity.
Qed.

Lemma ret_Ok {A : Type} (a b : A) (s s' : t) : ret a s = (Ok b, s') -> a = b /\ s = s'.
Proof. intros H. inversion H. auto. Qed.

(** When [Parser.parse] returns, the steps of its [try] block all
    returned. *)
Lemma Parser_parse_Ok (rec : Parser -> M Result) (fuel : nat) (p : Parser)
    (s : t) (r : Result) (s' : t) :
  Parser_parse rec fuel p s = (Ok r, s') ->
  exists s1 start s2 raw v,
    skip_ignores fuel (Parser_ignores p) s = (Ok tt, s1)
    /\ GetPosition fuel s1 = (Ok start, s2)
    /\ _parse rec fuel p start s2 = (Ok raw, s')
    /\ Parser_transformer p (res_value raw) = Ok v
    /\ r = mkResult (res_position raw) v.
Proof.
  unfold Parser_parse. cbv zeta. intros H.
  apply bind_Ok in H. destruct H as (x & sx & Hc & Hh).
  apply catch_Ok in Hc. destruct x as [result | e].
  - apply ret_Ok in Hh. destruct Hh as (-> & ->).
    apply bind_Ok in Hc. destruct Hc as ([] & s1 & H1 & Hc).
    apply bind_Ok in Hc. destruct Hc as (start & s2 & H2 & Hc).
    apply bind_Ok in Hc. destruct Hc as (raw & s3 & H3 & Hc).
    apply bind_Ok in Hc. destruct Hc as (v & s4 & H4 & Hc).
    apply ret_Ok in Hc. destruct Hc as (<- & <-).
    unfold lift in H4. inversion H4; subst s4.
    exists s1, start, s2, raw, v. auto.
  - apply bind_Ok in Hh. destruct Hh as (pos & s1 & _ & Hr). discriminate.
Qed.


(** The results the loop of [Quantified] returns are results its
    sub-parser returned. *)
Lemma Quantified_loop_results (rec : Parser -> M Result) (fuel : nat) (q : Parser)
    (minimum : Z) (maximum : option Z) :
  forall acc s rs s',
    Quantified_loop rec fuel q minimum maximum acc s = (Ok rs, s') ->
    exists new, rs = acc ++ new
                /\ Forall (fun r => exists s1 s2, rec q s1 = (Ok r, s2)) new.
Proof.
  induction fuel as [|fuel IH]; intros acc s rs s' H; simpl in H.
  - discriminate.
  - destruct (match maximum with None => true | Some m => llen acc <? m end).
    + apply bind_Ok in H. destruct H as (x & s1 & Hc & H).
      apply catch_Ok in Hc. destruct x as [r | e].
      * destruct (IH _ _ _ _ H) as (new & -> & Hall).
        exists (r :: new). split; [rewrite <- app_assoc; reflexivity|].
        constructor; [eauto | exact Hall].
      * destruct (llen acc <? minimum).
        -- apply bind_Ok in H. destruct H as (pos & s2 & _ & H). discriminate.
        -- apply ret_Ok in H. destruct H as (<- & _).
           exists []. rewrite app_nil_r. auto.
    + apply ret_Ok in H. destruct H as (<- & _).
      exists []. rewrite app_nil_r. auto.
Qed.

(** *** More fuel *)

Lemma le_refl {A : Type} (m : M A) : le_m m m.
Proof. intros s o s' H _. exact H. Qed.

Lemma le_timeout {A : Type} (m : M A) : le_m (fun s => (Timeout, s)) m.
Proof. intros s o s' H Hne. inversion H; subst. contradiction. Qed.

Lemma le_bind {A B : Type} (m1 m2 : M A) (k1 k2 : A -> M B) :
  le_m m1 m2 -> (forall a, le_m (k1 a) (k2 a)) -> le_m (bind m1 k1) (bind m2 k2).
Proof.
  intros Hm Hk s o s' H Hne. unfold bind in *.
  destruct (m1 s) as (o1 & s1) eqn:E.
  assert (Hne1 : o1 <> Timeout).
  { intros ->. inversion H; subst. contradiction. }
  rewrite (Hm s o1 s1 E Hne1).
  destruct o1; [apply Hk; assumption | exact H | exact H | exact H].
Qed.

Lemma le_catch {A : Type} (m1 m2 : M A) : le_m m1 m2 -> le_m (catch m1) (catch m2).
Proof.
  intros Hm s o s' H Hne. unfold catch in *.
  destruct (m1 s) as (o1 & s1) eqn:E.
  assert (Hne1 : o1 <> Timeout).
  { intros ->. inversion H; subst. contradiction. }
  rewrite (Hm s o1 s1 E Hne1). exact H.
Qed.

Lemma le_Get (fuel k : nat) : le_m (Get fuel) (Get (fuel + k)).
Proof. intros s o s'. apply Get_mono. Qed.

Lemma le_Peek (fuel k : nat) : le_m (Peek fuel) (Peek (fuel + k)).
Proof. intros s o s'. apply Peek_mono. Qed.

Lemma le_GetPosition (fuel k : nat) : le_m (GetPosition fuel) (GetPosition (fuel + k)).
Proof. intros s o s'. apply GetPosition_mono. Qed.

Lemma le_skip_ignores (fuel k : nat) (ign : list PatternID) :
  le_m (skip_ignores fuel ign) (skip_ignores (fuel + k) ign).
Proof.
  induction fuel as [|fuel IH].
  - apply le_timeout.
  - change (S fuel + k)%nat with (S (fuel + k)). simpl.
    apply le_bind; [apply le_Peek|]. intros tok.
    destruct (str_in (patternID tok) ign); [|apply le_refl].
    apply le_bind; [apply le_Get | intros _; exact IH].
Qed.

Lemma le_Terminal_parse (fuel k : nat) (pid : PatternID) (v : option string) :
  le_m (Terminal_parse fuel pid v) (Terminal_parse (fuel + k) pid v).
Proof.
  unfold Terminal_parse. apply le_bind; [apply le_Get | intros token; apply le_refl].
Qed.

Section MoreFuel.

Variables rec1 rec2 : Parser -> M Result.
Hypothesis rec_le : forall q, le_m (rec1 q) (rec2 q).

Lemma le_Sequence_loop (ps : list Parser) :
  forall results, le_m (Sequence_loop rec1 ps results) (Sequence_loop rec2 ps results).
Proof.
  induction ps as [|p ps IH]; intros results; simpl.
  - apply le_refl.
  - apply le_bind; [apply rec_le | intros r; apply IH].
Qed.

Lemma le_Choice_loop (tag : bool) (ps : list Parser) :
  le_m (Choice_loop rec1 tag ps) (Choice_loop rec2 tag ps).
Proof.
  induction ps as [|p ps IH]; simpl.
  - apply le_refl.
  - apply le_bind; [apply le_catch, rec_le|].
    intros [result | e]; [apply le_refl | exact IH].
Qed.

Lemma le_Quantified_loop (fuel k : nat) (q : Parser) (minimum : Z) (maximum : option Z) :
  forall results,
    le_m (Quantified_loop rec1 fuel q minimum maximum results)
         (Quantified_loop rec2 (fuel + k) q minimum maximum results).
Proof.
  induction fuel as [|fuel IH]; intros results.
  - apply le_timeout.
  - change (S fuel + k)%nat with (S (fuel + k)). simpl.
    destruct (match maximum with None => true | Some m => llen results <? m end);
      [|apply le_refl].
    apply le_bind; [apply le_catch, rec_le|].
    intros [r | e]; [apply IH|].
    destruct (llen results <? minimum); [|apply le_refl].
    apply le_bind; [apply le_GetPosition | intros pos; apply le_refl].
Qed.

Lemma le__parse (fuel k : nat) (p : Parser) (start : Position) :
  le_m (_parse rec1 fuel p start) (_parse rec2 (fuel + k) p start).
Proof.
  destruct p; simpl.
  - apply le_Terminal_parse.
  - apply le_bind; [apply le_Sequence_loop | intros; apply le_refl].
  - apply le_bind; [apply le_Choice_loop | intros; apply le_refl].
  - apply le_bind; [apply le_Quantified_loop | intros; apply le_refl].
  - apply le_bind; [apply le_catch, rec_le | intros; apply le_refl].
  - apply le_refl.
Qed.

Lemma le_Parser_parse (fuel k : nat) (p : Parser) :
  le_m (Parser_parse rec1 fuel p) (Parser_parse rec2 (fuel + k) p).
Proof.
  intros s o s'. unfold Parser_parse. cbv zeta.
  refine (le_bind _ _ _ _ _ _ s o s').
  - apply le_catch.
    apply le_bind; [apply le_skip_ignores | intros _].
    apply le_bind; [apply le_GetPosition | intros start].
    apply le_bind; [apply le__parse | intros result; apply le_refl].
  - intros [result | e]; [apply le_refl|].
    intros s1. revert s1.
    assert (H : le_m (pos <- GetPosition fuel ;;
                      @raise Result (ParserError.Combine
                                       (mkError pos (unable_to_parse p)) e))
                     (pos <- GetPosition (fuel + k) ;;
                      @raise Result (ParserError.Combine
                                       (mkError pos (unable_to_parse p)) e))).
    { apply le_bind; [apply le_GetPosition | intros pos; apply le_refl]. }
    intros s1 o1 s2 H1 Hne. apply H; assumption.
Qed.

End MoreFuel.

(** *** Backtracking *)

Section Backtracking.

Variable table : string -> option Parser.

Lemma parse_S (fuel : nat) (p : Parser) :
  parse table (S fuel) p = parse_body table (parse table fuel) fuel p.
Proof. reflexivity. Qed.

Lemma parse_body_node (rec : Parser -> M Result) (fuel : nat) (p : Parser) :
  (forall n k, p <> Lazy n k) ->
  parse_body table rec fuel p = Parser_parse rec fuel p.
Proof. intros H. destruct p; try reflexivity. exfalso. eapply H. reflexivity. Qed.

(** [parse] keeps the token stream in order, and when it raises
    [Parser.Error] the cursor is back where it was and can be peeked at. *)
Lemma parse_sound (fuel : nat) :
  forall p,
    stable (parse table fuel p)
    /\ forall s e s', ts_inv s -> parse table fuel p s = (Raise e, s') ->
                      GetOffset s' = GetOffset s /\ peekable s'.
Proof.
  induction fuel as [|fuel IH]; intros p.
  - split; [apply stable_timeout | intros s e s' _ H; discriminate].
  - rewrite parse_S.
    assert (Hrec : forall q, stable (parse table fuel q)) by (intros q; apply IH).
    destruct p as [n pid v tr ign | n ps tr ign | n ps tag tr ign
                   | n q mn mx tr ign | n v sp tr ign | n key];
      try (split; [apply stable_Parser_parse; exact Hrec
                  | intros s e s'; apply Parser_parse_raise; exact Hrec]).
    simpl. destruct (table key) as [q|].
    + apply IH.
    + split; [apply stable_lift | intros s e s' _ H; discriminate].
Qed.

Lemma parse_stable (fuel : nat) (p : Parser) : stable (parse table fuel p).
Proof. apply parse_sound. Qed.

(** C1. Whatever the parser node, the grammar table and the token stream
    state (in the invariant every stream is in), if [parse] raises
    [Parser.Error] the cursor of the stream after the failure is the cursor
    before the attempt, whatever was consumed in between. *)
Theorem C1_backtracking_purity (fuel : nat) (p : Parser) (s : t) (e : Error) (s' : t) :
  ts_inv s ->
  parse table fuel p s = (Raise e, s') ->
  GetOffset s' = GetOffset s.
Proof. intros Hi H. apply (proj2 (parse_sound fuel p) s e s' Hi H). Qed.

(** *** More fuel for [parse] *)

Lemma parse_mono (fuel : nat) :
  forall k p, le_m (parse table fuel p) (parse table (fuel + k) p).
Proof.
  induction fuel as [|fuel IH]; intros k p.
  - apply le_timeout.
  - change (S fuel + k)%nat with (S (fuel + k)). rewrite !parse_S.
    destruct p as [n pid v tr ign | n ps tr ign | n ps tag tr ign
                   | n q mn mx tr ign | n v sp tr ign | n key];
      try (apply le_Parser_parse; intros q'; apply IH).
    intros s o s' H Hne. simpl in *.
    destruct (table key) as [q|]; [apply IH; assumption | exact H].
Qed.

Lemma parse_more (fuel fuel' : nat) (p : Parser) (s : t) (o : outcome Result) (s' : t) :
  parse table fuel p s = (o, s') -> o <> Timeout -> (fuel <= fuel')%nat ->
  parse table fuel' p s = (o, s').
Proof.
  intros H Hne Hle. replace fuel' with (fuel + (fuel' - fuel))%nat by lia.
  apply parse_mono; assumption.
Qed.


(** *** Repetition *)




(** The loop of [Quantified] over a run of successes that reaches the
    maximum: it stops there, without another attempt. *)
Lemma Quantified_loop_maximum (q : Parser) (minimum m : Z)
    (s : t) (rs : list Result) (sk : t) :
  repeats table q s rs sk ->
  exists F,
    forall fr fl acc,
      (F <= fr)%nat -> (List.length rs < fl)%nat ->
      llen (acc ++ rs) = m ->
      Quantified_loop (parse table fr) fl q minimum (Some m) acc s = (Ok (acc ++ rs), sk).
Proof.
  intros Hrep. induction Hrep as [s | s r s1 rs s2 f0 Hp Hr IH].
  - exists 0%nat. intros fr fl acc _ Hfl Hm. rewrite app_nil_r in *.
    destruct fl as [|fl]; [simpl in Hfl; lia|]. simpl.
    replace (llen acc <? m) with false by (symmetry; apply Z.ltb_ge; lia).
    reflexivity.
  - destruct IH as (F1 & HF).
    exists (Nat.max f0 F1). intros fr fl acc Hfr Hfl Hm.
    destruct fl as [|fl]; [lia|]. simpl.
    replace (llen acc <? m) with true.
    2:{ symmetry. apply Z.ltb_lt. rewrite llen_app in Hm.
        assert (0 < llen (r :: rs)) by (unfold llen; simpl; lia). lia. }
    unfold bind at 1, catch.
    rewrite (parse_more f0 fr q s (Ok r) s1 Hp) by (try discriminate; lia).
    replace (acc ++ r :: rs) with ((acc ++ [r]) ++ rs)
      by (rewrite <- app_assoc; reflexivity).
    apply HF.
    + lia.
    + simpl in Hfl. lia.
    + rewrite <- app_assoc. exact Hm.
Qed.

(** *** Separated lists *)


Lemma parse_Ok_fuel (fuel : nat) (p : Parser) (s : t) (r : Result) (s' : t) :
  parse table fuel p s = (Ok r, s') ->
  exists fuel', fuel = S fuel'
                /\ parse_body table (parse table fuel') fuel' p s = (Ok r, s').
Proof. destruct fuel as [|fuel']; [discriminate | eauto]. Qed.




Lemma bind_Ok_fwd {A B : Type} (m : M A) (k : A -> M B) (s : t) (a : A) (s1 : t) :
  m s = (Ok a, s1) -> bind m k s = k a s1.
Proof. intros H. unfold bind. rewrite H. reflexivity. Qed.

Lemma bind_Raise_fwd {A B : Type} (m : M A) (k : A -> M B) (s : t) (e : Error) (s1 : t) :
  m s = (Raise e, s1) -> bind m k s = (Raise e, s1).
Proof. intros H. unfold bind. rewrite H. reflexivity. Qed.

Lemma catch_Raise_fwd {A : Type} (m : M A) (s : t) (e : Error) (s1 : t) :
  m s = (Raise e, s1) -> catch m s = (Ok (inr e), s1).
Proof. intros H. unfold catch. rewrite H. reflexivity. Qed.

Lemma catch_Ok_fwd {A : Type} (m : M A) (s : t) (a : A) (s1 : t) :
  m s = (Ok a, s1) -> catch m s = (Ok (inl a), s1).
Proof. intros H. unfold catch. rewrite H. reflexivity. Qed.









End Backtracking.

Lemma ts_inv_ts_ab : ts_inv Examples.ts_ab.
Proof.
  unfold ts_inv. simpl. split; [unfold llen; simpl; lia|].
  split; [discriminate | reflexivity].
Qed.

Lemma pair_eq {A B : Type} (x : A * B) (a : A) (b : B) :
  fst x = a -> snd x = b -> x = (a, b).
Proof. destruct x. simpl. intros -> ->. reflexivity. Qed.

Lemma C1_backtracking_purity_witness :
  ts_inv Examples.ts_ab
  /\ parse Examples.no_table 5 Examples.seq_aa Examples.ts_ab
     = (Raise Examples.error_aa, Examples.ts_ab_failed)
  /\ GetOffset Examples.ts_ab_failed = GetOffset Examples.ts_ab.
Proof.
  assert (H : parse Examples.no_table 5 Examples.seq_aa Examples.ts_ab
              = (Raise Examples.error_aa, Examples.ts_ab_failed)).
  { apply pair_eq; [vm_compute; reflexivity | unfold Examples.ts_ab_failed; reflexivity]. }
  split; [exact ts_inv_ts_ab | split; [exact H|]].
  exact (C1_backtracking_purity Examples.no_table 5 Examples.seq_aa Examples.ts_ab
           Examples.error_aa Examples.ts_ab_failed ts_inv_ts_ab H).
Defined.




(** The empty array: the list of values is empty, and it is not an
    error. *)
Example array_empty :
  fst (parse Examples.no_table 6 Examples.array (Examples.array_stream "[]"))
  = Ok (mkResult (mkPosition 1 1)
          (VList [VResult (mkPosition 1 1) (VStr "[");
                  VResult (mkPosition 1 2) (VList []);
                  VResult (mkPosition 1 2) (VStr "]")])).
Proof. vm_compute. reflexivity. Qed.

(** An array of three values: the commas are consumed and do not appear in
    the list. *)
Example array_three :
  fst (parse Examples.no_table 12 Examples.array (Examples.array_stream "[a, a,a ]"))
  = Ok (mkResult (mkPosition 1 1)
          (VList [VResult (mkPosition 1 1) (VStr "[");
                  VResult (mkPosition 1 2)
                    (VList [VResult (mkPosition 1 2) (VStr "a");
                            VResult (mkPosition 1 5) (VStr "a");
                            VResult (mkPosition 1 7) (VStr "a")]);
                  VResult (mkPosition 1 9) (VStr "]")])).
Proof. vm_compute. reflexivity. Qed.

(** [Quantified] with a minimum of two over one match, then over three. *)
Example quantified_too_few :
  fst (parse Examples.no_table 5 (Quantified "q" Examples.term_a 2 None None [])
             Examples.ts_ab)
  = Raise (ParserError.Combine
             (mkError (mkPosition 1 1) "Unable to parse q")
             (ParserError.Combine
                (ParserError.Expectation "at least 2 'a'" "only 1" (mkPosition 1 2))
                Examples.error_b)).
Proof. vm_compute. reflexivity. Qed.

(** A consequence of the cursor jump of [TokenStream.Get] once the
    end-of-stream token is cached: the first alternative
    below reads up to the end of the text "ab" before it fails; the second
    one, which accepts that text on its own, then loses the token of "b" and
    fails too. *)
Example choice_after_end_of_stream :
  fst (parse Examples.no_table 8 Examples.seq_ab Examples.ts_ab)
  = Ok (mkResult (mkPosition 1 1)
          (VList [VResult (mkPosition 1 1) (VStr "a");
                  VResult (mkPosition 1 2) (VStr "b")]))
  /\ fst (parse Examples.no_table 8 Examples.abc_or_ab Examples.ts_ab)
     = Raise (ParserError.Combine
                (mkError (mkPosition 1 1) "Unable to parse alt")
                (mkError (mkPosition 1 1) "Expected one of [abc, ab]")).
Proof. split; vm_compute; reflexivity. Qed.

End ParserFacts.

(** * Further properties of the source stream *)

Module StringStreamLaws.
Import StringStream StringStreamFacts LexerFacts.

Lemma length_line_ends (a : Z) (lines : list string) :
  List.length (line_ends a lines) = List.length lines.
Proof.
  revert a. induction lines as [|l ls IH]; intros a; cbn [line_ends List.length].
  - reflexivity.
  - rewrite IH. reflexivity.
Qed.

Lemma length_removelast_lines (lines : list string) :
  List.length (removelast lines) = Nat.pred (List.length lines).
Proof.
  induction lines as [|l ls IH]; [reflexivity|].
  destruct ls as [|l' ls']; [reflexivity|].
  change (removelast (l :: l' :: ls')) with (l :: removelast (l' :: ls')).
  cbn [List.length] in *. rewrite IH. reflexivity.
Qed.

Lemma total_len_removelast_lt (lines : list string) :
  Forall (fun l => 0 < len l) lines -> lines <> [] ->
  total_len (removelast lines) < total_len lines.
Proof.
  induction 1 as [|l ls Hl Hls IH]; intros Hne; [contradiction|].
  destruct ls as [|l' ls'].
  - cbn [removelast total_len]. lia.
  - change (removelast (l :: l' :: ls')) with (l :: removelast (l' :: ls')).
    cbn [total_len] in *. assert (l' :: ls' <> []) by discriminate.
    specialize (IH H). lia.
Qed.

(** A list whose neighbours increase increases throughout. *)
Lemma increasing_of_neighbours (L : list Z) :
  (forall k x y, nth_error L k = Some x -> nth_error L (S k) = Some y -> x < y) ->
  forall j i x y, (i < j)%nat ->
    nth_error L i = Some x -> nth_error L j = Some y -> x < y.
Proof.
  intros Hc. induction j as [|j IH]; intros i x y Hij Hx Hy; [lia|].
  destruct (nth_error L j) as [z|] eqn:Ez.
  - pose proof (Hc j z y Ez Hy) as Hzy.
    destruct (Nat.eq_dec i j) as [-> | Hne].
    + rewrite Ez in Hx. inversion Hx; subst. exact Hzy.
    + assert (x < z) by (apply (IH i x z); [lia | assumption | reflexivity]). lia.
  - apply nth_error_None in Ez.
    assert (nth_error L (S j) <> None) by congruence.
    apply nth_error_Some in H. lia.
Qed.

(** The line starts of a fresh stream increase, and the first is 0. *)
Lemma line_starts_increase (s : string) :
  (forall i j x y, (i < j)%nat ->
      nth_error (lineStarts (init s)) i = Some x ->
      nth_error (lineStarts (init s)) j = Some y -> x < y)
  /\ nth_error (lineStarts (init s)) 0 = Some 0.
Proof.
  rewrite lineStarts_init.
  pose proof (readlines_lines_nonempty s) as Hne.
  destruct (removelast_lines _ Hne) as (Hne' & _).
  destruct (line_ends_spec _ Hne' 0) as (_ & Hc).
  split; [|reflexivity].
  intros i j x y Hij Hx Hy.
  exact (increasing_of_neighbours _ Hc j i x y Hij Hx Hy).
Qed.

(** X1. The line starts computed when a stream is built: the first is 0,
    there is one per line of the text (one for the empty text), they increase
    strictly, and each is the offset of a character of the text (or 0 for the
    empty text). *)
Theorem X1_line_starts (s : string) :
  let L := lineStarts (init s) in
  nth_error L 0 = Some 0
  /\ llen L = Z.max 1 (llen (readlines s))
  /\ (forall i j x y, (i < j)%nat ->
        nth_error L i = Some x -> nth_error L j = Some y -> x < y)
  /\ (forall k x, nth_error L k = Some x ->
        0 <= x <= len s /\ (s <> EmptyString -> x < len s)).
Proof.
  intros L. subst L. rewrite lineStarts_init.
  pose proof (readlines_lines_nonempty s) as Hne.
  destruct (removelast_lines _ Hne) as (Hne' & Htot).
  destruct (line_ends_spec _ Hne' 0) as (Hb & Hc).
  split; [reflexivity | split; [|split]].
  - unfold llen. cbn [List.length].
    rewrite length_line_ends, length_removelast_lines.
    destruct (readlines s); cbn [List.length Nat.pred]; lia.
  - intros i j x y Hij Hx Hy.
    exact (increasing_of_neighbours _ Hc j i x y Hij Hx Hy).
  - intros k x Hx. specialize (Hb k x Hx).
    rewrite total_len_readlines in Htot. split; [lia|].
    intros Hs.
    assert (Hl : readlines s <> []).
    { intros E. apply readlines_nil in E. contradiction. }
    pose proof (total_len_removelast_lt _ Hne Hl) as Hlt.
    rewrite total_len_readlines in Hlt. lia.
Qed.

(** X2. For a line and a column that are both at least 1 on a stream over
    the text [s]: a line past the last one is rejected; otherwise the line
    runs from its start to its end (the start of the next line, or the end of
    the text for the last line), [SetPosition] rejects a column more than one
    past the width of the line, and in every other case moves the cursor to
    the start of the line plus the column minus one, without clamping. *)
Theorem X2_SetPosition_positive (s : string) (ss : t) (p : Position) :
  wf s ss -> 1 <= line p -> 1 <= column p ->
  (llen (lineStarts ss) < line p -> SetPosition ss p = Crash (invalid_position p))
  /\ (line p <= llen (lineStarts ss) ->
      exists lineStart lineEnd,
        py_index (lineStarts ss) (line p - 1) = Some lineStart
        /\ (if line p =? llen (lineStarts ss) then Some (len s)
            else py_index (lineStarts ss) (line p)) = Some lineEnd
        /\ 0 <= lineStart <= lineEnd /\ lineEnd <= len s
        /\ SetPosition ss p
           = if column p - 1 >? lineEnd - lineStart then Crash (invalid_position p)
             else Ok (set_pos ss (lineStart + column p - 1))).
Proof.
  intros Hwf Hl Hc. split.
  - intros H. apply SetPosition_invalid. left. lia.
  - intros H. apply (SetPosition_valid s ss p Hwf); lia.
Qed.

Lemma X2_SetPosition_positive_witness :
  wf two_lines (at_ two_lines 0) /\ 1 <= 2 /\ 1 <= 1
  /\ SetPosition (at_ two_lines 0) (mkPosition 2 1) = Ok (at_ two_lines 2).
Proof.
  assert (H1 : wf two_lines (at_ two_lines 0))
    by (apply wf_at; unfold len; simpl; lia).
  assert (H2 : 1 <= 2) by lia.
  assert (H3 : 1 <= 1) by lia.
  split; [exact H1 | split; [exact H2 | split; [exact H3|]]].
  destruct (proj2 (X2_SetPosition_positive two_lines (at_ two_lines 0)
                     (mkPosition 2 1) H1 H2 H3))
    as (lineStart & lineEnd & Hs & He & _ & _ & ->).
  - unfold llen. simpl. lia.
  - vm_compute in Hs. vm_compute in He. inversion Hs; inversion He; subst.
    reflexivity.
Defined.

(** The scan of [GetPosition] over increasing line starts finds the one
    line that holds the offset. *)
Lemma GetPosition_loop_unique (L : list Z) (o : Z) (j : nat) (c : Z) :
  (forall i i' x y, (i < i')%nat ->
      nth_error L i = Some x -> nth_error L i' = Some y -> x < y) ->
  nth_error L j = Some c -> c <= o ->
  (forall y, nth_error L (S j) = Some y -> o < y) ->
  GetPosition_loop L o 0 0 = (Z.of_nat (S j), c).
Proof.
  intros Hinc Hj Hc Hnext.
  destruct (GetPosition_loop L o 0 0) as (ln & c') eqn:E.
  apply GetPosition_loop_spec in E. destruct E as (k & Hln & Hk & H0 & HS & Hn).
  assert (Hjl : (j < List.length L)%nat) by (apply nth_error_Some; congruence).
  assert (Hkj : k = S j).
  { destruct (Nat.lt_trichotomy k (S j)) as [Hlt | [Heq | Hgt]]; [|exact Heq|].
    - exfalso. destruct (nth_error L k) as [x|] eqn:Ex.
      + specialize (Hn x eq_refl).
        destruct (Nat.eq_dec k j) as [-> | Hne].
        * rewrite Hj in Ex. inversion Ex; subst. lia.
        * assert (Hkj' : (k < j)%nat) by lia.
          pose proof (Hinc k j x c Hkj' Ex Hj). lia.
      + apply nth_error_None in Ex. lia.
    - exfalso. destruct k as [|k']; [lia|].
      destruct (HS k' eq_refl) as (Hk' & Hle).
      destruct (nth_error L (S j)) as [y|] eqn:Ey.
      + specialize (Hnext y eq_refl).
        destruct (Nat.eq_dec k' (S j)) as [-> | Hne].
        * rewrite Ey in Hk'. inversion Hk'; subst. lia.
        * assert (Hjk' : (S j < k')%nat) by lia.
          pose proof (Hinc (S j) k' y c' Hjk' Ey Hk'). lia.
      + apply nth_error_None in Ey. lia. }
  subst k. destruct (HS j eq_refl) as (Hj' & _).
  rewrite Hj in Hj'. inversion Hj'; subst. f_equal; lia.
Qed.

(** X3. Position to offset and back.  After [SetPosition] accepted a
    position with a line and a column that are at least 1, [GetPosition]
    returns that same position, except when the cursor landed on the start of
    the next line (the column was one past the end of a line that is not the
    last): then it returns column 1 of the next line. *)
Theorem X3_GetPosition_after_SetPosition (s : string) (ss : t) (p : Position) (ss' : t) :
  wf s ss -> 1 <= line p -> 1 <= column p ->
  SetPosition ss p = Ok ss' ->
  (py_index (lineStarts ss) (line p) <> Some (GetOffset ss') -> GetPosition ss' = p)
  /\ (py_index (lineStarts ss) (line p) = Some (GetOffset ss') ->
      GetPosition ss' = mkPosition (line p + 1) 1).
Proof.
  intros Hwf Hl Hc Hset.
  assert (Hn : line p <= llen (lineStarts ss)).
  { destruct (Z_le_gt_dec (line p) (llen (lineStarts ss))) as [H | H]; [exact H|].
    rewrite SetPosition_invalid in Hset by (left; exact H). discriminate. }
  destruct (SetPosition_valid s ss p Hwf (conj Hl Hn) Hc)
    as (lineStart & lineEnd & Hs & He & Hse & Hes & Heq).
  rewrite Heq in Hset.
  destruct (column p - 1 >? lineEnd - lineStart) eqn:Ew; [discriminate|].
  rewrite Z.gtb_ltb in Ew. apply Z.ltb_ge in Ew.
  inversion Hset; subst ss'. clear Hset Heq.
  destruct Hwf as (Hstr & Hz & HL & Hp).
  destruct (line_starts_increase s) as (Hinc & _).
  rewrite <- HL in Hinc.
  set (k := Z.to_nat (line p - 1)).
  rewrite py_index_nonneg in Hs by lia. fold k in Hs.
  unfold GetPosition, GetOffset. cbn [pos set_pos lineStarts].
  set (o := lineStart + column p - 1).
  destruct (line p =? llen (lineStarts ss)) eqn:En.
  - apply Z.eqb_eq in En.
    assert (Hnone : nth_error (lineStarts ss) (S k) = None).
    { apply nth_error_None. unfold llen in En. lia. }
    assert (Hidx : py_index (lineStarts ss) (line p) = None).
    { rewrite py_index_nonneg by lia. replace (Z.to_nat (line p)) with (S k) by lia.
      exact Hnone. }
    rewrite (GetPosition_loop_unique (lineStarts ss) o k lineStart Hinc Hs).
    + split; [intros _ | rewrite Hidx; discriminate].
      destruct p as [pl pc]. cbn [line column] in *. subst o. f_equal; lia.
    + subst o. lia.
    + intros y Hy. rewrite Hnone in Hy. discriminate.
  - apply Z.eqb_neq in En. rewrite py_index_nonneg in He by lia.
    replace (Z.to_nat (line p)) with (S k) in He by lia.
    assert (Hidx : py_index (lineStarts ss) (line p) = Some lineEnd).
    { rewrite py_index_nonneg by lia. replace (Z.to_nat (line p)) with (S k) by lia.
      exact He. }
    rewrite Hidx. split.
    + intros Hne. assert (o < lineEnd).
      { destruct (Z.eq_dec o lineEnd) as [-> | Hd]; [contradiction Hne; reflexivity|].
        subst o. lia. }
      rewrite (GetPosition_loop_unique (lineStarts ss) o k lineStart Hinc Hs).
      * destruct p as [pl pc]. cbn [line column] in *. subst o. f_equal; lia.
      * subst o. lia.
      * intros y Hy. rewrite He in Hy. inversion Hy; subst. assumption.
    + intros Heq. inversion Heq as [Heq']. 
      rewrite (GetPosition_loop_unique (lineStarts ss) o (S k) lineEnd Hinc He).
      * f_equal; lia.
      * lia.
      * intros y Hy.
        pose proof (Hinc (S k) (S (S k)) lineEnd y (Nat.lt_succ_diag_r _) He Hy). lia.
Qed.

Lemma X3_GetPosition_after_SetPosition_witness :
  wf two_lines (at_ two_lines 0) /\ 1 <= 1 /\ 1 <= 3
  /\ SetPosition (at_ two_lines 0) (mkPosition 1 3) = Ok (at_ two_lines 2)
  /\ GetPosition (at_ two_lines 2) = mkPosition 2 1.
Proof.
  assert (H1 : wf two_lines (at_ two_lines 0))
    by (apply wf_at; unfold len; simpl; lia).
  assert (H2 : 1 <= 1) by lia.
  assert (H3 : 1 <= 3) by lia.
  assert (H4 : SetPosition (at_ two_lines 0) (mkPosition 1 3) = Ok (at_ two_lines 2))
    by reflexivity.
  split; [exact H1 | split; [exact H2 | split; [exact H3 | split; [exact H4|]]]].
  apply (proj2 (X3_GetPosition_after_SetPosition two_lines (at_ two_lines 0)
                  (mkPosition 1 3) (at_ two_lines 2) H1 H2 H3 H4)).
  reflexivity.
Defined.

(** *** Characters *)

Lemma take_all (n : nat) (s : string) : (String.length s <= n)%nat -> take n s = s.
Proof.
  revert s. induction n as [|n IH]; intros s H.
  - destruct s; [reflexivity | simpl in H; lia].
  - destruct s as [|c s]; [reflexivity|]. simpl. rewrite IH; [reflexivity|].
    simpl in H. lia.
Qed.

Lemma drop_split (n : nat) (s : string) :
  drop n s = (take 1 (drop n s) ++ drop (S n) s)%string.
Proof.
  revert s. induction n as [|n IH]; intros s.
  - destruct s; reflexivity.
  - destruct s as [|c s]; [reflexivity|]. exact (IH s).
Qed.

Lemma length_0_empty (s : string) : String.length s = 0%nat -> s = EmptyString.
Proof. destruct s; [reflexivity | discriminate]. Qed.

Lemma PeekRemainder_drop (s : string) (ss : t) :
  wf s ss -> PeekRemainder ss = drop (Z.to_nat (pos ss)) s.
Proof.
  intros (Hs & Hz & _ & Hp). unfold PeekRemainder, read_text, read_count.
  change (-1 <? 0) with true. cbv iota. rewrite Hs.
  apply take_all. rewrite length_drop. unfold len in *. lia.
Qed.

(** X4. [Get] returns the character [Peek] shows.  At the end of the text
    both return the empty string and [Get] leaves the stream as it is;
    elsewhere [Get] returns one character, moves the offset by one, and that
    character followed by what remains afterwards is what remained before. *)
Theorem X4_Get_Peek (s : string) (ss : t) :
  wf s ss ->
  fst (Get ss) = Peek ss
  /\ wf s (snd (Get ss))
  /\ len (PeekRemainder ss) = len s - GetOffset ss
  /\ (IsEOS ss = true ->
      Peek ss = EmptyString /\ PeekRemainder ss = EmptyString /\ snd (Get ss) = ss)
  /\ (IsEOS ss = false ->
      len (Peek ss) = 1
      /\ GetOffset (snd (Get ss)) = GetOffset ss + 1
      /\ PeekRemainder ss = (Peek ss ++ PeekRemainder (snd (Get ss)))%string).
Proof.
  intros Hwf.
  assert (Hwf' : wf s (snd (Get ss))) by (apply (wf_apply_op s ss OpGet Hwf)).
  pose proof (PeekRemainder_drop s ss Hwf) as Hrem.
  pose proof Hwf as (Hs & Hz & _ & Hp).
  assert (Hlen : len (PeekRemainder ss) = len s - GetOffset ss).
  { rewrite Hrem. unfold len, GetOffset. rewrite length_drop. unfold len in Hp. lia. }
  split; [reflexivity | split; [exact Hwf' | split; [exact Hlen | split]]].
  - intros He. unfold IsEOS in He. apply Z.eqb_eq in He. rewrite Hz in He.
    assert (Hr0 : PeekRemainder ss = EmptyString).
    { apply length_0_empty. unfold len in *. lia. }
    assert (Hc : read_count ss 1 = 0).
    { unfold read_count. rewrite Hs. change (1 <? 0) with false. cbv iota.
      unfold GetOffset in He. lia. }
    split; [|split; [exact Hr0|]].
    + unfold Peek, read_text. rewrite Hc. reflexivity.
    + unfold Get. cbn [snd]. rewrite Hc. destruct ss; unfold set_pos; simpl. f_equal. lia.
  - intros He. destruct (LexerFacts.len_Peek s ss Hwf He) as (Hl & Hc).
    split; [exact Hl | split].
    + unfold Get, GetOffset. cbn [snd set_pos pos]. rewrite Hc. reflexivity.
    + rewrite Hrem, (PeekRemainder_drop s _ Hwf').
      unfold Get. cbn [snd set_pos pos]. rewrite Hc.
      replace (Z.to_nat (pos ss + 1)) with (S (Z.to_nat (pos ss))) by lia.
      unfold Peek, read_text. rewrite Hc, Hs. change (Z.to_nat 1) with 1%nat.
      apply drop_split.
Qed.

Lemma X4_Get_Peek_witness :
  wf "ab" (at_ "ab" 1)
  /\ Get (at_ "ab" 1) = ("b", at_ "ab" 2)
  /\ PeekRemainder (at_ "ab" 1) = (Peek (at_ "ab" 1) ++ PeekRemainder (at_ "ab" 2))%string.
Proof.
  assert (H : wf "ab" (at_ "ab" 1)) by (apply wf_at; unfold len; simpl; lia).
  split; [exact H | split; [reflexivity|]].
  destruct (X4_Get_Peek "ab" (at_ "ab" 1) H) as (_ & _ & _ & _ & Hn).
  destruct (Hn eq_refl) as (_ & _ & Hr). exact Hr.
Defined.

Lemma read_over_offset (s : string) (ss : t) (a : Z) :
  wf s ss ->
  (0 <= a -> GetOffset (read_over ss a) = Z.min (GetOffset ss + a) (len s))
  /\ (a < 0 -> GetOffset (read_over ss a) = len s).
Proof.
  intros (Hs & Hz & _ & Hp).
  unfold GetOffset, read_over, read_count. cbn [pos set_pos]. rewrite Hs.
  split; intros Ha.
  - destruct (a <? 0) eqn:E; [apply Z.ltb_lt in E; lia | lia].
  - destruct (a <? 0) eqn:E; [lia | apply Z.ltb_ge in E; lia].
Qed.

Lemma read_over_twice (s : string) (ss : t) (a b : Z) :
  wf s ss -> 0 <= a -> 0 <= b ->
  read_over (read_over ss a) b = read_over ss (a + b).
Proof.
  intros Hwf Ha Hb.
  destruct (read_over_offset s ss a Hwf) as (Hpos & _). specialize (Hpos Ha).
  destruct Hwf as (Hs & Hz & _ & Hp). unfold GetOffset in Hpos.
  unfold read_over at 1 3. unfold read_count.
  change (string_ (read_over ss a)) with (string_ ss). rewrite Hs, Hpos.
  destruct (b <? 0) eqn:Eb; [apply Z.ltb_lt in Eb; lia|].
  destruct (a + b <? 0) eqn:Eab; [apply Z.ltb_lt in Eab; lia|].
  unfold read_over, set_pos. cbn [string_ size lineStarts]. f_equal. lia.
Qed.

(** X5. [Ignore] takes the counts that fit a 64-bit index, from -2^63 to
    2^63 - 1: a count that is not negative moves the offset by that count,
    stopping at the end of the text, and a negative count moves to the end
    of the text.  For any other count [Ignore] raises OverflowError and the
    stream is as it was.  Two [Ignore] in a row of counts that are not
    negative are one [Ignore] of the sum, provided the sum still fits:
    otherwise the two calls return and the single one raises. *)
Theorem X5_Ignore (s : string) (ss : t) (a b : Z) :
  wf s ss ->
  (SSIZE_T_MIN <= a <= SSIZE_T_MAX ->
   exists ss', Ignore ss a = Ok ss' /\ wf s ss'
               /\ (0 <= a -> GetOffset ss' = Z.min (GetOffset ss + a) (len s))
               /\ (a < 0 -> GetOffset ss' = len s))
  /\ (a < SSIZE_T_MIN \/ SSIZE_T_MAX < a -> Ignore ss a = Crash "OverflowError")
  /\ (0 <= a <= SSIZE_T_MAX -> 0 <= b <= SSIZE_T_MAX ->
      exists s1 s2,
        Ignore ss a = Ok s1 /\ Ignore s1 b = Ok s2
        /\ Ignore ss (a + b)
           = if a + b <=? SSIZE_T_MAX then Ok s2 else Crash "OverflowError").
Proof.
  intros Hwf.
  assert (Hfit : forall n, SSIZE_T_MIN <= n <= SSIZE_T_MAX -> fits_ssize_t n = true).
  { intros n (H1 & H2). unfold fits_ssize_t.
    apply andb_true_intro. split; apply Z.leb_le; assumption. }
  assert (Hnot : forall n, n < SSIZE_T_MIN \/ SSIZE_T_MAX < n -> fits_ssize_t n = false).
  { intros n H. unfold fits_ssize_t. apply andb_false_iff.
    destruct H as [H | H]; [left | right]; apply Z.leb_gt; exact H. }
  split; [|split].
  - intros Ha. exists (read_over ss a). unfold Ignore. rewrite (Hfit a Ha).
    split; [reflexivity | split; [apply wf_read_over; exact Hwf|]].
    exact (read_over_offset s ss a Hwf).
  - intros Ha. unfold Ignore. rewrite (Hnot a Ha). reflexivity.
  - intros Ha Hb. exists (read_over ss a), (read_over (read_over ss a) b).
    assert (Hmin : SSIZE_T_MIN <= 0) by (unfold SSIZE_T_MIN; lia).
    unfold Ignore. rewrite (Hfit a), (Hfit b) by lia.
    split; [reflexivity | split; [reflexivity|]].
    destruct (a + b <=? SSIZE_T_MAX) eqn:E.
    + apply Z.leb_le in E. rewrite (Hfit (a + b)) by lia.
      rewrite (read_over_twice s ss a b Hwf) by lia. reflexivity.
    + apply Z.leb_gt in E. rewrite (Hnot (a + b)) by (right; exact E). reflexivity.
Qed.

Lemma X5_Ignore_witness :
  wf "abc" (at_ "abc" 0)
  /\ (exists ss', Ignore (at_ "abc" 0) 5 = Ok ss' /\ GetOffset ss' = 3)
  /\ Ignore (at_ "abc" 0) (SSIZE_T_MAX + 1) = Crash "OverflowError"
  /\ (exists s1 s2, Ignore (at_ "abc" 0) 1 = Ok s1 /\ Ignore s1 1 = Ok s2
                     /\ Ignore (at_ "abc" 0) 2 = Ok s2).
Proof.
  assert (H : wf "abc" (at_ "abc" 0)) by (apply wf_at; unfold len; simpl; lia).
  split; [exact H|].
  destruct (X5_Ignore "abc" (at_ "abc" 0) 5 0 H) as (H5 & _ & _).
  destruct (X5_Ignore "abc" (at_ "abc" 0) (SSIZE_T_MAX + 1) 0 H) as (_ & Hbig & _).
  destruct (X5_Ignore "abc" (at_ "abc" 0) 1 1 H) as (_ & _ & H11).
  split; [|split].
  - destruct H5 as (ss' & E & _ & Ho & _); [unfold SSIZE_T_MIN, SSIZE_T_MAX; lia|].
    exists ss'. split; [exact E|]. rewrite Ho by lia. reflexivity.
  - apply Hbig. right. lia.
  - destruct H11 as (s1 & s2 & E1 & E2 & E3); [unfold SSIZE_T_MAX; lia ..|].
    exists s1, s2. split; [exact E1 | split; [exact E2 | exact E3]].
Defined.

End StringStreamLaws.

(** * Further properties of the lexers *)

Module LexerLaws.
Import Lexer LexerSpec LexerFacts Registration.

(** What [Lex] settles on, case by case. *)
Lemma Lex_select_eos (lx : t) (stream : StringStream.t) :
  StringStream.IsEOS stream = true -> Lex_select lx stream = (patternEOS lx, "").
Proof. intros H. unfold Lex_select. rewrite H. reflexivity. Qed.

Lemma Lex_select_cases (lx : t) (stream : StringStream.t) :
  StringStream.IsEOS stream = false ->
  (exists p m, In p (patterns lx)
               /\ regex p (StringStream.PeekRemainder stream) = Some m
               /\ Lex_select lx stream = (p, m))
  \/ (no_match (patterns lx) (StringStream.PeekRemainder stream)
      /\ Lex_select lx stream = (patternUnknown lx, StringStream.Peek stream)).
Proof.
  intros He. unfold Lex_select. rewrite He.
  pose proof (Lex_loop_all (patterns lx) (StringStream.PeekRemainder stream)) as Hs.
  destruct (Lex_loop (patterns lx) (StringStream.PeekRemainder stream) None "" 0)
    as ((mp & mv) & g).
  destruct mp as [p|]; simpl in Hs.
  - left. destruct Hs as (_ & i & Hn & Hm & _).
    exists p, mv. split; [eapply nth_error_In; exact Hn | split; [exact Hm | reflexivity]].
  - right. split; [exact Hs | reflexivity].
Qed.

Lemma Ignore_offset (s : string) (ss : StringStream.t) (a : Z) :
  StringStream.wf s ss -> 0 <= a ->
  StringStream.GetOffset (StringStream.read_over ss a)
  = Z.min (StringStream.GetOffset ss + a) (len s).
Proof.
  intros (Hs & Hz & _ & Hp) Ha.
  unfold StringStream.GetOffset, StringStream.read_over, StringStream.read_count.
  cbn [StringStream.pos StringStream.set_pos]. rewrite Hs.
  destruct (a <? 0) eqn:E; [apply Z.ltb_lt in E; lia | lia].
Qed.

Lemma len_pos_of_nonempty (m : string) : m <> EmptyString -> 1 <= len m.
Proof. destruct m; [contradiction | intros _; unfold len; cbn [String.length]; lia]. Qed.

(** The stream after [Lex]: well formed, not before where it was, and
    further on when what was matched is not empty. *)
Lemma Lex_stream (s : string) (lx : t) (stream : StringStream.t) :
  StringStream.wf s stream ->
  StringStream.wf s (snd (Lex lx stream))
  /\ StringStream.GetOffset stream <= StringStream.GetOffset (snd (Lex lx stream))
  /\ (StringStream.IsEOS stream = false ->
      snd (Lex_select lx stream) <> EmptyString ->
      StringStream.GetOffset stream < StringStream.GetOffset (snd (Lex lx stream))).
Proof.
  intros Hwf. rewrite Lex_eq. cbn [snd].
  set (m := snd (Lex_select lx stream)).
  pose proof (StringStreamFacts.len_nonneg m) as Hm.
  pose proof (Ignore_offset s stream (len m) Hwf Hm) as Ho.
  split; [apply (StringStreamFacts.wf_read_over s stream (len m) Hwf)|].
  destruct Hwf as (_ & Hz & _ & Hp). unfold StringStream.GetOffset in *.
  split; [lia|].
  intros He Hne. apply len_pos_of_nonempty in Hne.
  unfold StringStream.IsEOS, StringStream.GetOffset in He. apply Z.eqb_neq in He. lia.
Qed.

(** X6. [Lex] on a stream over the text [s]: the stream stays within the
    text and never moves back, and the token carries the position the stream
    had.  At the end of the text [Lex] returns the end-of-stream token and
    leaves the stream as it is.  Elsewhere, if no registered pattern matches
    the empty text at that place, [Lex] moves the stream forward by at least
    one character, whichever token it returns. *)
Theorem X6_Lex_progress (s : string) (lx : t) (stream : StringStream.t) :
  StringStream.wf s stream ->
  StringStream.wf s (snd (Lex lx stream))
  /\ position (fst (Lex lx stream)) = StringStream.GetPosition stream
  /\ StringStream.GetOffset stream <= StringStream.GetOffset (snd (Lex lx stream))
  /\ (StringStream.IsEOS stream = true ->
      Lex lx stream
      = (mkToken (id (patternEOS lx)) (StringStream.GetPosition stream)
                 (apply_action (action (patternEOS lx)) ""), stream))
  /\ (StringStream.IsEOS stream = false ->
      (forall p, In p (patterns lx) ->
                 regex p (StringStream.PeekRemainder stream) <> Some EmptyString) ->
      StringStream.GetOffset stream < StringStream.GetOffset (snd (Lex lx stream))).
Proof.
  intros Hwf. destruct (Lex_stream s lx stream Hwf) as (Hw & Hle & Hlt).
  split; [exact Hw | split; [rewrite Lex_eq; reflexivity | split; [exact Hle | split]]].
  - intros He. rewrite Lex_eq, (Lex_select_eos lx stream He). cbn [fst snd].
    rewrite Ignore_nothing. reflexivity.
  - intros He Hno. apply (Hlt He).
    destruct (Lex_select_cases lx stream He) as [(p & m & Hin & Hm & ->) | (_ & ->)];
      cbn [snd].
    + intros ->. apply (Hno p Hin). exact Hm.
    + intros Hp. destruct (len_Peek s stream Hwf He) as (Hl & _).
      rewrite Hp in Hl. discriminate.
Qed.

Lemma X6_Lex_progress_witness :
  StringStream.wf "xabc" (StringStream.at_ "xabc" 1)
  /\ StringStream.GetOffset (StringStream.at_ "xabc" 1)
     < StringStream.GetOffset
         (snd (Lex (Examples.lexer_of [Examples.pat_a; Examples.pat_ab])
                   (StringStream.at_ "xabc" 1))).
Proof.
  assert (H : StringStream.wf "xabc" (StringStream.at_ "xabc" 1))
    by (apply StringStreamFacts.wf_at; unfold len; simpl; lia).
  split; [exact H|].
  destruct (X6_Lex_progress "xabc"
              (Examples.lexer_of [Examples.pat_a; Examples.pat_ab])
              (StringStream.at_ "xabc" 1) H) as (_ & _ & _ & _ & Hp).
  apply Hp; [reflexivity|].
  intros p [<- | [<- | []]]; discriminate.
Defined.

(** One successful [AddPattern]. *)
Lemma AddPattern_cases (rc : string -> option Regex) (lx : t)
    (rg : string) (a : Action) (i : option PatternID) :
  let pid := id_of (List.length (patterns lx)) (rg, a, i) in
  (In pid (map id (patterns lx))
   /\ AddPattern rc lx rg a i = Crash (already_exists pid))
  \/ (~ In pid (map id (patterns lx)) /\ rc ("^(" ++ rg ++ ")")%string = None
      /\ AddPattern rc lx rg a i = Crash "re.error")
  \/ (~ In pid (map id (patterns lx))
      /\ exists r, rc ("^(" ++ rg ++ ")")%string = Some r
         /\ AddPattern rc lx rg a i
            = Ok (pid, {| patternEOS := patternEOS lx;
                          patternUnknown := patternUnknown lx;
                          patterns := patterns lx ++ [mkPattern pid r a] |})).
Proof.
  intros pid. unfold AddPattern.
  change (match i with
          | Some i0 => i0
          | None => CreatePatternIDFromIdx (llen (patterns lx))
          end) with pid.
  destruct (str_in pid (map id (patterns lx))) eqn:E.
  - left. apply str_in_In in E. split; [exact E | reflexivity].
  - right.
    assert (Hn : ~ In pid (map id (patterns lx))).
    { intros H. apply str_in_In in H. rewrite H in E. discriminate. }
    destruct (rc ("^(" ++ rg ++ ")")%string) as [r|] eqn:Er.
    + right. split; [exact Hn|]. exists r. split; [reflexivity|].
      rewrite py_last_snoc. reflexivity.
    + left. split; [exact Hn | split; reflexivity].
Qed.

Lemma NoDup_snoc {A : Type} (l : list A) (x : A) :
  NoDup (l ++ [x]) <-> NoDup l /\ ~ In x l.
Proof.
  split.
  - intros H. apply NoDup_remove in H. rewrite app_nil_r in H. exact H.
  - intros (H & Hx).
    apply NoDup_app;
      [exact H | repeat constructor; intros [] | intros y Hy [<- | []]; exact (Hx Hy)].
Qed.

Lemma NoDup_map_injective {A B : Type} (f : A -> B) (l : list A) :
  (forall x y, f x = f y -> x = y) -> NoDup l -> NoDup (map f l).
Proof.
  intros Hf. induction 1 as [|x l Hx _ IH]; cbn [map]; constructor; [|exact IH].
  intros H. apply in_map_iff in H. destruct H as (y & E & Hy).
  apply Hf in E. subst y. exact (Hx Hy).
Qed.

(** When a run of [AddPattern] calls succeeds, from any lexer. *)
Lemma add_all_succeeds (rc : string -> option Regex) (reqs : list request) :
  forall lx, NoDup (map id (patterns lx)) ->
    (exists lx', add_all rc lx reqs = Ok lx')
    <-> (Forall (compiles rc) reqs
         /\ NoDup (map id (patterns lx) ++ ids (List.length (patterns lx)) reqs)).
Proof.
  induction reqs as [|((rg & a) & i) rest IH]; intros lx Hnd.
  - cbn [add_all ids]. rewrite app_nil_r. split.
    + intros _. split; [constructor | exact Hnd].
    + intros _. exists lx. reflexivity.
  - cbn [add_all ids].
    destruct (AddPattern_cases rc lx rg a i) as [(Hin & E) | [(Hn & Er & E) | (Hn & r & Er & E)]];
      rewrite E.
    + split; [intros (lx' & H); discriminate|].
      intros (_ & H). exfalso. apply NoDup_remove_2 in H. apply H.
      apply in_or_app. left. exact Hin.
    + split; [intros (lx' & H); discriminate|].
      intros (H & _). exfalso. inversion H as [|x l Hc _]; subst.
      apply Hc. exact Er.
    + set (pid := id_of (List.length (patterns lx)) (rg, a, i)) in *.
      set (lx1 := {| patternEOS := patternEOS lx; patternUnknown := patternUnknown lx;
                     patterns := patterns lx ++ [mkPattern pid r a] |}).
      assert (Hnd1 : NoDup (map id (patterns lx1))).
      { cbn [patterns lx1]. rewrite map_app. cbn [map id]. apply NoDup_snoc.
        split; assumption. }
      rewrite (IH lx1 Hnd1). cbn [patterns lx1].
      rewrite map_app, length_app. cbn [map id List.length].
      rewrite <- app_assoc. cbn [app].
      replace (List.length (patterns lx) + 1)%nat with (S (List.length (patterns lx))) by lia.
      split.
      * intros (Hf & H). split; [|exact H].
        constructor; [|exact Hf]. unfold compiles. cbn [fst]. rewrite Er. discriminate.
      * intros (Hf & H). split; [|exact H]. inversion Hf; assumption.
Qed.

(** What a successful run of [AddPattern] calls leaves in the lexer. *)
Lemma add_all_result (rc : string -> option Regex) (reqs : list request) :
  forall lx lx', add_all rc lx reqs = Ok lx' ->
    map id (patterns lx') = map id (patterns lx) ++ ids (List.length (patterns lx)) reqs
    /\ map action (patterns lx')
       = map action (patterns lx) ++ map (fun r => snd (fst r)) reqs
    /\ patternEOS lx' = patternEOS lx
    /\ patternUnknown lx' = patternUnknown lx.
Proof.
  induction reqs as [|((rg & a) & i) rest IH]; intros lx lx' H.
  - cbn [add_all] in H. injection H as <-. cbn [ids map]. rewrite !app_nil_r. auto.
  - cbn [add_all] in H.
    destruct (AddPattern_cases rc lx rg a i) as [(Hin & E) | [(Hn & Er & E) | (Hn & r & Er & E)]];
      rewrite E in H; try discriminate.
    apply IH in H. cbn [patterns patternEOS patternUnknown] in H.
    destruct H as (Hi & Ha & He & Hu).
    rewrite map_app, length_app in Hi. rewrite map_app in Ha.
    cbn [map id action List.length] in Hi, Ha.
    rewrite <- app_assoc in Hi, Ha. cbn [app] in Hi, Ha.
    replace (List.length (patterns lx) + 1)%nat with (S (List.length (patterns lx))) in Hi by lia.
    cbn [ids map fst snd]. auto.
Qed.

(** X7. A run of [AddPattern] calls on a new lexer goes through exactly when
    every expression compiles and the ids asked for (a given id, or the one
    made from the number of patterns registered so far) are pairwise
    distinct; otherwise one of the calls raises. *)
Theorem X7_AddPattern_run_succeeds (rc : string -> option Regex)
    (onEOS onUnknown : Action) (reqs : list request) :
  (exists lx, add_all rc (init onEOS onUnknown) reqs = Ok lx)
  <-> (Forall (compiles rc) reqs /\ NoDup (ids 0 reqs)).
Proof.
  apply (add_all_succeeds rc reqs (init onEOS onUnknown)). constructor.
Qed.

(** X8. After a run of [AddPattern] calls on a new lexer, the registered
    patterns are the requested ones in the order of the calls: the same ids,
    the same actions, and no two patterns share an id.  The end-of-stream
    and unknown patterns are the ones the lexer was made with. *)
Theorem X8_AddPattern_run_result (rc : string -> option Regex)
    (onEOS onUnknown : Action) (reqs : list request) (lx : t) :
  add_all rc (init onEOS onUnknown) reqs = Ok lx ->
  map id (patterns lx) = ids 0 reqs
  /\ map action (patterns lx) = map (fun r => snd (fst r)) reqs
  /\ NoDup (map id (patterns lx))
  /\ patternEOS lx = patternEOS (init onEOS onUnknown)
  /\ patternUnknown lx = patternUnknown (init onEOS onUnknown).
Proof.
  intros H.
  destruct (add_all_result rc reqs _ _ H) as (Hi & Ha & He & Hu).
  cbn [init patterns map app List.length] in Hi, Ha.
  split; [exact Hi | split; [exact Ha | split; [| split; assumption]]].
  rewrite Hi.
  apply (proj1 (add_all_succeeds rc reqs (init onEOS onUnknown) (NoDup_nil _))).
  exists lx. exact H.
Qed.

Lemma X8_AddPattern_run_result_witness :
  exists lx,
    add_all Examples.compile_literal (init None None)
      [("a", None, None); ("b", None, Some "B")] = Ok lx
    /\ map id (patterns lx) = ["<Pattern: 0>"; "B"].
Proof.
  eexists. split; [reflexivity|].
  apply (X8_AddPattern_run_result Examples.compile_literal None None
           [("a", None, None); ("b", None, Some "B")]).
  reflexivity.
Defined.

Lemma string_app_length (a b : string) :
  String.length (a ++ b) = (String.length a + String.length b)%nat.
Proof. induction a as [|c a IH]; cbn [append String.length]; [reflexivity | rewrite IH; reflexivity]. Qed.

Lemma string_app_cancel_r (t a b : string) : (a ++ t = b ++ t)%string -> a = b.
Proof.
  intros H.
  assert (Hl : String.length a = String.length b).
  { apply (f_equal String.length) in H. rewrite !string_app_length in H. lia. }
  revert b H Hl. induction a as [|c a IH]; intros [|d b] H Hl; try discriminate.
  - reflexivity.
  - cbn [append] in H. injection H as -> H. f_equal.
    apply IH; [exact H | cbn [String.length] in Hl; lia].
Qed.

Lemma str_of_int_inj (n m : Z) : str_of_int n = str_of_int m -> n = m.
Proof.
  unfold str_of_int. intros H. apply to_int_inj.
  assert (K : forall z, Z.to_int z <> Decimal.Pos Decimal.Nil
                        /\ Z.to_int z <> Decimal.Neg Decimal.Nil).
  { intros [|p|p]; simpl; split; try discriminate; intros E; injection E as E;
      apply (Unsigned.to_uint_nonnil p); exact E. }
  pose proof (NilZero.isi (Z.to_int n) (proj1 (K n)) (proj2 (K n))) as A.
  pose proof (NilZero.isi (Z.to_int m) (proj1 (K m)) (proj2 (K m))) as B.
  rewrite H in A. rewrite A in B. injection B as B. exact B.
Qed.

Lemma CreatePatternIDFromIdx_inj (n m : Z) :
  CreatePatternIDFromIdx n = CreatePatternIDFromIdx m -> n = m.
Proof.
  unfold CreatePatternIDFromIdx. intros H.
  cbn [append] in H. injection H as H.
  apply string_app_cancel_r in H. apply str_of_int_inj. exact H.
Qed.

Lemma ids_default (reqs : list request) :
  (forall r, In r reqs -> snd r = None) ->
  forall i, ids i reqs
            = map (fun k => CreatePatternIDFromIdx (Z.of_nat k)) (seq i (List.length reqs)).
Proof.
  induction reqs as [|r rest IH]; intros Hd i; [reflexivity|].
  cbn [ids List.length seq map]. f_equal.
  - unfold id_of. rewrite (Hd r (or_introl eq_refl)). reflexivity.
  - apply IH. intros r' Hr'. apply Hd. right. exact Hr'.
Qed.

(** X9. When no call gives an id, the ids made from the pattern count never
    collide: a run of [AddPattern] calls on a new lexer whose expressions
    compile goes through, and the k-th pattern gets the id
    ["<Pattern: k>"], counting from 0. *)
Theorem X9_default_ids_never_collide (rc : string -> option Regex)
    (onEOS onUnknown : Action) (reqs : list request) :
  (forall r, In r reqs -> snd r = None) ->
  Forall (compiles rc) reqs ->
  exists lx, add_all rc (init onEOS onUnknown) reqs = Ok lx
             /\ map id (patterns lx)
                = map (fun k => CreatePatternIDFromIdx (Z.of_nat k))
                      (seq 0 (List.length reqs)).
Proof.
  intros Hd Hc.
  assert (Hnd : NoDup (ids 0 reqs)).
  { rewrite (ids_default reqs Hd 0). apply NoDup_map_injective; [|apply seq_NoDup].
    intros x y E. apply CreatePatternIDFromIdx_inj in E. lia. }
  destruct (proj2 (add_all_succeeds rc reqs (init onEOS onUnknown) (NoDup_nil _)))
    as (lx & H); [split; assumption|].
  exists lx. split; [exact H|].
  destruct (add_all_result rc reqs _ _ H) as (Hi & _).
  cbn [init patterns map app List.length] in Hi. rewrite Hi.
  apply ids_default. exact Hd.
Qed.

Lemma X9_default_ids_never_collide_witness :
  exists lx,
    add_all Examples.compile_literal (init None None)
      [("a", None, None); ("b", None, None)] = Ok lx
    /\ map id (patterns lx) = ["<Pattern: 0>"; "<Pattern: 1>"].
Proof.
  apply (X9_default_ids_never_collide Examples.compile_literal None None
           [("a", None, None); ("b", None, None)]).
  - intros r [<- | [<- | []]]; reflexivity.
  - repeat constructor; discriminate.
Defined.

End LexerLaws.

(** * The lexer of the parser generator *)

Module GeneratorLaws.
Import Generator.

Lemma generator_AddPattern_cases (rc : string -> option Regex) (lx : t)
    (rg : string) (a : Action) :
  (rc ("^" ++ rg)%string = None /\ AddPattern rc lx rg a = Crash "re.error")
  \/ (exists r, rc ("^" ++ rg)%string = Some r
       /\ AddPattern rc lx rg a
          = Ok (llen (patterns lx) + 2,
                {| patternEOS := patternEOS lx;
                   patternUnknown := patternUnknown lx;
                   patterns := patterns lx
                               ++ [mkPattern (llen (patterns lx) + 2) r a] |})).
Proof.
  unfold AddPattern. destruct (rc ("^" ++ rg)%string) as [r|].
  - right. exists r. split; [reflexivity|]. rewrite py_last_snoc. reflexivity.
  - left. split; reflexivity.
Qed.

Lemma generator_add_all_succeeds (rc : string -> option Regex) (reqs : list (string * Action)) :
  forall lx,
    (exists lx', add_all rc lx reqs = Ok lx')
    <-> Forall (fun r => rc ("^" ++ fst r)%string <> None) reqs.
Proof.
  induction reqs as [|(rg & a) rest IH]; intros lx; cbn [add_all].
  - split; [constructor | intros _; exists lx; reflexivity].
  - destruct (generator_AddPattern_cases rc lx rg a) as [(Er & E) | (r & Er & E)]; rewrite E.
    + split; [intros (lx' & H); discriminate|].
      intros H. inversion H as [|x l Hc _]; subst. exfalso. apply Hc. exact Er.
    + rewrite IH. split.
      * intros H. constructor; [cbn [fst]; rewrite Er; discriminate | exact H].
      * intros H. inversion H; assumption.
Qed.

Lemma generator_add_all_result (rc : string -> option Regex) (reqs : list (string * Action)) :
  forall lx lx', add_all rc lx reqs = Ok lx' ->
    map id (patterns lx')
    = map id (patterns lx) ++ ids_from (llen (patterns lx) + 2) (List.length reqs)
    /\ map action (patterns lx') = map action (patterns lx) ++ map snd reqs
    /\ patternEOS lx' = patternEOS lx
    /\ patternUnknown lx' = patternUnknown lx.
Proof.
  induction reqs as [|(rg & a) rest IH]; intros lx lx' H; cbn [add_all] in H.
  - injection H as <-. cbn [ids_from List.length map]. rewrite !app_nil_r. auto.
  - destruct (generator_AddPattern_cases rc lx rg a) as [(Er & E) | (r & Er & E)];
      rewrite E in H; [discriminate|].
    apply IH in H. cbn [patterns patternEOS patternUnknown] in H.
    destruct H as (Hi & Ha & He & Hu).
    rewrite map_app, llen_app in Hi. rewrite map_app in Ha.
    cbn [map id action] in Hi, Ha.
    rewrite <- app_assoc in Hi, Ha. cbn [app] in Hi, Ha.
    change (llen [mkPattern (llen (patterns lx) + 2) r a]) with 1 in Hi.
    replace (llen (patterns lx) + 1 + 2) with (llen (patterns lx) + 2 + 1) in Hi by lia.
    cbn [ids_from List.length map snd]. auto.
Qed.

Lemma ids_from_range (n : nat) :
  forall first x, In x (ids_from first n) -> first <= x < first + Z.of_nat n.
Proof.
  induction n as [|n IH]; intros first x H; cbn [ids_from] in H; [destruct H|].
  destruct H as [<- | H]; [lia|]. apply IH in H. lia.
Qed.

Lemma ids_from_NoDup (n : nat) : forall first, NoDup (ids_from first n).
Proof.
  induction n as [|n IH]; intros first; cbn [ids_from]; constructor; [|apply IH].
  intros H. apply ids_from_range in H. lia.
Qed.

(** X10. The lexer of the parser generator numbers its patterns itself: a
    run of [AddPattern] calls on a new lexer goes through exactly when every
    expression compiles, and then the patterns carry the ids 2, 3, ... in
    the order of the calls, with the actions given.  No registered pattern
    has the end-of-stream id 0 or the unknown id 1, and no two share an
    id. *)
Theorem X10_generator_ids (rc : string -> option Regex)
    (onEOS onUnknown : Action) (reqs : list (string * Action)) :
  ((exists lx, add_all rc (init onEOS onUnknown) reqs = Ok lx)
   <-> Forall (fun r => rc ("^" ++ fst r)%string <> None) reqs)
  /\ (forall lx, add_all rc (init onEOS onUnknown) reqs = Ok lx ->
        map id (patterns lx) = ids_from 2 (List.length reqs)
        /\ map action (patterns lx) = map snd reqs
        /\ ~ In EOS_PATTERN_ID (map id (patterns lx))
        /\ ~ In UNKNOWN_PATTERN_ID (map id (patterns lx))
        /\ NoDup (map id (patterns lx))).
Proof.
  split; [apply generator_add_all_succeeds|].
  intros lx H. destruct (generator_add_all_result rc reqs _ _ H) as (Hi & Ha & _).
  cbn [init patterns map app] in Hi, Ha. change (llen [] + 2) with 2 in Hi.
  rewrite Hi. split; [reflexivity | split; [exact Ha|]].
  unfold EOS_PATTERN_ID, UNKNOWN_PATTERN_ID.
  split; [|split; [|apply ids_from_NoDup]];
    intros K; apply ids_from_range in K; lia.
Qed.

End GeneratorLaws.

(** * Further properties of the token stream *)

Module TokenStreamLaws.
Import TokenStream TokenStreamSpec TokenStreamFacts.

Lemma Lex_at_end_of_text (lx : Lexer.t) (ss : StringStream.t) :
  StringStream.IsEOS ss = true ->
  patternID (fst (Lexer.Lex lx ss)) = id (Lexer.patternEOS lx)
  /\ snd (Lexer.Lex lx ss) = ss.
Proof.
  intros He. rewrite LexerFacts.Lex_eq, (LexerLaws.Lex_select_eos lx ss He).
  cbn [fst snd patternID]. split; [reflexivity | apply LexerFacts.Ignore_nothing].
Qed.

Lemma Lex_moves (s : string) (lx : Lexer.t) (ss : StringStream.t) :
  StringStream.wf s ss ->
  (forall p str, In p (Lexer.patterns lx) -> regex p str <> Some EmptyString) ->
  StringStream.IsEOS ss = false ->
  StringStream.pos ss < StringStream.pos (snd (Lexer.Lex lx ss)).
Proof.
  intros Hwf Hno He.
  destruct (LexerLaws.Lex_stream s lx ss Hwf) as (_ & _ & Hlt).
  apply (Hlt He).
  destruct (LexerLaws.Lex_select_cases lx ss He) as [(p & m & Hin & Hm & ->) | (_ & ->)];
    cbn [snd].
  - intros ->. apply (Hno p _ Hin Hm).
  - intros Hp. destruct (LexerFacts.len_Peek s ss Hwf He) as (Hl & _).
    rewrite Hp in Hl. discriminate.
Qed.

Lemma IsEOS_snoc (toks : list Token) (tok : Token) (ts : t) :
  tokens ts = toks ++ [tok] ->
  IsEOS ts = String.eqb (patternID tok) Lexer.EOS_PATTERN_ID.
Proof.
  intros H. unfold IsEOS. rewrite H, py_last_snoc, llen_app.
  pose proof (llen_nonneg toks) as Hn. change (llen [tok]) with 1.
  destruct (llen toks + 1 =? 0) eqn:E; [apply Z.eqb_eq in E; lia | reflexivity].
Qed.

(** [Get] returns within a number of rounds bounded by what is left of the
    text and of the cache. *)
Lemma Get_returns_within (s : string) (lx : Lexer.t) :
  id (Lexer.patternEOS lx) = Lexer.EOS_PATTERN_ID ->
  (forall p str, In p (Lexer.patterns lx) -> regex p str <> Some EmptyString) ->
  forall n ts,
    lexer ts = lx -> ts_inv ts -> StringStream.wf s (stream ts) ->
    (len s - StringStream.pos (stream ts)) + (llen (tokens ts) - offset ts)
    <= Z.of_nat n ->
    exists tok ts', Get (S (S n)) ts = (Ok tok, ts').
Proof.
  intros Hid Hno. induction n as [|n IH]; intros ts Hlx Hinv Hwf Hm.
  all: destruct (IsEOS ts) eqn:He;
    [ destruct Hinv as ((H0 & H1) & H2 & H3);
      match goal with
      | |- exists _ _, Get (S (S ?k)) _ = _ =>
          destruct (Get_at_eos k ts (conj H0 (H2 He)) He H3) as (tok & Hg); eauto
      end |].
  all: pose proof Hwf as (_ & _ & _ & Hpos).
  all: destruct (fill_cases ts Hinv) as [(Hf & Hlt) | (Hf & Heq & _)].
  all: rewrite Get_S, Hf.
  - lia.
  - (* the text is exhausted and so is the cache: one more token, the last *)
    assert (Hend : StringStream.IsEOS (stream ts) = true).
    { unfold StringStream.IsEOS, StringStream.GetOffset.
      destruct Hwf as (_ & Hz & _ & _). rewrite Hz. apply Z.eqb_eq. lia. }
    destruct (Lex_at_end_of_text lx (stream ts) Hend) as (Hp & _).
    rewrite lex_one_offset, lex_one_tokens, Heq, py_index_snoc, Hlx. cbv zeta.
    rewrite (IsEOS_snoc (tokens ts) _ (lex_one ts)) by (rewrite lex_one_tokens, Hlx; reflexivity).
    rewrite Hp, Hid, String.eqb_refl.
    change (ignores (set_offset (lex_one ts) _)) with (ignores (lex_one ts)).
    rewrite lex_one_ignores. destruct Hinv as (_ & _ & H3). rewrite H3. eauto.
  - destruct Hinv as ((H0 & H1) & H2 & H3).
    destruct (py_index_in_range (tokens ts) (offset ts) (conj H0 Hlt)) as (tok & Ht).
    rewrite Ht, He. cbv zeta.
    change (ignores (set_offset ts (offset ts + 1))) with (ignores ts).
    destruct (str_in (patternID tok) (ignores ts)); [|eauto].
    apply IH.
    + exact Hlx.
    + replace (offset ts + 1)
        with (if IsEOS ts then llen (tokens ts) - 1 else offset ts + 1)
        by (rewrite He; reflexivity).
      apply inv_advance; [lia | exact H3].
    + exact Hwf.
    + cbn [set_offset stream tokens offset]. lia.
  - set (tok := fst (Lexer.Lex (lexer ts) (stream ts))).
    rewrite lex_one_offset, lex_one_tokens, Heq, py_index_snoc. cbv zeta.
    rewrite (IsEOS_snoc (tokens ts) tok (lex_one ts)) by apply lex_one_tokens.
    change (ignores (set_offset (lex_one ts) _)) with (ignores (lex_one ts)).
    rewrite lex_one_ignores. fold tok.
    destruct (str_in (patternID tok) (ignores ts)) eqn:Ei; [|eauto].
    destruct (String.eqb (patternID tok) Lexer.EOS_PATTERN_ID) eqn:Ee.
    { apply String.eqb_eq in Ee. rewrite Ee in Ei.
      destruct Hinv as (_ & _ & H3). rewrite H3 in Ei. discriminate. }
    assert (Hnend : StringStream.IsEOS (stream ts) = false).
    { destruct (StringStream.IsEOS (stream ts)) eqn:En; [|reflexivity].
      destruct (Lex_at_end_of_text (lexer ts) (stream ts) En) as (Hp & _).
      fold tok in Hp. rewrite Hlx, Hid in Hp. rewrite Hp, String.eqb_refl in Ee.
      discriminate. }
    pose proof (Lex_moves s (lexer ts) (stream ts) Hwf
                  ltac:(rewrite Hlx; exact Hno) Hnend) as Hmv.
    destruct (LexerLaws.Lex_stream s (lexer ts) (stream ts) Hwf) as (Hwf' & _).
    assert (Hst : stream (lex_one ts) = snd (Lexer.Lex (lexer ts) (stream ts))).
    { unfold lex_one. destruct (Lexer.Lex (lexer ts) (stream ts)); reflexivity. }
    assert (Hlx' : lexer (lex_one ts) = lexer ts).
    { unfold lex_one. destruct (Lexer.Lex (lexer ts) (stream ts)); reflexivity. }
    apply IH.
    + cbn [set_offset lexer]. rewrite Hlx'. exact Hlx.
    + replace (llen (tokens ts) + 1)
        with (if IsEOS (lex_one ts) then llen (tokens (lex_one ts)) - 1
              else offset (lex_one ts) + 1).
      * apply (inv_advance (lex_one ts)).
        -- rewrite lex_one_offset, lex_one_tokens, llen_app. change (llen [_]) with 1.
           destruct Hinv as ((? & ?) & _). lia.
        -- rewrite lex_one_ignores. destruct Hinv as (_ & _ & H3). exact H3.
      * rewrite (IsEOS_snoc (tokens ts) tok (lex_one ts)) by apply lex_one_tokens.
        fold tok. rewrite Ee, lex_one_offset, Heq. reflexivity.
    + cbn [set_offset stream]. rewrite Hst. exact Hwf'.
    + cbn [set_offset stream tokens offset]. rewrite Hst, lex_one_tokens, llen_app.
      change (llen [_]) with 1. lia.
Qed.

(** X11. [Get] returns.  On a token stream whose lexer has the end-of-stream
    pattern of [Lexer.__init__] and no registered pattern that can match the
    empty text, [Get] returns a token after finitely many rounds, from every
    state the stream goes through; so does [Peek], with the same token. *)
Theorem X11_Get_returns (s : string) (ts : t) :
  ts_inv ts ->
  StringStream.wf s (stream ts) ->
  id (Lexer.patternEOS (lexer ts)) = Lexer.EOS_PATTERN_ID ->
  (forall p str, In p (Lexer.patterns (lexer ts)) -> regex p str <> Some EmptyString) ->
  exists F tok ts',
    forall fuel, (F <= fuel)%nat ->
      Get fuel ts = (Ok tok, ts')
      /\ Peek fuel ts = (Ok tok, set_offset ts' (offset ts)).
Proof.
  intros Hinv Hwf Hid Hno.
  set (n := Z.to_nat ((len s - StringStream.pos (stream ts))
                      + (llen (tokens ts) - offset ts))).
  destruct (Get_returns_within s (lexer ts) Hid Hno n ts eq_refl Hinv Hwf)
    as (tok & ts' & Hg); [unfold n; lia|].
  exists (S (S n)), tok, ts'. intros fuel Hf.
  assert (Hg' : Get fuel ts = (Ok tok, ts')).
  { replace fuel with (S (S n) + (fuel - S (S n)))%nat by lia.
    apply Get_mono; [exact Hg | discriminate]. }
  split; [exact Hg'|]. unfold Peek. rewrite Hg'. reflexivity.
Qed.

Lemma X11_Get_returns_witness :
  exists F tok ts',
    forall fuel, (F <= fuel)%nat ->
      Get fuel Examples.ts_ab = (Ok tok, ts')
      /\ Peek fuel Examples.ts_ab = (Ok tok, set_offset ts' (offset Examples.ts_ab)).
Proof.
  apply (X11_Get_returns "ab" Examples.ts_ab).
  - exact ParserFacts.ts_inv_ts_ab.
  - apply StringStreamFacts.wf_init.
  - reflexivity.
  - intros p str [<- | [<- | []]]; cbn [regex Examples.pat_a Examples.pat_b];
      unfold Examples.re_lit; destruct (String.prefix _ str); discriminate.
Defined.

Lemma Get_ends_on_last (fuel : nat) :
  forall ts tok ts',
    Get fuel ts = (Ok tok, ts') -> IsEOS ts' = true ->
    offset ts' = llen (tokens ts') - 1.
Proof.
  induction fuel as [|fuel IH]; intros ts tok ts' H He; [discriminate|].
  rewrite Get_S in H.
  destruct (py_index (tokens (fill ts)) (offset (fill ts))) as [token|]; [|discriminate].
  cbv zeta in H.
  destruct (str_in (patternID token) _); [exact (IH _ _ _ H He)|].
  injection H as _ <-.
  rewrite (IsEOS_tokens (fill ts) (set_offset (fill ts) _) eq_refl) in He.
  rewrite He. reflexivity.
Qed.

(** X12. What [Get] does, from any state the stream goes through.  It never
    raises (no index error on the cache); the cache is only appended to, and
    not at all once it ends with the end-of-stream token; the token returned
    is not an ignored one.  While the end-of-stream token is not cached, the
    token returned is the first cached one at or after the cursor that is
    not ignored, and the cursor ends just after it.  Once the end-of-stream
    token is cached, the cursor ends on the last token, wherever it was. *)
Theorem X12_Get_contract (fuel : nat) (ts : t) (o : outcome Token) (ts' : t) :
  ts_inv ts ->
  Get fuel ts = (o, ts') ->
  ts_inv ts' /\ ext ts ts'
  /\ (o = Timeout \/ exists tok,
        o = Ok tok
        /\ str_in (patternID tok) (ignores ts) = false
        /\ (IsEOS ts' = false ->
            py_index (tokens ts') (offset ts' - 1) = Some tok
            /\ offset ts < offset ts'
            /\ forall i x, offset ts <= i < offset ts' - 1 ->
                           py_index (tokens ts') i = Some x ->
                           str_in (patternID x) (ignores ts) = true)
        /\ (IsEOS ts' = true -> offset ts' = llen (tokens ts') - 1)).
Proof.
  intros Hinv H.
  destruct (Get_inv fuel ts o ts' Hinv H) as (Hinv' & Hext & Ho).
  split; [exact Hinv' | split; [exact Hext|]].
  destruct o as [tok | e | w |]; try contradiction; [right | left; reflexivity].
  exists tok. destruct Ho as (_ & Hi).
  split; [reflexivity | split; [exact Hi | split]].
  - intros He. exact (Get_advances fuel ts tok ts' Hinv H He).
  - intros He. exact (Get_ends_on_last fuel ts tok ts' H He).
Qed.

Lemma X12_Get_contract_witness :
  let a := mkToken "A" (mkPosition 1 1) "a" in
  let ts' := snd (Get 1 Examples.ts_ab) in
  Get 1 Examples.ts_ab = (Ok a, ts')
  /\ ts_inv ts' /\ ext Examples.ts_ab ts'
  /\ (Ok a = Timeout \/ exists tok,
        Ok a = Ok tok
        /\ str_in (patternID tok) (ignores Examples.ts_ab) = false
        /\ (IsEOS ts' = false ->
            py_index (tokens ts') (offset ts' - 1) = Some tok
            /\ offset Examples.ts_ab < offset ts'
            /\ forall i x,
                 offset Examples.ts_ab <= i < offset ts' - 1 ->
                 py_index (tokens ts') i = Some x ->
                 str_in (patternID x) (ignores Examples.ts_ab) = true)
        /\ (IsEOS ts' = true -> offset ts' = llen (tokens ts') - 1)).
Proof.
  intros a ts'.
  assert (H : Get 1 Examples.ts_ab = (Ok a, ts'))
    by (apply ParserFacts.pair_eq; [vm_compute; reflexivity | reflexivity]).
  split; [exact H|].
  exact (X12_Get_contract 1 Examples.ts_ab (Ok a) ts' ParserFacts.ts_inv_ts_ab H).
Defined.

(** X13. Rewinding works while the end-of-stream token is not cached: after
    a [Get] that returned, [SetOffset] with the offset read before the call
    followed by [Get] returns the same token and reaches the same state,
    without lexing anything again. *)
Theorem X13_rewind_and_read_again (fuel : nat) (ts : t) (tok : Token) (ts' : t) :
  ts_inv ts ->
  Get fuel ts = (Ok tok, ts') ->
  IsEOS ts' = false ->
  offset (SetOffset ts' (GetOffset ts)) = GetOffset ts
  /\ Get fuel (SetOffset ts' (GetOffset ts)) = (Ok tok, ts').
Proof.
  intros Hinv H He.
  destruct (Get_inv fuel ts (Ok tok) ts' Hinv H) as (_ & _ & Hlt & _).
  assert (Hs : SetOffset ts' (GetOffset ts) = set_offset ts' (offset ts)).
  { unfold SetOffset, GetOffset. f_equal. destruct Hinv as ((? & ?) & _). lia. }
  rewrite Hs. split; [reflexivity|].
  assert (He' : IsEOS (set_offset ts' (offset ts)) = false).
  { rewrite (IsEOS_tokens ts' (set_offset ts' (offset ts)) eq_refl). exact He. }
  rewrite (Get_replay fuel ts (set_offset ts' (offset ts)) tok ts' Hinv H
             (ext_set_offset ts' (offset ts)) eq_refl He').
  f_equal. apply set_offset_back. reflexivity.
Qed.

Lemma X13_rewind_and_read_again_witness :
  let tok := mkToken "A" (mkPosition 1 1) "a" in
  let ts' := snd (Get 1 Examples.ts_ab) in
  Get 1 Examples.ts_ab = (Ok tok, ts')
  /\ offset (SetOffset ts' (GetOffset Examples.ts_ab)) = GetOffset Examples.ts_ab
  /\ Get 1 (SetOffset ts' (GetOffset Examples.ts_ab)) = (Ok tok, ts').
Proof.
  intros tok ts'.
  assert (H : Get 1 Examples.ts_ab = (Ok tok, ts'))
    by (apply ParserFacts.pair_eq; [vm_compute; reflexivity | reflexivity]).
  split; [exact H|].
  apply (X13_rewind_and_read_again 1 Examples.ts_ab tok ts'
           ParserFacts.ts_inv_ts_ab H).
  vm_compute. reflexivity.
Defined.

(** X14. [SetOffset] clamps: it changes nothing but the cursor, which it puts
    on a cached token (on 0 when nothing is cached); an offset within the
    cache is taken as given.  So the cursor cannot be put just past the
    cache, where [Get] leaves it: [SetOffset] with the offset just read
    gives the same state exactly when the cursor is on a cached token or at
    0, and moves the cursor one token back otherwise. *)
Theorem X14_SetOffset_clamps (ts : t) (o : Z) :
  tokens (SetOffset ts o) = tokens ts
  /\ stream (SetOffset ts o) = stream ts
  /\ ignores (SetOffset ts o) = ignores ts
  /\ 0 <= offset (SetOffset ts o)
  /\ (offset (SetOffset ts o) < llen (tokens ts)
      \/ (tokens ts = [] /\ offset (SetOffset ts o) = 0))
  /\ (0 <= o < llen (tokens ts) -> offset (SetOffset ts o) = o)
  /\ (ts_inv ts ->
      (SetOffset ts (GetOffset ts) = ts
       <-> (offset ts < llen (tokens ts) \/ offset ts = 0))
      /\ (0 < offset ts -> offset ts = llen (tokens ts) ->
          offset (SetOffset ts (GetOffset ts)) = offset ts - 1)).
Proof.
  pose proof (llen_nonneg (tokens ts)) as Hn.
  unfold SetOffset, GetOffset. cbn [set_offset tokens stream ignores offset].
  repeat (split; [first [reflexivity | lia] |]).
  split; [|split].
  - destruct (tokens ts) as [|x l] eqn:E.
    + right. split; [reflexivity|]. change (llen []) with 0. lia.
    + left. unfold llen in *. cbn [List.length]. lia.
  - lia.
  - intros ((H0 & H1) & _). split; [split|].
    + intros H. apply (f_equal offset) in H. cbn [set_offset offset] in H. lia.
    + intros H. apply set_offset_same. lia.
    + lia.
Qed.

Lemma step_inv (fuel : nat) (c : Session.call) (ts : t) (o : outcome unit) (ts' : t) :
  ts_inv ts -> Session.step fuel c ts = (o, ts') ->
  (o = Ok tt \/ o = Timeout) /\ ts_inv ts' /\ ext ts ts'.
Proof.
  intros Hinv H. destruct c; cbn [Session.step] in H.
  - unfold Session.ended in H. destruct (Get fuel ts) as (x & t1) eqn:E.
    cbn [fst snd] in H. injection H as <- <-.
    destruct (Get_inv fuel ts x t1 Hinv E) as (Hi & He & Hx).
    destruct x; try contradiction; auto.
  - unfold Session.ended in H. destruct (Peek fuel ts) as (x & t1) eqn:E.
    cbn [fst snd] in H. injection H as <- <-.
    destruct (Peek_inv fuel ts x t1 Hinv E) as (Hi & He & Hx).
    destruct x; try contradiction; auto.
  - unfold Session.ended in H. destruct (GetPosition fuel ts) as (x & t1) eqn:E.
    cbn [fst snd] in H. injection H as <- <-.
    destruct (GetPosition_inv fuel ts x t1 Hinv E) as (Hi & He & Hx).
    destruct x; try contradiction; auto.
  - injection H as <- <-. split; [auto | split; [exact Hinv | apply ext_refl]].
  - injection H as <- <-. split; [auto|]. apply SetOffset_inv. exact Hinv.
  - injection H as <- <-. split; [auto | split; [exact Hinv | apply ext_refl]].
Qed.

Lemma run_inv (fuel : nat) (cs : list Session.call) :
  forall ts o ts',
    ts_inv ts -> Session.run fuel cs ts = (o, ts') ->
    (o = Ok tt \/ o = Timeout) /\ ts_inv ts' /\ ext ts ts'.
Proof.
  induction cs as [|c rest IH]; intros ts o ts' Hinv H; cbn [Session.run] in H.
  - injection H as <- <-. split; [auto | split; [exact Hinv | apply ext_refl]].
  - destruct (Session.step fuel c ts) as (x & t1) eqn:E.
    destruct (step_inv fuel c ts x t1 Hinv E) as (Hx & Hi & He).
    destruct x as [u | e | w |].
    + destruct (IH t1 o ts' Hi H) as (Ho & Hi' & He').
      split; [exact Ho | split; [exact Hi' | exact (ext_trans _ _ _ He He')]].
    + destruct Hx; discriminate.
    + destruct Hx; discriminate.
    + injection H as <- <-. auto.
Qed.

(** X15. No sequence of calls on a token stream raises.  Whatever [Get],
    [Peek], [GetPosition], [GetOffset], [SetOffset] and [IsEOS] calls are
    made on a stream that [__init__] built, in whatever order and with
    whatever offsets, no call raises (no index error on the cache); the
    cursor stays within the cache or just past it, and within it once the
    end-of-stream token is cached; tokens are only ever appended to the
    cache. *)
Theorem X15_calls_never_raise (lx : Lexer.t) (s : string)
    (ign : option (list PatternID)) (ts0 : t)
    (fuel : nat) (cs : list Session.call) (o : outcome unit) (ts' : t) :
  init lx s ign = Ok ts0 ->
  Session.run fuel cs ts0 = (o, ts') ->
  (o = Ok tt \/ o = Timeout)
  /\ 0 <= offset ts' <= llen (tokens ts')
  /\ (IsEOS ts' = true -> offset ts' < llen (tokens ts'))
  /\ exists l, tokens ts' = tokens ts0 ++ l.
Proof.
  intros Hi H.
  destruct (run_inv fuel cs ts0 o ts' (init_inv lx s ign ts0 Hi) H)
    as (Ho & (Hb & He & _) & (_ & l & Hl & _)).
  split; [exact Ho | split; [exact Hb | split; [exact He | exists l; exact Hl]]].
Qed.

Lemma X15_calls_never_raise_witness :
  let cs := [Session.CallGet; Session.CallGet; Session.CallSetOffset 7;
             Session.CallPeek; Session.CallSetOffset (-3); Session.CallGetPosition] in
  let ts' := snd (Session.run 3 cs Examples.ts_ab) in
  (Ok tt = Ok tt \/ Ok tt = @Timeout unit)
  /\ 0 <= offset ts' <= llen (tokens ts')
  /\ (IsEOS ts' = true -> offset ts' < llen (tokens ts'))
  /\ exists l, tokens ts' = tokens Examples.ts_ab ++ l.
Proof.
  intros cs ts'.
  apply (X15_calls_never_raise (Examples.lexer_of [Examples.pat_a; Examples.pat_b])
           "ab" None Examples.ts_ab 3 cs (Ok tt) ts').
  - reflexivity.
  - apply ParserFacts.pair_eq; [vm_compute; reflexivity | reflexivity].
Defined.

(** *** [Peek] and [Get] agree *)

Lemma Get_cached (fuel : nat) :
  forall ts o ts',
    ts_inv ts -> IsEOS ts = true -> Get fuel ts = (o, ts') ->
    ts' = set_offset ts (offset ts').
Proof.
  induction fuel as [|fuel IH]; intros ts o ts' Hi He H.
  - injection H as _ <-. symmetry. apply set_offset_same. reflexivity.
  - pose proof Hi as ((H0 & H1) & H2 & H3).
    rewrite Get_S, (fill_id ts (H2 He)), He in H.
    destruct (py_index (tokens ts) (offset ts)) as [token|].
    + cbv zeta in H. set (ts2 := set_offset ts (llen (tokens ts) - 1)) in *.
      destruct (str_in (patternID token) (ignores ts2)).
      * assert (Hi2 : ts_inv ts2).
        { subst ts2. pose proof (H2 He) as Hlt.
          split; [cbn [set_offset offset tokens]; lia|].
          split; [intros _; cbn [set_offset offset tokens]; lia | exact H3]. }
        apply (IH ts2 o ts' Hi2 (eq_trans (IsEOS_tokens ts ts2 eq_refl) He)) in H.
        rewrite H at 1. reflexivity.
      * injection H as _ <-. reflexivity.
    + injection H as _ <-. symmetry. apply set_offset_same. reflexivity.
Qed.

Lemma py_last_index {A : Type} (l : list A) (x : A) :
  py_last l = Some x -> py_index l (llen l - 1) = Some x.
Proof.
  unfold py_last, py_index. change (0 <=? -1) with false. cbv iota.
  destruct (- llen l <=? -1) eqn:E; [|discriminate]. apply Z.leb_le in E.
  replace (0 <=? llen l - 1) with true by (symmetry; apply Z.leb_le; lia).
  replace (llen l - 1) with (llen l + -1) by lia. auto.
Qed.

Lemma IsEOS_last (ts : t) :
  IsEOS ts = true ->
  exists tl, py_last (tokens ts) = Some tl /\ patternID tl = Lexer.EOS_PATTERN_ID.
Proof.
  unfold IsEOS. intros H. apply andb_prop in H. destruct H as (_ & H).
  destruct (py_last (tokens ts)) as [tl|]; [|discriminate].
  exists tl. split; [reflexivity | apply String.eqb_eq; exact H].
Qed.

(** A [Get] during which the end-of-stream token gets cached returns that
    token, every token it passed being ignored. *)
Lemma Get_reaches_end (fuel : nat) :
  forall a tok a',
    ts_inv a -> IsEOS a = false ->
    Get fuel a = (Ok tok, a') -> IsEOS a' = true ->
    py_last (tokens a') = Some tok
    /\ forall i x, offset a <= i < llen (tokens a') - 1 ->
                   py_index (tokens a') i = Some x ->
                   str_in (patternID x) (ignores a) = true.
Proof.
  induction fuel as [|fuel IH]; intros a tok a' Hi Hne H He; [discriminate|].
  rewrite Get_S in H.
  pose proof (fill_offset a Hi) as Hfo. pose proof (fill_in_cache a Hi) as Hfc.
  destruct (ext_fill a Hi) as (Hign & _).
  pose proof Hi as ((H0 & H1) & _ & H3).
  destruct (py_index (tokens (fill a)) (offset (fill a))) as [token|] eqn:Et;
    [|discriminate].
  cbv zeta in H.
  set (ts2 := set_offset (fill a)
                (if IsEOS (fill a) then llen (tokens (fill a)) - 1
                 else offset (fill a) + 1)) in *.
  assert (Hi2 : ts_inv ts2).
  { apply inv_advance; [lia | rewrite Hign; exact H3]. }
  change (ignores ts2) with (ignores (fill a)) in H. rewrite Hign in H.
  destruct (IsEOS (fill a)) eqn:Ef.
  - (* the token just lexed is the end-of-stream token *)
    destruct (fill_cases a Hi) as [(Hf & _) | (Hf & Heq & _)];
      [rewrite Hf, Hne in Ef; discriminate|].
    assert (Htk : token = fst (Lexer.Lex (lexer a) (stream a))).
    { rewrite Hf, lex_one_offset, lex_one_tokens, Heq, py_index_snoc in Et.
      injection Et as <-. reflexivity. }
    assert (Hid : patternID token = Lexer.EOS_PATTERN_ID).
    { rewrite (IsEOS_snoc (tokens a) token (fill a)) in Ef
        by (rewrite Hf, lex_one_tokens, Htk; reflexivity).
      apply String.eqb_eq. exact Ef. }
    rewrite Hid, H3 in H. injection H as <- <-.
    change (tokens ts2) with (tokens (fill a)).
    rewrite Hf, lex_one_tokens, <- Htk. split; [apply py_last_snoc|].
    intros i x Hr. rewrite llen_app in Hr. change (llen [token]) with 1 in Hr. lia.
  - destruct (str_in (patternID token) (ignores a)) eqn:Eg.
    + assert (Hne2 : IsEOS ts2 = false)
        by (rewrite (IsEOS_tokens (fill a) ts2 eq_refl); exact Ef).
      destruct (IH ts2 tok a' Hi2 Hne2 H He) as (Hl & Hr).
      split; [exact Hl|]. intros i x Hi' Hx.
      destruct (Z.eq_dec i (offset a)) as [-> | Hd].
      * destruct (Get_inv fuel ts2 (Ok tok) a' Hi2 H) as (_ & (_ & l & Hl' & _) & _).
        change (tokens ts2) with (tokens (fill a)) in Hl'.
        rewrite Hfo in Et.
        rewrite Hl', (py_index_app_l _ l _ _ H0 Et) in Hx.
        injection Hx as <-. exact Eg.
      * change (ignores a) with (ignores a). rewrite <- Hign.
        apply (Hr i x); [|exact Hx].
        subst ts2. cbn [set_offset offset]. lia.
    + injection H as _ <-.
      rewrite (IsEOS_tokens (fill a) ts2 eq_refl) in He. congruence.
Qed.

(** With the end-of-stream token cached and only ignored tokens between the
    cursor and it, [Get] returns it. *)
Lemma Get_skips_to_end (fuel : nat) (b : t) (tl : Token) :
  0 <= offset b < llen (tokens b) -> IsEOS b = true ->
  str_in Lexer.EOS_PATTERN_ID (ignores b) = false ->
  py_last (tokens b) = Some tl ->
  (forall i x, offset b <= i < llen (tokens b) - 1 ->
               py_index (tokens b) i = Some x ->
               str_in (patternID x) (ignores b) = true) ->
  Get (S (S fuel)) b = (Ok tl, set_offset b (llen (tokens b) - 1)).
Proof.
  intros Ho He H3 Hl Hr.
  destruct (IsEOS_last b He) as (tl' & Hl' & Hid).
  rewrite Hl in Hl'. injection Hl' as <-.
  pose proof (py_last_index _ _ Hl) as Hli.
  assert (Hlt : offset b < llen (tokens b)) by lia.
  rewrite Get_S, (fill_id b Hlt), He.
  destruct (py_index_in_range (tokens b) (offset b) Ho) as (tk & Htk).
  rewrite Htk. cbv zeta.
  set (b2 := set_offset b (llen (tokens b) - 1)).
  change (ignores b2) with (ignores b).
  destruct (Z.eq_dec (offset b) (llen (tokens b) - 1)) as [Heq | Hd].
  - rewrite Heq, Hli in Htk. injection Htk as <-. rewrite Hid, H3. reflexivity.
  - rewrite (Hr (offset b) tk ltac:(lia) Htk).
    assert (Hlt2 : offset b2 < llen (tokens b2)) by (subst b2; cbn [set_offset offset tokens]; lia).
    rewrite Get_S, (fill_id b2 Hlt2), (IsEOS_tokens b b2 eq_refl), He.
    change (offset b2) with (llen (tokens b) - 1). change (tokens b2) with (tokens b).
    rewrite Hli. cbv zeta.
    change (ignores (set_offset b2 (llen (tokens b) - 1))) with (ignores b).
    rewrite Hid, H3. reflexivity.
Qed.

Lemma Get_after_Peek (f : nat) (a : t) (tok : Token) (a' : t) :
  ts_inv a -> Get f a = (Ok tok, a') ->
  exists F a2, Get F (set_offset a' (offset a)) = (Ok tok, a2).
Proof.
  intros Hi H. set (a1 := set_offset a' (offset a)).
  destruct (Get_inv f a (Ok tok) a' Hi H) as (Hi' & Hext & Hlt & _).
  pose proof Hi as ((H0 & H1) & H2 & H3).
  destruct (IsEOS a') eqn:He'.
  - destruct (IsEOS a) eqn:He.
    + pose proof (Get_cached f a (Ok tok) a' Hi He H) as Ha'.
      assert (Ha1 : a1 = a).
      { subst a1. rewrite Ha'. apply set_offset_back. reflexivity. }
      exists f, a'. rewrite Ha1. exact H.
    + destruct (Get_reaches_end f a tok a' Hi He H He') as (Hl & Hr).
      exists 2%nat, (set_offset a1 (llen (tokens a1) - 1)).
      apply Get_skips_to_end.
      * subst a1. cbn [set_offset offset tokens]. lia.
      * rewrite (IsEOS_tokens a' a1 eq_refl). exact He'.
      * subst a1. cbn [set_offset ignores]. destruct Hi' as (_ & _ & Hx). exact Hx.
      * exact Hl.
      * intros i x Hi1 Hx. subst a1. cbn [set_offset ignores tokens offset] in *.
        destruct Hext as (Hig & _). rewrite Hig. exact (Hr i x Hi1 Hx).
  - exists f, (set_offset a1 (offset a')).
    apply (Get_replay f a a1 tok a' Hi H (ext_set_offset a' (offset a)) eq_refl).
    rewrite (IsEOS_tokens a' a1 eq_refl). exact He'.
Qed.

Lemma Peek_again (f : nat) (a : t) (tok : Token) (a1 : t) :
  ts_inv a ->
  Peek f a = (Ok tok, a1) ->
  GetOffset a1 = GetOffset a
  /\ exists F, forall fuel, (F <= fuel)%nat ->
       (exists a2, Get fuel a1 = (Ok tok, a2))
       /\ Peek fuel a1 = (Ok tok, a1).
Proof.
  intros Hi HP. unfold Peek in HP.
  destruct (Get f a) as (o & a') eqn:E.
  destruct o as [tk | e | w |]; try discriminate.
  injection HP as -> <-. split; [reflexivity|].
  destruct (Get_after_Peek f a tok a' Hi E) as (F & a2 & HG).
  exists F. intros fuel Hf.
  assert (HG' : Get fuel (set_offset a' (offset a)) = (Ok tok, a2)).
  { replace fuel with (F + (fuel - F))%nat by lia.
    apply Get_mono; [exact HG | discriminate]. }
  split; [exists a2; exact HG'|].
  unfold Peek. rewrite HG'. f_equal.
  assert (Hi1 : ts_inv (set_offset a' (offset a))).
  { destruct (Get_inv f a (Ok tok) a' Hi E) as ((_ & He & Hx) & _ & Hlt & _).
    pose proof Hi as ((H0 & H1) & _).
    split; [cbn [set_offset offset tokens]; lia | split; [intros _; exact Hlt | exact Hx]]. }
  destruct (IsEOS (set_offset a' (offset a))) eqn:He1.
  - rewrite (Get_cached fuel _ _ a2 Hi1 He1 HG'). apply set_offset_back. reflexivity.
  - pose proof (Get_replay f a (set_offset a' (offset a)) tok a' Hi E
                  (ext_set_offset a' (offset a)) eq_refl He1) as HR.
    assert (HR' : Get fuel (set_offset a' (offset a))
                  = (Ok tok, set_offset (set_offset a' (offset a)) (offset a'))).
    { destruct (Nat.le_ge_cases f fuel) as [Hle | Hge].
      - replace fuel with (f + (fuel - f))%nat by lia.
        apply Get_mono; [exact HR | discriminate].
      - replace f with (fuel + (f - fuel))%nat in HR by lia.
        rewrite (Get_mono fuel (f - fuel) _ _ _ HG') in HR by discriminate.
        rewrite HG'. exact HR. }
    rewrite HR' in HG'. injection HG' as <-. apply set_offset_back. reflexivity.
Qed.

(** X23. [Get] returns what [Peek] showed.  After a [Peek] that returned a
    token, the cursor is where it was, a [Get] returns that same token, and
    another [Peek] shows it again and leaves the stream exactly as it is,
    whether or not the end-of-stream token is cached. *)
Theorem X23_Peek_then_Get (f : nat) (a : t) (tok : Token) (a1 : t) :
  ts_inv a ->
  Peek f a = (Ok tok, a1) ->
  GetOffset a1 = GetOffset a
  /\ exists F, forall fuel, (F <= fuel)%nat ->
       (exists a2, Get fuel a1 = (Ok tok, a2))
       /\ Peek fuel a1 = (Ok tok, a1).
Proof.
  intros Hi HP. destruct (Peek_again f a tok a1 Hi HP) as (Ho & F & HF).
  split; [exact Ho|]. exists F. exact HF.
Qed.

Lemma Get_In (fuel : nat) :
  forall ts tok ts', Get fuel ts = (Ok tok, ts') -> In tok (tokens ts').
Proof.
  induction fuel as [|fuel IH]; intros ts tok ts' H; [discriminate|].
  rewrite Get_S in H.
  destruct (py_index (tokens (fill ts)) (offset (fill ts))) as [token|] eqn:Et;
    [|discriminate].
  cbv zeta in H. destruct (str_in (patternID token) _); [exact (IH _ _ _ H)|].
  injection H as <- <-. cbn [set_offset tokens]. exact (py_index_In _ _ _ Et).
Qed.

Lemma Get_same (f1 f2 : nat) (ts : t) (t1 : Token) (b1 : t) (o2 : outcome Token) (b2 : t) :
  Get f1 ts = (Ok t1, b1) -> Get f2 ts = (o2, b2) -> o2 <> Timeout ->
  o2 = Ok t1 /\ b2 = b1.
Proof.
  intros H1 H2 Hn.
  apply (Get_mono f1 f2) in H1; [|discriminate].
  apply (Get_mono f2 f1) in H2; [|exact Hn].
  rewrite Nat.add_comm, H1 in H2. injection H2 as <- <-. auto.
Qed.

Lemma Peek_same (f1 f2 : nat) (ts : t) (t1 : Token) (b1 : t) (o2 : outcome Token) (b2 : t) :
  Peek f1 ts = (Ok t1, b1) -> Peek f2 ts = (o2, b2) -> o2 <> Timeout ->
  o2 = Ok t1 /\ b2 = b1.
Proof.
  intros H1 H2 Hn.
  apply (Peek_mono f1 f2) in H1; [|discriminate].
  apply (Peek_mono f2 f1) in H2; [|exact Hn].
  rewrite Nat.add_comm, H1 in H2. injection H2 as <- <-. auto.
Qed.

Lemma X23_Peek_then_Get_witness :
  let tok := mkToken "A" (mkPosition 1 1) "a" in
  let a1 := snd (Peek 1 Examples.ts_ab) in
  GetOffset a1 = GetOffset Examples.ts_ab
  /\ exists F, forall fuel, (F <= fuel)%nat ->
       (exists a2, Get fuel a1 = (Ok tok, a2))
       /\ Peek fuel a1 = (Ok tok, a1).
Proof.
  intros tok a1.
  apply (X23_Peek_then_Get 1 Examples.ts_ab tok a1 ParserFacts.ts_inv_ts_ab).
  apply ParserFacts.pair_eq; [vm_compute; reflexivity | reflexivity].
Defined.

End TokenStreamLaws.

(** * Further properties of the parsers *)

Module ParserLaws.
Import TokenStream TokenStreamSpec TokenStreamFacts ParserSpec ParserFacts CombinatorSpec.

(** ** Sequence *)

Lemma threads_length (rec : Parser -> M Result) (ps : list Parser)
    (s : t) (rs : list Result) (s' : t) :
  threads rec ps s rs s' -> List.length rs = List.length ps.
Proof. induction 1; cbn [List.length]; congruence. Qed.

Lemma Sequence_loop_Ok (rec : Parser -> M Result) (ps : list Parser) :
  forall acc s rs' s',
    Sequence_loop rec ps acc s = (Ok rs', s')
    <-> exists rs, threads rec ps s rs s' /\ rs' = acc ++ rs.
Proof.
  induction ps as [|p ps IH]; intros acc s rs' s'; cbn [Sequence_loop].
  - split.
    + intros H. apply ret_Ok in H. destruct H as (<- & <-).
      exists []. split; [constructor | rewrite app_nil_r; reflexivity].
    + intros (rs & Ht & ->). inversion Ht; subst. rewrite app_nil_r. reflexivity.
  - split.
    + intros H. apply bind_Ok in H. destruct H as (r & s1 & Hr & H).
      apply IH in H. destruct H as (rs & Ht & ->).
      exists (r :: rs). split; [econstructor; eassumption|].
      rewrite <- app_assoc. reflexivity.
    + intros (rs & Ht & ->). inversion Ht as [|? ? ? r s1 rs0 ? Hr Ht']; subst.
      rewrite (bind_Ok_fwd _ _ _ _ _ Hr). apply IH.
      exists rs0. split; [exact Ht' | rewrite <- app_assoc; reflexivity].
Qed.

Lemma bind_Raise {A B : Type} (m : M A) (k : A -> M B) (s : t) (e : Error) (s' : t) :
  bind m k s = (Raise e, s') ->
  m s = (Raise e, s') \/ exists a s1, m s = (Ok a, s1) /\ k a s1 = (Raise e, s').
Proof.
  unfold bind. destruct (m s) as (o & s1). destruct o as [a | e1 | w |]; intros H.
  - right. exists a, s1. split; [reflexivity | exact H].
  - left. injection H as -> ->. reflexivity.
  - discriminate.
  - discriminate.
Qed.

Lemma Sequence_loop_Raise (rec : Parser -> M Result) (ps : list Parser) :
  forall acc s e s',
    Sequence_loop rec ps acc s = (Raise e, s')
    <-> exists pre q post rs s1,
          ps = pre ++ q :: post /\ threads rec pre s rs s1
          /\ rec q s1 = (Raise e, s').
Proof.
  induction ps as [|p ps IH]; intros acc s e s'; cbn [Sequence_loop].
  - split; [discriminate|].
    intros (pre & q & post & _ & _ & H & _). destruct pre; discriminate.
  - split.
    + intros H. apply bind_Raise in H. destruct H as [H | (r & s1 & Hr & H)].
      * exists [], p, ps, [], s. split; [reflexivity | split; [constructor | exact H]].
      * apply IH in H. destruct H as (pre & q & post & rs & s2 & -> & Ht & Hq).
        exists (p :: pre), q, post, (r :: rs), s2.
        split; [reflexivity | split; [econstructor; eassumption | exact Hq]].
    + intros (pre & q & post & rs & s1 & Hps & Ht & Hq).
      destruct pre as [|p0 pre]; cbn [app] in Hps; injection Hps as -> ->.
      * inversion Ht; subst. apply bind_Raise_fwd. exact Hq.
      * inversion Ht as [|? ? ? r s2 rs0 ? Hr Ht']; subst.
        rewrite (bind_Ok_fwd _ _ _ _ _ Hr). apply IH.
        exists pre, q, post, rs0, s1. auto.
Qed.

(** X16. A [Sequence] runs its parsers in order, each from where the one
    before stopped.  It returns exactly when all of them return: the value
    is the list of their results, one per parser and in their order, and
    the position is that of the first result (the start position when there
    is no parser).  It raises exactly when one of them raises after all the
    ones before it returned, with that parser's error, unwrapped, and the
    parsers after it are not run. *)
Theorem X16_Sequence (rec : Parser -> M Result) (fuel : nat) (name : string)
    (ps : list Parser) (tr : option Transformer) (ign : list PatternID)
    (start : Position) (s : t) :
  (forall r s',
      _parse rec fuel (Sequence name ps tr ign) start s = (Ok r, s')
      <-> exists rs, threads rec ps s rs s'
                     /\ List.length rs = List.length ps
                     /\ r = list_result start rs)
  /\ (forall e s',
      _parse rec fuel (Sequence name ps tr ign) start s = (Raise e, s')
      <-> exists pre q post rs s1,
            ps = pre ++ q :: post /\ threads rec pre s rs s1
            /\ rec q s1 = (Raise e, s')).
Proof.
  cbn [_parse]. split.
  - intros r s'. split.
    + intros H. apply bind_Ok in H. destruct H as (rs & s1 & Hl & H).
      apply ret_Ok in H. destruct H as (<- & <-).
      apply Sequence_loop_Ok in Hl. destruct Hl as (rs0 & Ht & ->).
      exists rs0. split; [exact Ht | split; [exact (threads_length _ _ _ _ _ Ht) | reflexivity]].
    + intros (rs & Ht & _ & ->).
      assert (Hl : Sequence_loop rec ps [] s = (Ok rs, s'))
        by (apply Sequence_loop_Ok; exists rs; auto).
      rewrite (bind_Ok_fwd _ _ _ _ _ Hl). reflexivity.
  - intros e s'. rewrite <- (Sequence_loop_Raise rec ps [] s e s'). split.
    + intros H. apply bind_Raise in H. destruct H as [H | (rs & s1 & _ & H)];
        [exact H | discriminate].
    + intros H. apply bind_Raise_fwd. exact H.
Qed.

(** ** Choice *)

Lemma Choice_loop_Ok (rec : Parser -> M Result) (tag : bool) (ps : list Parser) :
  forall s x s',
    Choice_loop rec tag ps s = (Ok x, s')
    <-> match x with
        | Some r => exists pre q post s1 r0,
                      ps = pre ++ q :: post /\ rejected rec pre s s1
                      /\ rec q s1 = (Ok r0, s') /\ r = tagged tag q r0
        | None => rejected rec ps s s'
        end.
Proof.
  induction ps as [|p ps IH]; intros s x s'; cbn [Choice_loop].
  - split.
    + intros H. apply ret_Ok in H. destruct H as (<- & <-). constructor.
    + destruct x as [r|].
      * intros (pre & q & post & _ & _ & H & _). destruct pre; discriminate.
      * intros H. inversion H; subst. reflexivity.
  - split.
    + intros H. apply bind_Ok in H. destruct H as (y & s1 & Hc & H).
      apply catch_Ok in Hc. destruct y as [r0 | e].
      * apply ret_Ok in H. destruct H as (<- & <-).
        exists [], p, ps, s, r0.
        split; [reflexivity | split; [constructor | split; [exact Hc | reflexivity]]].
      * apply IH in H. destruct x as [r|].
        -- destruct H as (pre & q & post & s2 & r0 & -> & Hr & Hq & ->).
           exists (p :: pre), q, post, s2, r0.
           split; [reflexivity | split; [econstructor; eassumption | auto]].
        -- econstructor; eassumption.
    + destruct x as [r|].
      * intros (pre & q & post & s1 & r0 & Hps & Hr & Hq & ->).
        destruct pre as [|p0 pre]; cbn [app] in Hps; injection Hps as -> ->.
        -- inversion Hr; subst.
           rewrite (bind_Ok_fwd _ _ _ _ _ (catch_Ok_fwd _ _ _ _ Hq)). reflexivity.
        -- inversion Hr as [|? ? ? e s2 ? Hp Hr']; subst.
           rewrite (bind_Ok_fwd _ _ _ _ _ (catch_Raise_fwd _ _ _ _ Hp)).
           apply (IH s2 (Some (tagged tag q r0)) s').
           exists pre, q, post, s1, r0. auto.
      * intros Hr. inversion Hr as [|? ? ? e s2 ? Hp Hr']; subst.
        rewrite (bind_Ok_fwd _ _ _ _ _ (catch_Raise_fwd _ _ _ _ Hp)).
        apply (IH s2 None s'). exact Hr'.
Qed.

Lemma Choice_loop_no_raise (rec : Parser -> M Result) (tag : bool) (ps : list Parser) :
  forall s e s', Choice_loop rec tag ps s <> (Raise e, s').
Proof.
  induction ps as [|p ps IH]; intros s e s'; cbn [Choice_loop]; [discriminate|].
  intros H. apply bind_Raise in H. destruct H as [H | (y & s1 & _ & H)].
  - unfold catch in H. destruct (rec p s) as ([r | e1 | w |] & s1); discriminate.
  - destruct y as [r0 | e1]; [discriminate | exact (IH _ _ _ H)].
Qed.

Section Alternatives.

Variable table : string -> option Parser.

Lemma rejected_offset (fuel : nat) (ps : list Parser) (s s' : t) :
  rejected (parse table fuel) ps s s' -> ts_inv s ->
  GetOffset s' = GetOffset s /\ ts_inv s'.
Proof.
  induction 1 as [s | p ps s e s1 s2 Hp _ IH]; intros Hi; [auto|].
  destruct (parse_sound table fuel p) as (Hst & Hr).
  destruct (Hst s _ s1 Hi Hp) as (Hi1 & _).
  destruct (Hr s e s1 Hi Hp) as (Ho & _).
  destruct (IH Hi1) as (Ho' & Hi'). split; [congruence | exact Hi'].
Qed.

(** X17. A [Choice] tries its alternatives in order and returns the result
    of the first that returns (tagged with that alternative's name when the
    choice is tagged); every alternative is tried from the cursor the choice
    started at, the ones before the winner having raised.  It raises exactly
    when every alternative raised: the error is "Expected one of" followed by
    the names of all the alternatives, at the start position, whatever the
    alternatives' own errors were, and the cursor is where it started. *)
Theorem X17_Choice (fuel : nat) (name : string) (ps : list Parser) (tag : bool)
    (tr : option Transformer) (ign : list PatternID) (start : Position) (s : t) :
  ts_inv s ->
  (forall r s',
      _parse (parse table fuel) fuel (Choice name ps tag tr ign) start s = (Ok r, s')
      <-> exists pre q post s1 r0,
            ps = pre ++ q :: post
            /\ rejected (parse table fuel) pre s s1
            /\ GetOffset s1 = GetOffset s
            /\ parse table fuel q s1 = (Ok r0, s')
            /\ r = tagged tag q r0)
  /\ (forall e s',
      _parse (parse table fuel) fuel (Choice name ps tag tr ign) start s = (Raise e, s')
      <-> rejected (parse table fuel) ps s s'
          /\ GetOffset s' = GetOffset s
          /\ e = mkError start (expected_one_of ps)).
Proof.
  intros Hi. cbn [_parse]. split.
  - intros r s'. split.
    + intros H. apply bind_Ok in H. destruct H as (x & s1 & Hl & H).
      destruct x as [r1|]; [|discriminate].
      apply ret_Ok in H. destruct H as (<- & <-).
      apply (Choice_loop_Ok (parse table fuel) tag ps s (Some r1) s1) in Hl.
      destruct Hl as (pre & q & post & s2 & r0 & Hps & Hr & Hq & Hr1).
      exists pre, q, post, s2, r0.
      split; [exact Hps | split; [exact Hr | split; [|auto]]].
      exact (proj1 (rejected_offset fuel pre s s2 Hr Hi)).
    + intros (pre & q & post & s1 & r0 & Hps & Hr & _ & Hq & ->).
      assert (Hl : Choice_loop (parse table fuel) tag ps s
                   = (Ok (Some (tagged tag q r0)), s')).
      { apply Choice_loop_Ok. exists pre, q, post, s1, r0. auto. }
      rewrite (bind_Ok_fwd _ _ _ _ _ Hl). reflexivity.
  - intros e s'. split.
    + intros H. apply bind_Raise in H. destruct H as [H | (x & s1 & Hl & H)].
      * exfalso. exact (Choice_loop_no_raise _ _ _ _ _ _ H).
      * destruct x as [r1|]; [discriminate|].
        unfold raise in H. injection H as <- <-.
        apply (Choice_loop_Ok (parse table fuel) tag ps s None s1) in Hl.
        split; [exact Hl | split; [|reflexivity]].
        exact (proj1 (rejected_offset fuel ps s s1 Hl Hi)).
    + intros (Hr & _ & ->).
      assert (Hl : Choice_loop (parse table fuel) tag ps s = (Ok None, s'))
        by (apply Choice_loop_Ok; exact Hr).
      rewrite (bind_Ok_fwd _ _ _ _ _ Hl). reflexivity.
Qed.

End Alternatives.

Lemma X17_Choice_witness :
  let ps := [Examples.term_b; Examples.term_a] in
  let s' := snd (_parse (parse Examples.no_table 3) 3 (Choice "c" ps false None [])
                        (mkPosition 1 1) Examples.ts_ab) in
  exists pre q post s1 r0,
    ps = pre ++ q :: post
    /\ rejected (parse Examples.no_table 3) pre Examples.ts_ab s1
    /\ GetOffset s1 = GetOffset Examples.ts_ab
    /\ parse Examples.no_table 3 q s1 = (Ok r0, s')
    /\ Examples.result_a = tagged false q r0.
Proof.
  intros ps s'.
  apply (proj1 (X17_Choice Examples.no_table 3 "c" ps false None [] (mkPosition 1 1)
                  Examples.ts_ab ts_inv_ts_ab)).
  apply pair_eq; [vm_compute; reflexivity | reflexivity].
Defined.

(** ** Quantified *)

Lemma Quantified_loop_no_raise (rec : Parser -> M Result) (q : Parser)
    (minimum : Z) (maximum : option Z) :
  minimum <= 0 ->
  forall fuel acc s e s',
    Quantified_loop rec fuel q minimum maximum acc s <> (Raise e, s').
Proof.
  intros Hmin. induction fuel as [|fuel IH]; intros acc s e s';
    cbn [Quantified_loop]; [discriminate|].
  destruct (match maximum with None => true | Some m => llen acc <? m end);
    [|discriminate].
  intros H. apply bind_Raise in H. destruct H as [H | (x & s1 & _ & H)].
  - unfold catch in H. destruct (rec q s) as ([r | e1 | w |] & s1); discriminate.
  - destruct x as [r | e1]; [exact (IH _ _ _ _ H)|].
    pose proof (llen_nonneg acc) as Hn.
    replace (llen acc <? minimum) with false in H
      by (symmetry; apply Z.ltb_ge; lia).
    discriminate.
Qed.

Lemma Quantified_loop_count (rec : Parser -> M Result) (q : Parser)
    (minimum : Z) (maximum : option Z) :
  forall fuel acc s rs s',
    Quantified_loop rec fuel q minimum maximum acc s = (Ok rs, s') ->
    (forall m, maximum = Some m -> llen acc <= Z.max 0 m -> llen rs <= Z.max 0 m)
    /\ ((forall m, maximum = Some m -> minimum <= m) -> minimum <= llen rs).
Proof.
  induction fuel as [|fuel IH]; intros acc s rs s' H;
    cbn [Quantified_loop] in H; [discriminate|].
  destruct maximum as [m|].
  - destruct (llen acc <? m) eqn:Em.
    + apply Z.ltb_lt in Em.
      apply bind_Ok in H. destruct H as (x & s1 & _ & H).
      destruct x as [r | e1].
      * apply IH in H. destruct H as (Hmax & Hmin). split; [|exact Hmin].
        intros m' Hm' _. apply (Hmax m' Hm'). injection Hm' as <-.
        rewrite llen_app. change (llen [r]) with 1. lia.
      * destruct (llen acc <? minimum) eqn:En.
        -- apply bind_Ok in H. destruct H as (pos & s2 & _ & H). discriminate.
        -- apply ret_Ok in H. destruct H as (<- & _). apply Z.ltb_ge in En.
           split; [intros m' _ Hle; exact Hle | intros _; exact En].
    + apply ret_Ok in H. destruct H as (<- & _). apply Z.ltb_ge in Em.
      split; [intros m' _ Hle; exact Hle|].
      intros Hmm. specialize (Hmm m eq_refl). lia.
  - apply bind_Ok in H. destruct H as (x & s1 & _ & H).
    destruct x as [r | e1].
    + apply IH in H. destruct H as (_ & Hmin).
      split; [intros m' Hm'; discriminate | exact Hmin].
    + destruct (llen acc <? minimum) eqn:En.
      * apply bind_Ok in H. destruct H as (pos & s2 & _ & H). discriminate.
      * apply ret_Ok in H. destruct H as (<- & _). apply Z.ltb_ge in En.
        split; [intros m' Hm'; discriminate | intros _; exact En].
Qed.

(** X18. The number of results of a [Quantified].  When it returns, the
    value is the list of the results of its parser, in order, at the
    position of the first (the start position when there is none); it holds
    no more results than the maximum, and, for bounds the constructor
    accepts (minimum no more than maximum), no fewer than the minimum.  With
    a minimum of 0, as [AtLeast0] and [AtMost1] have, it never raises
    [Parser.Error]: a failure of its parser ends the repetition. *)
Theorem X18_Quantified_count (rec : Parser -> M Result) (fuel : nat) (name : string)
    (q : Parser) (minimum : Z) (maximum : option Z)
    (tr : option Transformer) (ign : list PatternID) (start : Position) (s : t) :
  (forall r s',
      _parse rec fuel (Quantified name q minimum maximum tr ign) start s = (Ok r, s') ->
      exists rs,
        r = list_result start rs
        /\ Forall (fun x => exists s1 s2, rec q s1 = (Ok x, s2)) rs
        /\ (forall m, maximum = Some m -> llen rs <= Z.max 0 m)
        /\ ((forall m, maximum = Some m -> minimum <= m) -> minimum <= llen rs))
  /\ (minimum <= 0 ->
      forall e s',
        _parse rec fuel (Quantified name q minimum maximum tr ign) start s
        <> (Raise e, s')).
Proof.
  cbn [_parse]. split.
  - intros r s' H. apply bind_Ok in H. destruct H as (rs & s1 & Hl & H).
    apply ret_Ok in H. destruct H as (<- & _).
    destruct (Quantified_loop_results rec fuel q minimum maximum [] s rs s1 Hl)
      as (new & Hn & Hf).
    cbn [app] in Hn. subst new.
    destruct (Quantified_loop_count rec q minimum maximum fuel [] s rs s1 Hl)
      as (Hmax & Hmin).
    exists rs. split; [reflexivity | split; [exact Hf | split; [|exact Hmin]]].
    intros m Hm. apply (Hmax m Hm). change (llen []) with 0. lia.
  - intros Hmin e s' H. apply bind_Raise in H.
    destruct H as [H | (rs & s1 & _ & H)]; [|discriminate].
    exact (Quantified_loop_no_raise rec q minimum maximum Hmin fuel [] s e s' H).
Qed.

Section Repetition.

Variable table : string -> option Parser.

(** X19. A [Quantified] stops at its maximum: when its parser returns as
    many times in a row as the maximum allows, the [Quantified] returns those
    results and leaves the stream where the last of them left it, without
    trying its parser once more. *)
Theorem X19_Quantified_maximum (name : string) (q : Parser) (minimum m : Z)
    (tr : option Transformer) (ign : list PatternID) (start : Position)
    (s : t) (rs : list Result) (sk : t) :
  repeats table q s rs sk ->
  llen rs = m ->
  exists F,
    forall fuel, (F <= fuel)%nat ->
      _parse (parse table fuel) fuel (Quantified name q minimum (Some m) tr ign) start s
      = (Ok (list_result start rs), sk).
Proof.
  intros Hrep Hm.
  destruct (Quantified_loop_maximum table q minimum m s rs sk Hrep) as (F & HF).
  exists (Nat.max F (S (List.length rs))). intros fuel Hf. cbn [_parse].
  assert (Hl : Quantified_loop (parse table fuel) fuel q minimum (Some m) [] s
               = (Ok ([] ++ rs), sk)) by (apply HF; [lia | lia | exact Hm]).
  rewrite (bind_Ok_fwd _ _ _ _ _ Hl). reflexivity.
Qed.

End Repetition.

Lemma X19_Quantified_maximum_witness :
  exists F,
    forall fuel, (F <= fuel)%nat ->
      _parse (parse Examples.no_table fuel) fuel
             (AtMost1 "opt" Examples.term_a None []) (mkPosition 1 1) Examples.ts_ab
      = (Ok (list_result (mkPosition 1 1) [Examples.result_a]), Examples.ts_ab_1).
Proof.
  apply (X19_Quantified_maximum Examples.no_table "opt" Examples.term_a 0 1 None []
           (mkPosition 1 1) Examples.ts_ab [Examples.result_a] Examples.ts_ab_1).
  - apply (@repeats_cons _ _ _ _ Examples.ts_ab_1 _ _ 3%nat); [|apply repeats_nil].
    apply pair_eq; [vm_compute; reflexivity | unfold Examples.ts_ab_1; reflexivity].
  - reflexivity.
Defined.

(** ** The cursor only moves forward *)

Lemma onward_ret {A : Type} (a : A) : onward (ret a).
Proof. intros s o s' _ H. injection H as <- <-. lia. Qed.

Lemma onward_raise {A : Type} (e : Error) : onward (@raise A e).
Proof. intros s o s' _ H. injection H as <- <-. lia. Qed.

Lemma onward_lift {A : Type} (x : outcome A) : onward (lift x).
Proof. intros s o s' _ H. injection H as <- <-. destruct x; try exact I; lia. Qed.

Lemma onward_timeout {A : Type} : onward (fun s => (@Timeout A, s)).
Proof. intros s o s' _ H. injection H as <- <-. exact I. Qed.

Lemma onward_bind {A B : Type} (m : M A) (k : A -> M B) :
  stable m -> onward m -> (forall a, onward (k a)) -> onward (bind m k).
Proof.
  intros Hst Hm Hk s o s' Hi H. unfold bind in H.
  destruct (m s) as (o1 & s1) eqn:E.
  destruct (Hst s o1 s1 Hi E) as (Hi1 & _).
  pose proof (Hm s o1 s1 Hi E) as H1.
  destruct o1 as [a | e | w |].
  - pose proof (Hk a s1 o s' Hi1 H) as H2. destruct o; try exact I; lia.
  - injection H as <- <-. exact H1.
  - injection H as <- <-. exact I.
  - injection H as <- <-. exact I.
Qed.

Lemma onward_catch {A : Type} (m : M A) : onward m -> onward (catch m).
Proof.
  intros Hm s o s' Hi H. unfold catch in H.
  destruct (m s) as (o1 & s1) eqn:E. pose proof (Hm s o1 s1 Hi E) as H1.
  destruct o1; injection H as <- <-; exact H1.
Qed.

Lemma Get_offset_le (fuel : nat) :
  forall ts o ts', ts_inv ts -> Get fuel ts = (o, ts') -> offset ts <= offset ts'.
Proof.
  induction fuel as [|fuel IH]; intros ts o ts' Hi H.
  - injection H as _ <-. lia.
  - rewrite Get_S in H.
    pose proof (fill_offset ts Hi) as Hfo. pose proof (fill_in_cache ts Hi) as Hfc.
    destruct (ext_fill ts Hi) as (Hign & _).
    destruct (py_index (tokens (fill ts)) (offset (fill ts))) as [token|].
    + cbv zeta in H.
      set (ts2 := set_offset (fill ts)
                    (if IsEOS (fill ts) then llen (tokens (fill ts)) - 1
                     else offset (fill ts) + 1)) in *.
      assert (Hi2 : ts_inv ts2).
      { apply inv_advance.
        - destruct Hi as ((? & ?) & _). lia.
        - rewrite Hign. destruct Hi as (_ & _ & H3). exact H3. }
      assert (Hle : offset ts <= offset ts2).
      { subst ts2. cbn [set_offset offset]. destruct (IsEOS (fill ts)); lia. }
      destruct (str_in (patternID token) (ignores ts2)).
      * pose proof (IH ts2 o ts' Hi2 H). lia.
      * injection H as _ <-. exact Hle.
    + injection H as _ <-. lia.
Qed.

Lemma onward_Get (fuel : nat) : onward (Get fuel).
Proof.
  intros s o s' Hi H. pose proof (Get_offset_le fuel s o s' Hi H).
  destruct o; try exact I; assumption.
Qed.

Lemma onward_Peek (fuel : nat) : onward (Peek fuel).
Proof.
  intros s o s' Hi H. unfold Peek in H.
  destruct (Get fuel s) as (o1 & s1) eqn:E.
  pose proof (Get_offset_le fuel s o1 s1 Hi E) as Hle.
  destruct o1; injection H as <- <-; try exact I; cbn [set_offset offset]; lia.
Qed.

Lemma onward_GetPosition (fuel : nat) : onward (GetPosition fuel).
Proof.
  intros s o s' Hi H. unfold GetPosition in H.
  destruct (Peek fuel s) as (o1 & s1) eqn:E.
  pose proof (onward_Peek fuel s o1 s1 Hi E) as Hle.
  destruct o1; injection H as <- <-; exact Hle.
Qed.

Lemma onward_skip_ignores (fuel : nat) (ign : list PatternID) :
  onward (skip_ignores fuel ign).
Proof.
  induction fuel as [|fuel IH]; cbn [skip_ignores].
  - apply onward_timeout.
  - apply onward_bind; [apply stable_Peek | apply onward_Peek|]. intros tok.
    destruct (str_in (patternID tok) ign); [|apply onward_ret].
    apply onward_bind; [apply stable_Get | apply onward_Get | intros _; exact IH].
Qed.

Lemma onward_Terminal_parse (fuel : nat) (pid : PatternID) (v : option string) :
  onward (Terminal_parse fuel pid v).
Proof.
  unfold Terminal_parse.
  apply onward_bind; [apply stable_Get | apply onward_Get|]. intros token.
  destruct (negb (patternID token =? pid)%string); [apply onward_raise|].
  destruct v as [v|]; [|apply onward_ret].
  destruct (negb (value token =? v)%string); [apply onward_raise | apply onward_ret].
Qed.

Section Forward.

Variable rec : Parser -> M Result.
Hypothesis rec_stable : forall q, stable (rec q).
Hypothesis rec_onward : forall q, onward (rec q).

Lemma onward_Sequence_loop (ps : list Parser) :
  forall results, onward (Sequence_loop rec ps results).
Proof.
  induction ps as [|p ps IH]; intros results; cbn [Sequence_loop].
  - apply onward_ret.
  - apply onward_bind; [apply rec_stable | apply rec_onward | intros r; apply IH].
Qed.

Lemma onward_Choice_loop (tag : bool) (ps : list Parser) :
  onward (Choice_loop rec tag ps).
Proof.
  induction ps as [|p ps IH]; cbn [Choice_loop].
  - apply onward_ret.
  - apply onward_bind;
      [apply stable_catch, rec_stable | apply onward_catch, rec_onward|].
    intros [result | e]; [apply onward_ret | exact IH].
Qed.

Lemma onward_Quantified_loop (fuel : nat) (q : Parser) (minimum : Z) (maximum : option Z) :
  forall results, onward (Quantified_loop rec fuel q minimum maximum results).
Proof.
  induction fuel as [|fuel IH]; intros results; cbn [Quantified_loop].
  - apply onward_timeout.
  - destruct (match maximum with None => true | Some m => llen results <? m end);
      [|apply onward_ret].
    apply onward_bind;
      [apply stable_catch, rec_stable | apply onward_catch, rec_onward|].
    intros [r | e]; [apply IH|].
    destruct (llen results <? minimum); [|apply onward_ret].
    apply onward_bind;
      [apply stable_GetPosition | apply onward_GetPosition
       | intros pos; apply onward_raise].
Qed.

Lemma onward__parse (fuel : nat) (p : Parser) (start : Position) :
  onward (_parse rec fuel p start).
Proof.
  destruct p; cbn [_parse].
  - apply onward_Terminal_parse.
  - apply onward_bind;
      [apply stable_Sequence_loop, rec_stable | apply onward_Sequence_loop
       | intros; apply onward_ret].
  - apply onward_bind;
      [apply stable_Choice_loop, rec_stable | apply onward_Choice_loop|].
    intros [r|]; [apply onward_ret | apply onward_raise].
  - apply onward_bind;
      [apply stable_Quantified_loop, rec_stable | apply onward_Quantified_loop
       | intros; apply onward_ret].
  - apply onward_bind;
      [apply stable_catch, rec_stable | apply onward_catch, rec_onward|].
    intros [r | e]; apply onward_ret.
  - apply onward_lift.
Qed.

Lemma onward_Parser_parse (fuel : nat) (p : Parser) : onward (Parser_parse rec fuel p).
Proof.
  intros s o s' Hi H. destruct o as [r | e | w |]; try exact I.
  - apply Parser_parse_Ok in H.
    destruct H as (s1 & start & s2 & raw & v & H1 & H2 & H3 & _).
    destruct (stable_skip_ignores fuel _ s _ s1 Hi H1) as (Hi1 & _).
    destruct (stable_GetPosition fuel s1 _ s2 Hi1 H2) as (Hi2 & _).
    pose proof (onward_skip_ignores fuel _ s _ s1 Hi H1) as L1.
    pose proof (onward_GetPosition fuel s1 _ s2 Hi1 H2) as L2.
    pose proof (onward__parse fuel p start s2 _ s' Hi2 H3) as L3.
    cbv beta iota in L1, L2, L3. lia.
  - destruct (Parser_parse_raise rec rec_stable fuel p s e s' Hi H) as (Ho & _).
    unfold GetOffset in Ho. lia.
Qed.

End Forward.

Section Progress.

Variable table : string -> option Parser.

Lemma parse_onward (fuel : nat) : forall p, onward (parse table fuel p).
Proof.
  induction fuel as [|fuel IH]; intros p.
  - apply onward_timeout.
  - rewrite parse_S.
    destruct p as [n pid v tr ign | n ps tr ign | n ps tag tr ign
                   | n q mn mx tr ign | n v sp tr ign | n key];
      try (apply onward_Parser_parse; [intros q'; apply parse_stable | exact IH]).
    cbn [parse_body]. destruct (table key) as [q|]; [apply IH|].
    intros s o s' _ H. injection H as <- <-. exact I.
Qed.

(** X20. [parse] never moves the cursor back.  When it returns, the cursor
    is where it was at the call or further on, still within the cache or
    just past it, and the cache has only been appended to, whatever the
    parser and its sub-parsers tried and undid in between. *)
Theorem X20_parse_moves_forward (fuel : nat) (p : Parser) (s : t) (r : Result) (s' : t) :
  ts_inv s ->
  parse table fuel p s = (Ok r, s') ->
  GetOffset s <= GetOffset s'
  /\ GetOffset s' <= llen (tokens s')
  /\ (IsEOS s' = true -> GetOffset s' < llen (tokens s'))
  /\ exists l, tokens s' = tokens s ++ l.
Proof.
  intros Hi H.
  pose proof (parse_onward fuel p s (Ok r) s' Hi H) as Hle.
  destruct (parse_stable table fuel p s (Ok r) s' Hi H)
    as (((_ & Hb) & He & _) & (_ & l & Hl & _)).
  unfold GetOffset. split; [exact Hle | split; [exact Hb | split; [exact He|]]].
  exists l. exact Hl.
Qed.

End Progress.

Lemma X20_parse_moves_forward_witness :
  GetOffset Examples.ts_ab <= GetOffset Examples.ts_ab_1
  /\ GetOffset Examples.ts_ab_1 <= llen (tokens Examples.ts_ab_1)
  /\ (IsEOS Examples.ts_ab_1 = true
      -> GetOffset Examples.ts_ab_1 < llen (tokens Examples.ts_ab_1))
  /\ exists l, tokens Examples.ts_ab_1 = tokens Examples.ts_ab ++ l.
Proof.
  apply (X20_parse_moves_forward Examples.no_table 3 Examples.term_a Examples.ts_ab
           Examples.result_a Examples.ts_ab_1 ts_inv_ts_ab).
  apply pair_eq; [vm_compute; reflexivity | unfold Examples.ts_ab_1; reflexivity].
Defined.

(** ** Errors *)

Lemma string_app_assoc (a b c : string) : ((a ++ b) ++ c = a ++ (b ++ c))%string.
Proof. induction a as [|x a IH]; cbn [append]; [reflexivity | rewrite IH; reflexivity]. Qed.

(** X21. Combined errors read top down.  The text of [Combine e1 e2] is the
    text of [e1], a line feed, and the text of [e2]; its position is that of
    [e1]; and combining is associative, so a chain of errors reads the same
    however it was nested. *)
Theorem X21_Combine (e1 e2 e3 : Error) :
  ParserError.str (ParserError.Combine e1 e2)
  = (ParserError.str e1 ++ String newline EmptyString ++ ParserError.str e2)%string
  /\ err_position (ParserError.Combine e1 e2) = err_position e1
  /\ ParserError.Combine (ParserError.Combine e1 e2) e3
     = ParserError.Combine e1 (ParserError.Combine e2 e3).
Proof.
  split; [|split; [reflexivity|]].
  - unfold ParserError.str, ParserError.Combine. cbn [err_position err_msg].
    rewrite !string_app_assoc. reflexivity.
  - unfold ParserError.Combine, ParserError.str. cbn [err_position err_msg].
    f_equal. rewrite !string_app_assoc. reflexivity.
Qed.

Section Wrapped.

Variable table : string -> option Parser.

Lemma Parser_parse_raise_shape (rec : Parser -> M Result) (fuel : nat) (p : Parser)
    (s : t) (e : Error) (s' : t) :
  (forall q, stable (rec q)) -> ts_inv s ->
  Parser_parse rec fuel p s = (Raise e, s') ->
  exists pos e0, e = ParserError.Combine (mkError pos (unable_to_parse p)) e0.
Proof.
  intros Hrec Hi H. unfold Parser_parse in H. cbv zeta in H.
  apply bind_Raise in H. destruct H as [H | (x & sb & Hc & H)].
  - unfold catch in H.
    match type of H with
    | match ?m s with _ => _ end = _ => destruct (m s) as ([r | e1 | w |] & s1)
    end; discriminate.
  - destruct x as [r | e0]; [discriminate|].
    apply bind_Raise in H. destruct H as [H | (pos & s2 & _ & H)].
    + exfalso.
      assert (Hib : ts_inv sb).
      { exact (proj1 (stable_catch _ (stable_attempt rec Hrec fuel p) s _ sb Hi Hc)). }
      destruct (SetOffset_inv sb (GetOffset s) Hib) as (Hi2 & _).
      exact (proj2 (proj2 (GetPosition_inv fuel _ _ _ Hi2 H))).
    + exists pos, e0. unfold raise in H. injection H as <- _. reflexivity.
Qed.

(** X22. Every [Parser.Error] that leaves [parse] is wrapped by the parser
    that raises it: it is the combination of "Unable to parse" followed by
    the name of the node (the node a [Lazy] stands for, not the [Lazy]
    itself), at a position of the stream, with the error that made the node
    fail.  [parse] never lets the bare inner error through. *)
Theorem X22_errors_are_wrapped (fuel : nat) (p : Parser) (s : t) (e : Error) (s' : t) :
  ts_inv s ->
  parse table fuel p s = (Raise e, s') ->
  exists p' pos e0,
    resolves table p p'
    /\ e = ParserError.Combine (mkError pos (unable_to_parse p')) e0
    /\ ParserError.str e
       = ("Error @ " ++ Position_str pos ++ ": Unable to parse " ++ GetName p'
          ++ String newline EmptyString ++ ParserError.str e0)%string.
Proof.
  revert p. induction fuel as [|fuel IH]; intros p Hi H; [discriminate|].
  rewrite parse_S in H.
  assert (Hnode : (forall n k, p <> Lazy n k) ->
                  exists p' pos e0,
                    resolves table p p'
                    /\ e = ParserError.Combine (mkError pos (unable_to_parse p')) e0
                    /\ ParserError.str e
                       = ("Error @ " ++ Position_str pos ++ ": Unable to parse "
                          ++ GetName p' ++ String newline EmptyString
                          ++ ParserError.str e0)%string).
  { intros Hn. rewrite (parse_body_node table _ fuel p Hn) in H.
    destruct (Parser_parse_raise_shape _ fuel p s e s' (parse_stable table fuel) Hi H)
      as (pos & e0 & ->).
    exists p, pos, e0.
    split; [constructor; exact Hn | split; [reflexivity|]].
    unfold ParserError.str at 1, ParserError.Combine, unable_to_parse.
    cbn [err_position err_msg]. rewrite !string_app_assoc. reflexivity. }
  destruct p as [n pid v tr ign | n ps tr ign | n ps tag tr ign
                 | n q mn mx tr ign | n v sp tr ign | n key];
    try (apply Hnode; intros; discriminate).
  cbn [parse_body] in H. destruct (table key) as [q|] eqn:Ek; [|discriminate].
  destruct (IH q Hi H) as (p' & pos & e0 & Hr & He & Hs).
  exists p', pos, e0. split; [econstructor; eassumption | auto].
Qed.

End Wrapped.

Lemma X22_errors_are_wrapped_witness :
  exists p' pos e0,
    resolves Examples.no_table Examples.seq_aa p'
    /\ Examples.error_aa = ParserError.Combine (mkError pos (unable_to_parse p')) e0
    /\ ParserError.str Examples.error_aa
       = ("Error @ " ++ Position_str pos ++ ": Unable to parse " ++ GetName p'
          ++ String newline EmptyString ++ ParserError.str e0)%string.
Proof.
  apply (X22_errors_are_wrapped Examples.no_table 5 Examples.seq_aa Examples.ts_ab
           Examples.error_aa Examples.ts_ab_failed ts_inv_ts_ab).
  apply pair_eq; [vm_compute; reflexivity | unfold Examples.ts_ab_failed; reflexivity].
Defined.

(** ** Terminal *)

(** When the skipping loop of [Parser.parse] returns, the stream is as a
    [Peek] left it, and the token that [Peek] showed is not one the parser
    ignores. *)
Lemma skip_ignores_end (fuel : nat) (ign : list PatternID) :
  forall s s1,
    ts_inv s -> skip_ignores fuel ign s = (Ok tt, s1) ->
    exists f0 s0 tk,
      ts_inv s0 /\ ignores s0 = ignores s
      /\ Peek f0 s0 = (Ok tk, s1) /\ str_in (patternID tk) ign = false.
Proof.
  induction fuel as [|fuel IH]; intros s s1 Hi H; [discriminate|].
  cbn [skip_ignores] in H. apply bind_Ok in H. destruct H as (tk & sA & HP & H).
  destruct (str_in (patternID tk) ign) eqn:Eg.
  - apply bind_Ok in H. destruct H as (tk' & sB & HG & H).
    destruct (Peek_inv fuel s _ sA Hi HP) as (HiA & (HgA & _) & _).
    destruct (Get_inv fuel sA _ sB HiA HG) as (HiB & (HgB & _) & _).
    destruct (IH sB s1 HiB H) as (f0 & s0 & tk0 & Hi0 & Hg0 & HP0 & Hn0).
    exists f0, s0, tk0. split; [exact Hi0 | split; [congruence | auto]].
  - apply ret_Ok in H. destruct H as (_ & <-).
    exists fuel, s, tk. auto.
Qed.

Lemma skip_ignores_no_raise (fuel : nat) (ign : list PatternID) (s : t) (e : Error) (s' : t) :
  ts_inv s -> skip_ignores fuel ign s <> (Raise e, s').
Proof. intros Hi H. exact (skip_ignores_ok fuel ign s _ s' Hi H). Qed.

Lemma Get_no_raise (fuel : nat) (s : t) (e : Error) (s' : t) :
  ts_inv s -> Get fuel s <> (Raise e, s').
Proof. intros Hi H. exact (proj2 (proj2 (Get_inv fuel s _ s' Hi H))). Qed.

Lemma GetPosition_no_raise (fuel : nat) (s : t) (e : Error) (s' : t) :
  ts_inv s -> GetPosition fuel s <> (Raise e, s').
Proof. intros Hi H. exact (proj2 (proj2 (GetPosition_inv fuel s _ s' Hi H))). Qed.

(** The text a [Terminal] puts in its error for the token it found. *)
Lemma Terminal_parse_cases (fuel : nat) (pid : PatternID) (v : option string)
    (s : t) (o : outcome Result) (s' : t) (tok : Token) (s1 : t) :
  Get fuel s = (Ok tok, s1) ->
  Terminal_parse fuel pid v s = (o, s') ->
  s' = s1
  /\ ((patternID tok = pid /\ (forall x, v = Some x -> value tok = x)
       /\ o = Ok (mkResult (position tok) (VStr (value tok))))
      \/ (patternID tok <> pid
          /\ o = Raise (ParserError.Expectation
                          (match v with
                           | Some x => pid ++ "(" ++ x ++ ")"
                           | None => ""
                           end)%string
                          (patternID tok
                           ++ (if String.eqb (value tok) "" then ""
                               else "(" ++ value tok ++ ")"))%string
                          (position tok)))
      \/ (patternID tok = pid
          /\ exists x, v = Some x /\ value tok <> x
             /\ o = Raise (ParserError.Expectation x (value tok) (position tok)))).
Proof.
  intros HG H. unfold Terminal_parse in H. rewrite (bind_Ok_fwd _ _ _ _ _ HG) in H.
  destruct (String.eqb (patternID tok) pid) eqn:Ep; cbn [negb] in H.
  - apply String.eqb_eq in Ep. destruct v as [x|].
    + destruct (String.eqb (value tok) x) eqn:Ev; cbn [negb] in H.
      * apply String.eqb_eq in Ev. injection H as <- <-.
        split; [reflexivity | left]. split; [exact Ep | split; [|reflexivity]].
        intros y Hy. injection Hy as <-. exact Ev.
      * apply String.eqb_neq in Ev. injection H as <- <-.
        split; [reflexivity | right; right]. split; [exact Ep|].
        exists x. auto.
    + injection H as <- <-. split; [reflexivity | left].
      split; [exact Ep | split; [intros y Hy; discriminate | reflexivity]].
  - apply String.eqb_neq in Ep. injection H as <- <-.
    split; [reflexivity | right; left]. split; [exact Ep|].
    destruct (String.eqb (value tok) ""); reflexivity.
Qed.

Section Terminals.

Variable table : string -> option Parser.

(** X24. What a [Terminal] accepts.  When [parse] of a [Terminal] returns,
    there is a token in the cache with the pattern id of the terminal (and
    its value, when the terminal has one); the result has the position of
    that token and the transformer's image of its value.  The token is
    neither ignored by the stream nor by the parser: a [Terminal] for a
    pattern id that the stream or the parser itself ignores never
    returns. *)
Theorem X24_Terminal_accepts (fuel : nat) (name : string) (pid : PatternID)
    (v : option string) (tr : option Transformer) (ign : list PatternID)
    (s : t) (r : Result) (s' : t) :
  ts_inv s ->
  parse table fuel (Terminal name pid v tr ign) s = (Ok r, s') ->
  exists tok,
    In tok (tokens s')
    /\ patternID tok = pid
    /\ (forall x, v = Some x -> value tok = x)
    /\ res_position r = position tok
    /\ Parser_transformer (Terminal name pid v tr ign) (VStr (value tok))
       = Ok (res_value r)
    /\ str_in pid (ignores s) = false
    /\ str_in pid ign = false.
Proof.
  intros Hi H.
  apply parse_Ok_fuel in H. destruct H as (f & -> & H). cbn [parse_body] in H.
  apply Parser_parse_Ok in H.
  destruct H as (s1 & start & s2 & raw & x & H1 & H2 & H3 & H4 & ->).
  cbn [Parser_ignores] in H1. cbn [_parse] in H3.
  destruct (skip_ignores_end f ign s s1 Hi H1) as (f0 & s0 & tk & Hi0 & Hg0 & HP0 & Hn0).
  destruct (Peek_inv f0 s0 _ s1 Hi0 HP0) as (Hi1 & _ & _ & _ & Hns).
  destruct (TokenStreamLaws.Peek_again f0 s0 tk s1 Hi0 HP0) as (_ & F & HF).
  destruct (HF F (Nat.le_refl F)) as ((a2 & HG) & HP).
  (* [GetPosition] peeks at the same token and changes nothing *)
  unfold GetPosition in H2. destruct (Peek f s1) as (o2 & sp) eqn:E2.
  assert (Hs2 : s2 = s1).
  { destruct o2 as [tk2 | e2 | w2 |]; try discriminate.
    destruct (TokenStreamLaws.Peek_same F f s1 tk s1 _ sp HP E2) as (_ & Hsp);
      [discriminate|].
    injection H2 as _ <-. exact Hsp. }
  subst s2.
  (* [Get] returns that token *)
  unfold Terminal_parse in H3. pose proof H3 as H3'.
  apply bind_Ok in H3'. destruct H3' as (tok & sg & HG' & _).
  destruct (TokenStreamLaws.Get_same F f s1 tk a2 _ sg HG HG') as (Ht & _);
    [discriminate|].
  injection Ht as ->.
  destruct (Terminal_parse_cases f pid v s1 _ s' tk sg HG' H3)
    as (-> & [(Hp & Hv & Ho) | [(_ & Ho) | (_ & y & _ & _ & Ho)]]);
    try discriminate.
  injection Ho as ->.
  exists tk. split; [exact (TokenStreamLaws.Get_In f s1 tk sg HG')|].
  split; [exact Hp | split; [exact Hv | split; [reflexivity | split; [exact H4|]]]].
  rewrite <- Hp, <- Hg0. auto.
Qed.

Lemma Parser_parse_Raise_inv (rec : Parser -> M Result) (fuel : nat) (p : Parser)
    (s : t) (e : Error) (s' : t) :
  (forall q, stable (rec q)) -> ts_inv s ->
  Parser_parse rec fuel p s = (Raise e, s') ->
  exists e0 sb pos,
    (_ <- skip_ignores fuel (Parser_ignores p) ;;
     start <- GetPosition fuel ;;
     result <- _parse rec fuel p start ;;
     v <- lift (Parser_transformer p (res_value result)) ;;
     ret (mkResult (res_position result) v)) s = (Raise e0, sb)
    /\ e = ParserError.Combine (mkError pos (unable_to_parse p)) e0.
Proof.
  intros Hrec Hi H. unfold Parser_parse in H. cbv zeta in H.
  apply bind_Raise in H. destruct H as [H | (x & sb & Hc & H)].
  - unfold catch in H.
    match type of H with
    | match ?m s with _ => _ end = _ => destruct (m s) as ([r | e1 | w |] & s1)
    end; discriminate.
  - destruct x as [r | e0]; [discriminate|].
    apply catch_Ok in Hc.
    apply bind_Raise in H. destruct H as [H | (pos & s2 & _ & H)].
    + exfalso.
      assert (Hib : ts_inv sb).
      { exact (proj1 (stable_attempt rec Hrec fuel p s _ sb Hi Hc)). }
      destruct (SetOffset_inv sb (GetOffset s) Hib) as (Hi2 & _).
      exact (GetPosition_no_raise fuel _ e s' Hi2 H).
    + exists e0, sb, pos. split; [exact Hc|].
      unfold raise in H. injection H as <- _. reflexivity.
Qed.

(** X25. What a [Terminal] says when it fails.  When [parse] of a
    [Terminal] raises, the error is "Unable to parse" and the name of the
    terminal combined with the reason, which speaks of the token found, one
    the parser does not ignore.  For a token of another pattern the reason
    expects the pattern id followed by the value in brackets when the
    terminal has a value, and expects the empty text when it has none, so
    that the message then names no pattern at all; for a token of the right
    pattern with another value it expects the value; otherwise it is the
    error the transformer raised. *)
Theorem X25_Terminal_rejects (fuel : nat) (name : string) (pid : PatternID)
    (v : option string) (tr : option Transformer) (ign : list PatternID)
    (s : t) (e : Error) (s' : t) :
  ts_inv s ->
  parse table fuel (Terminal name pid v tr ign) s = (Raise e, s') ->
  exists pos e0 tok,
    e = ParserError.Combine (mkError pos ("Unable to parse " ++ name)%string) e0
    /\ str_in (patternID tok) ign = false
    /\ ((patternID tok <> pid
         /\ e0 = ParserError.Expectation
                   (match v with
                    | Some x => pid ++ "(" ++ x ++ ")"
                    | None => ""
                    end)%string
                   (patternID tok
                    ++ (if String.eqb (value tok) "" then ""
                        else "(" ++ value tok ++ ")"))%string
                   (position tok))
        \/ (patternID tok = pid
            /\ exists x, v = Some x /\ value tok <> x
               /\ e0 = ParserError.Expectation x (value tok) (position tok))
        \/ (patternID tok = pid
            /\ (forall x, v = Some x -> value tok = x)
            /\ Parser_transformer (Terminal name pid v tr ign) (VStr (value tok))
               = Raise e0)).
Proof.
  intros Hi H. destruct fuel as [|f]; [discriminate|].
  rewrite parse_S in H. cbn [parse_body] in H.
  destruct (Parser_parse_Raise_inv _ f _ s e s' (parse_stable table f) Hi H)
    as (e0 & sb & pos & Ha & ->).
  exists pos, e0. cbn [Parser_ignores] in Ha.
  apply bind_Raise in Ha. destruct Ha as [Ha | ([] & s1 & H1 & Ha)];
    [exfalso; exact (skip_ignores_no_raise f ign s e0 sb Hi Ha)|].
  destruct (skip_ignores_end f ign s s1 Hi H1) as (f0 & s0 & tk & Hi0 & Hg0 & HP0 & Hn0).
  destruct (Peek_inv f0 s0 _ s1 Hi0 HP0) as (Hi1 & _).
  destruct (TokenStreamLaws.Peek_again f0 s0 tk s1 Hi0 HP0) as (_ & F & HF).
  destruct (HF F (Nat.le_refl F)) as ((a2 & HG) & HP).
  apply bind_Raise in Ha. destruct Ha as [Ha | (start & s2 & H2 & Ha)];
    [exfalso; exact (GetPosition_no_raise f s1 e0 sb Hi1 Ha)|].
  assert (Hs2 : s2 = s1).
  { unfold GetPosition in H2. destruct (Peek f s1) as (o2 & sp) eqn:E2.
    destruct o2 as [tk2 | e2 | w2 |]; try discriminate.
    destruct (TokenStreamLaws.Peek_same F f s1 tk s1 _ sp HP E2) as (_ & Hsp);
      [discriminate|].
    injection H2 as _ <-. exact Hsp. }
  subst s2. cbn [_parse] in Ha.
  exists tk. split; [reflexivity | split; [exact Hn0|]].
  assert (Hget : forall o sx, Terminal_parse f pid v s1 = (o, sx) ->
                 (forall w, o <> Crash w) -> o <> Timeout ->
                 exists sg, Get f s1 = (Ok tk, sg)).
  { intros o sx Ht Hc Hto. unfold Terminal_parse, bind in Ht.
    destruct (Get f s1) as (og & sg) eqn:Eg.
    destruct og as [tok | eg | w |].
    - destruct (TokenStreamLaws.Get_same F f s1 tk a2 _ sg HG Eg) as (Ht' & _);
        [discriminate|].
      injection Ht' as ->. exists sg. reflexivity.
    - exfalso. exact (Get_no_raise f s1 eg sg Hi1 Eg).
    - injection Ht as <- _. exfalso. exact (Hc w eq_refl).
    - injection Ht as <- _. exfalso. exact (Hto eq_refl). }
  apply bind_Raise in Ha. destruct Ha as [Ha | (raw & s3 & H3 & Ha)].
  - destruct (Hget _ _ Ha) as (sg & HG'); try discriminate.
    destruct (Terminal_parse_cases f pid v s1 _ sb tk sg HG' Ha)
      as (_ & [(_ & _ & Ho) | [(Hp & Ho) | (Hp & y & Hy & Hne & Ho)]]);
      try discriminate.
    + left. injection Ho as ->. auto.
    + right; left. injection Ho as ->. split; [exact Hp|]. exists y. auto.
  - destruct (Hget _ _ H3) as (sg & HG'); try discriminate.
    destruct (Terminal_parse_cases f pid v s1 _ s3 tk sg HG' H3)
      as (_ & [(Hp & Hv & Ho) | [(_ & Ho) | (_ & y & _ & _ & Ho)]]);
      try discriminate.
    injection Ho as ->. cbn [res_value] in Ha.
    right; right. split; [exact Hp | split; [exact Hv|]].
    apply bind_Raise in Ha. destruct Ha as [Ha | (x & s4 & _ & Ha)]; [|discriminate].
    unfold lift in Ha. injection Ha as -> _. reflexivity.
Qed.

End Terminals.

Lemma X25_Terminal_rejects_witness :
  exists pos e0 tok,
    Examples.error_b
    = ParserError.Combine (mkError pos ("Unable to parse " ++ "a")%string) e0
    /\ str_in (patternID tok) [] = false
    /\ ((patternID tok <> "A"
         /\ e0 = ParserError.Expectation
                   (match @None string with
                    | Some x => "A" ++ "(" ++ x ++ ")"
                    | None => ""
                    end)%string
                   (patternID tok
                    ++ (if String.eqb (value tok) "" then ""
                        else "(" ++ value tok ++ ")"))%string
                   (position tok))
        \/ (patternID tok = "A"
            /\ exists x, @None string = Some x /\ value tok <> x
               /\ e0 = ParserError.Expectation x (value tok) (position tok))
        \/ (patternID tok = "A"
            /\ (forall x, @None string = Some x -> value tok = x)
            /\ Parser_transformer Examples.term_a (VStr (value tok)) = Raise e0)).
Proof.
  apply (X25_Terminal_rejects Examples.no_table 3 "a" "A" None None []
           Examples.ts_ab_1 Examples.error_b Examples.ts_ab_2).
  - exact (proj1 (parse_stable Examples.no_table 3 Examples.term_a Examples.ts_ab
                    (Ok Examples.result_a) Examples.ts_ab_1 ts_inv_ts_ab
                    ltac:(apply pair_eq; [vm_compute; reflexivity
                                         | unfold Examples.ts_ab_1; reflexivity]))).
  - apply pair_eq; [vm_compute; reflexivity | unfold Examples.ts_ab_2; reflexivity].
Defined.

Lemma X24_Terminal_accepts_witness :
  exists tok,
    In tok (tokens Examples.ts_ab_1)
    /\ patternID tok = "A"
    /\ (forall x, @None string = Some x -> value tok = x)
    /\ res_position Examples.result_a = position tok
    /\ Parser_transformer Examples.term_a (VStr (value tok))
       = Ok (res_value Examples.result_a)
    /\ str_in "A" (ignores Examples.ts_ab) = false
    /\ str_in "A" [] = false.
Proof.
  apply (X24_Terminal_accepts Examples.no_table 3 "a" "A" None None [] Examples.ts_ab
           Examples.result_a Examples.ts_ab_1 ts_inv_ts_ab).
  apply pair_eq; [vm_compute; reflexivity | unfold Examples.ts_ab_1; reflexivity].
Defined.

(** ** A repetition that does not advance *)

Section Spinning.

Variable table : string -> option Parser.

Lemma parse_fixed (f : nat) (q : Parser) (s : t) (r : Result) :
  parse table f q s = (Ok r, s) ->
  forall fr o s', parse table fr q s = (o, s') ->
                  o = Timeout \/ (o = Ok r /\ s' = s).
Proof.
  intros H fr o s' H'.
  destruct o as [r' | e | w |]; [right | right | right | left; reflexivity].
  all: pose proof (parse_more table f (Nat.max f fr) q s _ s H
                     ltac:(discriminate) (Nat.le_max_l f fr)) as A;
       pose proof (parse_more table fr (Nat.max f fr) q s _ s' H'
                     ltac:(discriminate) (Nat.le_max_r f fr)) as B;
       rewrite A in B; injection B as <- <-; auto.
Qed.

Lemma Quantified_loop_spins (f : nat) (q : Parser) (s : t) (r : Result)
    (fr : nat) (minimum : Z) :
  parse table f q s = (Ok r, s) ->
  forall fl acc,
    fst (Quantified_loop (parse table fr) fl q minimum None acc s) = Timeout.
Proof.
  intros H. induction fl as [|fl IH]; intros acc; cbn [Quantified_loop]; [reflexivity|].
  unfold bind at 1, catch.
  destruct (parse table fr q s) as (o & s') eqn:E.
  destruct (parse_fixed f q s r H fr o s' E) as [-> | (-> & ->)];
    [reflexivity | apply IH].
Qed.

(** X27. A repetition that does not advance never ends.  When a parser
    returns and leaves the stream exactly as it found it, a [Quantified]
    without maximum over that parser never returns from that state: it calls
    the parser again and again, collecting results without end. *)
Theorem X27_Quantified_spins (f : nat) (q : Parser) (s : t) (r : Result)
    (name : string) (minimum : Z) (tr : option Transformer) (ign : list PatternID)
    (start : Position) :
  parse table f q s = (Ok r, s) ->
  forall fuel,
    fst (_parse (parse table fuel) fuel (Quantified name q minimum None tr ign) start s)
    = Timeout.
Proof.
  intros H fuel. cbn [_parse]. unfold bind.
  pose proof (Quantified_loop_spins f q s r fuel minimum H fuel []) as Hl.
  destruct (Quantified_loop (parse table fuel) fuel q minimum None [] s) as (o & s').
  cbn [fst] in Hl. subst o. reflexivity.
Qed.

(** A [Sequence] of no parser returns at once, on a stream that was peeked
    at. *)
Lemma parse_empty_Sequence (name : string) (F : nat) (s : t) (tok : Token) :
  Peek F s = (Ok tok, s) ->
  parse table (S (S F)) (Sequence name [] None []) s
  = (Ok (mkResult (position tok) (VList [])), s).
Proof.
  intros HP.
  assert (HP' : Peek (S F) s = (Ok tok, s)).
  { replace (S F) with (F + 1)%nat by lia. apply Peek_mono; [exact HP | discriminate]. }
  rewrite parse_S. cbn [parse_body]. unfold Parser_parse. cbv zeta.
  cbn [Parser_ignores skip_ignores].
  unfold bind at 1. unfold catch.
  unfold bind at 1. unfold bind at 1. rewrite HP.
  cbn [str_in existsb]. unfold ret at 1.
  unfold bind at 1. unfold GetPosition. rewrite HP'.
  cbn [_parse Sequence_loop]. reflexivity.
Qed.

End Spinning.

Lemma X27_Quantified_spins_witness :
  fst (_parse (parse Examples.no_table 1000) 1000
              (AtLeast0 "loop" (Sequence "nothing" [] None []) None [])
              (mkPosition 1 1) (snd (Peek 1 Examples.ts_ab)))
  = Timeout.
Proof.
  assert (HP : Peek 1 Examples.ts_ab
               = (Ok (mkToken "A" (mkPosition 1 1) "a"), snd (Peek 1 Examples.ts_ab)))
    by (apply pair_eq; [vm_compute; reflexivity | reflexivity]).
  destruct (TokenStreamLaws.Peek_again 1 Examples.ts_ab _ _ ts_inv_ts_ab HP)
    as (_ & F & HF).
  destruct (HF F (Nat.le_refl F)) as (_ & HP1).
  exact (X27_Quantified_spins Examples.no_table (S (S F)) (Sequence "nothing" [] None [])
           (snd (Peek 1 Examples.ts_ab)) _ "loop" 0 None [] (mkPosition 1 1)
           (parse_empty_Sequence Examples.no_table "nothing" F _ _ HP1) 1000%nat).
Defined.

(** ** Exceptions that are not parse errors *)

Lemma Sequence_loop_Crash (rec : Parser -> M Result) (w : string)
    (pre : list Parser) (q : Parser) (post : list Parser) :
  forall acc s rs s1 s',
    threads rec pre s rs s1 -> rec q s1 = (Crash w, s') ->
    Sequence_loop rec (pre ++ q :: post) acc s = (Crash w, s').
Proof.
  induction pre as [|p pre IH]; intros acc s rs s1 s' Ht Hq; cbn [app Sequence_loop].
  - inversion Ht; subst. unfold bind. rewrite Hq. reflexivity.
  - inversion Ht as [|? ? ? r s2 rs0 ? Hr Ht']; subst.
    rewrite (bind_Ok_fwd _ _ _ _ _ Hr). exact (IH _ _ _ _ _ Ht' Hq).
Qed.

Lemma Choice_loop_Crash (rec : Parser -> M Result) (w : string) (tag : bool)
    (pre : list Parser) (q : Parser) (post : list Parser) :
  forall s s1 s',
    rejected rec pre s s1 -> rec q s1 = (Crash w, s') ->
    Choice_loop rec tag (pre ++ q :: post) s = (Crash w, s').
Proof.
  induction pre as [|p pre IH]; intros s s1 s' Hr Hq; cbn [app Choice_loop].
  - inversion Hr; subst. unfold bind, catch. rewrite Hq. reflexivity.
  - inversion Hr as [|? ? ? e s2 ? Hp Hr']; subst.
    rewrite (bind_Ok_fwd _ _ _ _ _ (catch_Raise_fwd _ _ _ _ Hp)).
    exact (IH _ _ _ Hr' Hq).
Qed.

(** X28. Only [Parser.Error] is caught.  An exception of another kind (a
    KeyError from the thunk of a [Lazy], whatever a transformer raises)
    passes through every combinator: a [Sequence], a [Choice] and a
    [Separated] raise it as soon as one of their parsers does, the [Choice]
    without trying its remaining alternatives and the [Separated] without
    turning it into an empty list; and [parse] lets it through without
    putting the cursor back. *)
Theorem X28_other_exceptions_pass (rec : Parser -> M Result) (fuel : nat)
    (start : Position) (w : string) :
  (forall name pre q post tr ign s rs s1 s',
      threads rec pre s rs s1 -> rec q s1 = (Crash w, s') ->
      _parse rec fuel (Sequence name (pre ++ q :: post) tr ign) start s = (Crash w, s'))
  /\ (forall name pre q post tag tr ign s s1 s',
      rejected rec pre s s1 -> rec q s1 = (Crash w, s') ->
      _parse rec fuel (Choice name (pre ++ q :: post) tag tr ign) start s = (Crash w, s'))
  /\ (forall name v sp tr ign s s',
      rec (Separated_parser name v sp ign) s = (Crash w, s') ->
      _parse rec fuel (Separated name v sp tr ign) start s = (Crash w, s'))
  /\ (forall p s s1 st s2 s3,
      skip_ignores fuel (Parser_ignores p) s = (Ok tt, s1) ->
      GetPosition fuel s1 = (Ok st, s2) ->
      (_parse rec fuel p st s2 = (Crash w, s3)
       \/ exists raw, _parse rec fuel p st s2 = (Ok raw, s3)
                      /\ Parser_transformer p (res_value raw) = Crash w) ->
      Parser_parse rec fuel p s = (Crash w, s3)).
Proof.
  split; [|split; [|split]].
  - intros name pre q post tr ign s rs s1 s' Ht Hq. cbn [_parse]. unfold bind at 1.
    rewrite (Sequence_loop_Crash rec w pre q post [] s rs s1 s' Ht Hq). reflexivity.
  - intros name pre q post tag tr ign s s1 s' Hr Hq. cbn [_parse]. unfold bind at 1.
    rewrite (Choice_loop_Crash rec w tag pre q post s s1 s' Hr Hq). reflexivity.
  - intros name v sp tr ign s s' H. cbn [_parse]. unfold bind, catch.
    rewrite H. reflexivity.
  - intros p s s1 st s2 s3 H1 H2 H3. unfold Parser_parse. cbv zeta.
    unfold bind at 1. unfold catch.
    rewrite (bind_Ok_fwd _ _ _ _ _ H1), (bind_Ok_fwd _ _ _ _ _ H2).
    destruct H3 as [H3 | (raw & H3 & H4)].
    + unfold bind at 1. rewrite H3. reflexivity.
    + rewrite (bind_Ok_fwd _ _ _ _ _ H3). unfold bind at 1, lift.
      rewrite H4. reflexivity.
Qed.

End ParserLaws.

(** * The token cache and the text *)

Module TextLaws.
Import TokenStream TokenStreamSpec TokenStreamFacts TextSpec.

Lemma app_empty_r (a : string) : (a ++ "")%string = a.
Proof. induction a as [|c a IH]; cbn [append]; [reflexivity | rewrite IH; reflexivity]. Qed.

Lemma text_of_snoc (toks : list Token) (tok : Token) :
  text_of (toks ++ [tok]) = (text_of toks ++ value tok)%string.
Proof.
  induction toks as [|x toks IH]; cbn [app text_of].
  - apply app_empty_r.
  - rewrite IH. symmetry. apply ParserLaws.string_app_assoc.
Qed.

Lemma drop_add (a b : nat) (s : string) : drop (a + b) s = drop b (drop a s).
Proof.
  revert s. induction a as [|a IH]; intros s; cbn [Nat.add drop]; [reflexivity|].
  destruct s as [|c s]; [destruct b; reflexivity | apply IH].
Qed.

Lemma drop_app (m rest : string) : drop (String.length m) (m ++ rest) = rest.
Proof. induction m as [|c m IH]; cbn [String.length append drop]; [reflexivity | exact IH]. Qed.

Lemma prefix_split (m str : string) :
  String.prefix m str = true -> exists rest, str = (m ++ rest)%string.
Proof.
  revert str. induction m as [|c m IH]; intros str H.
  - exists str. reflexivity.
  - destruct str as [|d str]; cbn [String.prefix] in H; [discriminate|].
    destruct (ascii_dec c d) as [<- | Hn]; [|discriminate].
    destruct (IH str H) as (rest & ->). exists rest. reflexivity.
Qed.

(** Passing over a head of what remains leaves the rest. *)
Lemma Ignore_head (s : string) (ss : StringStream.t) (m rest : string) :
  StringStream.wf s ss ->
  StringStream.PeekRemainder ss = (m ++ rest)%string ->
  StringStream.PeekRemainder (StringStream.read_over ss (len m)) = rest.
Proof.
  intros Hwf Hr.
  pose proof (StringStreamFacts.wf_read_over s ss (len m) Hwf) as Hwf'.
  rewrite (StringStreamLaws.PeekRemainder_drop s _ Hwf').
  rewrite (StringStreamLaws.PeekRemainder_drop s ss Hwf) in Hr.
  destruct Hwf as (Hs & _ & _ & Hp).
  assert (Hl : (String.length m <= String.length s - Z.to_nat (StringStream.pos ss))%nat).
  { apply (f_equal String.length) in Hr.
    rewrite LexerFacts.length_drop, LexerLaws.string_app_length in Hr. lia. }
  unfold StringStream.read_over, StringStream.read_count.
  cbn [StringStream.set_pos StringStream.pos]. rewrite Hs.
  pose proof (StringStreamFacts.len_nonneg m) as Hm.
  destruct (len m <? 0) eqn:E; [apply Z.ltb_lt in E; lia|].
  replace (Z.to_nat (StringStream.pos ss
                     + Z.min (len m) (Z.max 0 (len s - StringStream.pos ss))))
    with (Z.to_nat (StringStream.pos ss) + String.length m)%nat
    by (unfold len in *; lia).
  rewrite drop_add, Hr. apply drop_app.
Qed.

Lemma selected (lx : Lexer.t) (ss : StringStream.t) :
  (StringStream.IsEOS ss = true /\ Lexer.Lex_select lx ss = (Lexer.patternEOS lx, ""))
  \/ (StringStream.IsEOS ss = false
      /\ ((exists p m, In p (Lexer.patterns lx)
                       /\ regex p (StringStream.PeekRemainder ss) = Some m
                       /\ Lexer.Lex_select lx ss = (p, m))
          \/ Lexer.Lex_select lx ss = (Lexer.patternUnknown lx, StringStream.Peek ss))).
Proof.
  destruct (StringStream.IsEOS ss) eqn:He.
  - left. split; [reflexivity | apply LexerLaws.Lex_select_eos; exact He].
  - right. split; [reflexivity|].
    destruct (LexerLaws.Lex_select_cases lx ss He) as [H | (_ & H)]; auto.
Qed.

(** One [Lex]: the token's value is the head of what remained, the stream
    is left with the rest, and the token is the end-of-stream token only at
    the end of the text. *)
Lemma Lex_takes_head (s : string) (lx : Lexer.t) (ss : StringStream.t) :
  StringStream.wf s ss -> anchored lx -> plain lx -> end_reserved lx ->
  StringStream.PeekRemainder ss
  = (value (fst (Lexer.Lex lx ss))
     ++ StringStream.PeekRemainder (snd (Lexer.Lex lx ss)))%string
  /\ (patternID (fst (Lexer.Lex lx ss)) = Lexer.EOS_PATTERN_ID ->
      StringStream.IsEOS (snd (Lexer.Lex lx ss)) = true).
Proof.
  intros Hwf Ha (Hpe & Hpu & Hpp) (Hru & Hrp).
  rewrite LexerFacts.Lex_eq. cbn [fst snd value patternID].
  destruct (selected lx ss) as [(He & ->) | (He & [(p & m & Hin & Hm & ->) | ->])];
    cbn [fst snd].
  - rewrite Hpe, LexerFacts.Ignore_nothing. cbn [Lexer.apply_action append].
    split; [reflexivity | intros _; exact He].
  - rewrite (Hpp p Hin). cbn [Lexer.apply_action].
    destruct (Ha p _ m Hin Hm) as (rest & Hr).
    rewrite (Ignore_head s ss m rest Hwf Hr).
    split; [exact Hr | intros Hid; exfalso; exact (Hrp p Hin Hid)].
  - rewrite Hpu. cbn [Lexer.apply_action].
    split; [|intros Hid; exfalso; exact (Hru Hid)].
    assert (Hr : StringStream.PeekRemainder ss
                 = (StringStream.Peek ss
                    ++ drop (S (Z.to_nat (StringStream.pos ss))) s)%string).
    { rewrite (StringStreamLaws.PeekRemainder_drop s ss Hwf).
      destruct (LexerFacts.len_Peek s ss Hwf He) as (_ & Hc).
      unfold StringStream.Peek, StringStream.read_text. rewrite Hc.
      destruct Hwf as (-> & _). apply StringStreamLaws.drop_split. }
    rewrite (Ignore_head s ss _ _ Hwf Hr). exact Hr.
Qed.

Section Covering.

Variable s : string.
Variable lx : Lexer.t.
Hypothesis lx_anchored : anchored lx.
Hypothesis lx_plain : plain lx.
Hypothesis lx_end : end_reserved lx.

Lemma covers_set_offset (ts : t) (o : Z) : covers s ts -> covers s (set_offset ts o).
Proof. intros H. exact H. Qed.

Lemma covers_lex_one (ts : t) :
  lexer ts = lx -> covers s ts ->
  covers s (lex_one ts) /\ lexer (lex_one ts) = lx.
Proof.
  intros Hlx (Hwf & Ht & He).
  destruct (Lex_takes_head s lx (stream ts) Hwf lx_anchored lx_plain lx_end) as (Hh & Hid).
  destruct (LexerLaws.Lex_stream s lx (stream ts) Hwf) as (Hwf' & _).
  assert (Hst : stream (lex_one ts) = snd (Lexer.Lex lx (stream ts))).
  { unfold lex_one. rewrite Hlx. destruct (Lexer.Lex lx (stream ts)); reflexivity. }
  assert (Hl : lexer (lex_one ts) = lx).
  { unfold lex_one. destruct (Lexer.Lex (lexer ts) (stream ts)); exact Hlx. }
  split; [|exact Hl]. split; [rewrite Hst; exact Hwf' | split].
  - rewrite Hst, lex_one_tokens, Hlx, text_of_snoc, ParserLaws.string_app_assoc, <- Hh.
    exact Ht.
  - intros HE. rewrite Hst. apply Hid.
    rewrite (TokenStreamLaws.IsEOS_snoc (tokens ts) _ (lex_one ts)) in HE
      by (rewrite lex_one_tokens, Hlx; reflexivity).
    apply String.eqb_eq. exact HE.
Qed.

Lemma covers_fill (ts : t) :
  ts_inv ts -> lexer ts = lx -> covers s ts ->
  covers s (fill ts) /\ lexer (fill ts) = lx.
Proof.
  intros Hi Hlx Hc.
  destruct (fill_cases ts Hi) as [(-> & _) | (-> & _)];
    [auto | apply covers_lex_one; assumption].
Qed.

Lemma covers_Get (fuel : nat) :
  forall ts o ts',
    ts_inv ts -> lexer ts = lx -> covers s ts -> Get fuel ts = (o, ts') ->
    covers s ts' /\ lexer ts' = lx.
Proof.
  induction fuel as [|fuel IH]; intros ts o ts' Hi Hlx Hc H.
  - injection H as _ <-. auto.
  - rewrite Get_S in H.
    destruct (covers_fill ts Hi Hlx Hc) as (Hcf & Hlf).
    pose proof (fill_offset ts Hi) as Hfo. pose proof (fill_in_cache ts Hi) as Hfc.
    destruct (ext_fill ts Hi) as (Hign & _).
    destruct (py_index (tokens (fill ts)) (offset (fill ts))) as [token|].
    + cbv zeta in H.
      set (ts2 := set_offset (fill ts)
                    (if IsEOS (fill ts) then llen (tokens (fill ts)) - 1
                     else offset (fill ts) + 1)) in *.
      assert (Hi2 : ts_inv ts2).
      { apply inv_advance.
        - destruct Hi as ((? & ?) & _). lia.
        - rewrite Hign. destruct Hi as (_ & _ & H3). exact H3. }
      destruct (str_in (patternID token) (ignores ts2)).
      * exact (IH ts2 o ts' Hi2 Hlf (covers_set_offset _ _ Hcf) H).
      * injection H as _ <-. split; [exact (covers_set_offset _ _ Hcf) | exact Hlf].
    + injection H as _ <-. auto.
Qed.

Lemma covers_step (fuel : nat) (c : Session.call) (ts : t) (o : outcome unit) (ts' : t) :
  ts_inv ts -> lexer ts = lx -> covers s ts -> Session.step fuel c ts = (o, ts') ->
  covers s ts' /\ lexer ts' = lx.
Proof.
  intros Hi Hlx Hc H.
  assert (HP : forall x t1, Peek fuel ts = (x, t1) -> covers s t1 /\ lexer t1 = lx).
  { intros x t1 E. unfold Peek in E. destruct (Get fuel ts) as (y & t2) eqn:Eg.
    destruct (covers_Get fuel ts y t2 Hi Hlx Hc Eg) as (Hc2 & Hl2).
    destruct y; injection E as _ <-; auto. }
  destruct c; cbn [Session.step] in H; unfold Session.ended in H.
  - destruct (Get fuel ts) as (x & t1) eqn:E. cbn [fst snd] in H.
    injection H as _ <-. exact (covers_Get fuel ts x t1 Hi Hlx Hc E).
  - destruct (Peek fuel ts) as (x & t1) eqn:E. cbn [fst snd] in H.
    injection H as _ <-. exact (HP x t1 eq_refl).
  - unfold GetPosition in H. destruct (Peek fuel ts) as (x & t1) eqn:E.
    destruct (HP x t1 eq_refl) as (Hc1 & Hl1).
    destruct x; cbn [fst snd] in H; injection H as _ <-; auto.
  - injection H as _ <-. auto.
  - injection H as _ <-. auto.
  - injection H as _ <-. auto.
Qed.

Lemma covers_run (fuel : nat) (cs : list Session.call) :
  forall ts o ts',
    ts_inv ts -> lexer ts = lx -> covers s ts -> Session.run fuel cs ts = (o, ts') ->
    covers s ts'.
Proof.
  induction cs as [|c rest IH]; intros ts o ts' Hi Hlx Hc H; cbn [Session.run] in H.
  - injection H as _ <-. exact Hc.
  - destruct (Session.step fuel c ts) as (x & t1) eqn:E.
    destruct (covers_step fuel c ts x t1 Hi Hlx Hc E) as (Hc1 & Hl1).
    destruct (TokenStreamLaws.step_inv fuel c ts x t1 Hi E) as (_ & Hi1 & _).
    destruct x as [u | e | w |]; try (injection H as _ <-; exact Hc1).
    exact (IH t1 o ts' Hi1 Hl1 Hc1 H).
Qed.

End Covering.

(** X26. The token cache is the text, cut in pieces.  For a lexer whose
    patterns match at the head of the text (as the anchored expressions
    [AddPattern] compiles do), have no actions, and do not use the
    end-of-stream id: whatever calls are made on a token stream, the values
    of the cached tokens, one after the other, are the part of the text
    lexed so far, and once the end-of-stream token is cached they are the
    whole text.  No character is lost or lexed twice, ignored tokens and
    unknown characters included. *)
Theorem X26_tokens_cover_text (lx : Lexer.t) (s : string)
    (ign : option (list PatternID)) (ts0 : t)
    (fuel : nat) (cs : list Session.call) (o : outcome unit) (ts' : t) :
  anchored lx -> plain lx -> end_reserved lx ->
  init lx s ign = Ok ts0 ->
  Session.run fuel cs ts0 = (o, ts') ->
  (text_of (tokens ts') ++ StringStream.PeekRemainder (stream ts'))%string = s
  /\ len (text_of (tokens ts')) = StringStream.GetOffset (stream ts')
  /\ (IsEOS ts' = true -> text_of (tokens ts') = s).
Proof.
  intros Ha Hp He Hinit Hrun.
  assert (H0 : lexer ts0 = lx /\ covers s ts0).
  { unfold init in Hinit.
    destruct (str_in Lexer.EOS_PATTERN_ID _); [discriminate|].
    injection Hinit as <-. cbn [lexer]. split; [reflexivity|].
    pose proof (StringStreamFacts.wf_init s) as Hwf.
    split; [exact Hwf | split; [|discriminate]].
    cbn [stream tokens text_of append].
    rewrite (StringStreamLaws.PeekRemainder_drop s _ Hwf). reflexivity. }
  destruct H0 as (Hlx & Hc0).
  destruct (covers_run s lx Ha Hp He fuel cs ts0 o ts'
              (init_inv lx s ign ts0 Hinit) Hlx Hc0 Hrun) as (Hwf & Ht & HE).
  assert (Hlen : len (text_of (tokens ts')) = StringStream.GetOffset (stream ts')).
  { pose proof (f_equal String.length Ht) as Hl.
    rewrite LexerLaws.string_app_length in Hl.
    rewrite (StringStreamLaws.PeekRemainder_drop s _ Hwf), LexerFacts.length_drop in Hl.
    destruct Hwf as (_ & _ & _ & Hpos).
    unfold len, StringStream.GetOffset in *. lia. }
  split; [exact Ht | split; [exact Hlen|]].
  intros Hend. specialize (HE Hend).
  unfold StringStream.IsEOS in HE. apply Z.eqb_eq in HE.
  destruct Hwf as (_ & Hz & _ & _). rewrite Hz in HE.
  assert (Hr : StringStream.PeekRemainder (stream ts') = EmptyString).
  { apply StringStreamLaws.length_0_empty.
    pose proof (f_equal String.length Ht) as Hl.
    rewrite LexerLaws.string_app_length in Hl. unfold len in *. lia. }
  rewrite Hr, app_empty_r in Ht. exact Ht.
Qed.

Lemma X26_tokens_cover_text_witness :
  let cs := [Session.CallGet; Session.CallPeek; Session.CallGet; Session.CallGet] in
  let ts' := snd (Session.run 3 cs Examples.ts_ab) in
  (text_of (tokens ts') ++ StringStream.PeekRemainder (stream ts'))%string = "ab"
  /\ len (text_of (tokens ts')) = StringStream.GetOffset (stream ts')
  /\ (IsEOS ts' = true -> text_of (tokens ts') = "ab").
Proof.
  intros cs ts'.
  apply (X26_tokens_cover_text (Examples.lexer_of [Examples.pat_a; Examples.pat_b])
           "ab" None Examples.ts_ab 3 cs (Ok tt) ts').
  - intros p str m [<- | [<- | []]]; cbn [regex Examples.pat_a Examples.pat_b];
      unfold Examples.re_lit; destruct (String.prefix _ str) eqn:E; try discriminate;
      intros H; injection H as <-; exact (prefix_split _ _ E).
  - split; [reflexivity | split; [reflexivity|]].
    intros p [<- | [<- | []]]; reflexivity.
  - split; [discriminate|]. intros p [<- | [<- | []]]; discriminate.
  - reflexivity.
  - apply ParserFacts.pair_eq; [vm_compute; reflexivity | reflexivity].
Defined.

End TextLaws.
